(** * hono-ai-chat: rate limiter, message classifier, prompt helpers,
      completion post-processing and session store

    Shallow embedding of
      - [src/middleware/rateLimit.ts]   (RateLimiter and its middleware)
      - [src/middleware/auth.ts]        (the bearer token check)
      - [src/middleware/cors.ts]        (the list of origins)
      - [src/config/env.ts]             (getEnv, validateConfig)
      - [src/services/context.ts]       (ContextService)
      - [src/services/groq.ts]          (GroqService)
      - [src/services/session.ts]       (SessionService)
      - [src/routes/chat.ts]            (the routes under /api/chat)

    Strings are sequences of code units; the development works over the
    8-bit code units of [Ascii.ascii] (the Latin-1 range of a JavaScript
    string), written as [list ascii] so that the list lemmas apply.
    Numbers are integers in [Z], which the doubles of the source are as
    long as they stay within the safe integers; where NaN or undefined
    can arise, a number is an [option Z] with [None] for it.  Patterns
    are run by a backtracking matcher with the priorities of ECMAScript.
    The clock, the generator of identifiers, the key-value namespace and
    the completion API are kept in an explicit world; the lines written
    to the log are left out. *)

From stdpp Require Import base gmap strings pretty.
From Stdlib Require Import ZArith Lia Bool List Ascii String.
Import ListNotations.

Local Open Scope list_scope.

(* ===================================================================== *)
(** ** Text: code units, case mapping, trimming, substring search *)
(* ===================================================================== *)

Module Text.

Abbreviation text := (list ascii).

(** A string literal as a sequence of code units. *)
Definition str (s : string) : text := list_ascii_of_string s.

Definition code (c : ascii) : nat := nat_of_ascii c.

Definition between (lo hi : nat) (c : ascii) : bool :=
  (lo <=? code c)%nat && (code c <=? hi)%nat.

(** [String.prototype.toLowerCase] on one code unit of the Latin-1 range:
    A-Z and the accented capitals U+00C0..U+00DE (without the
    multiplication sign U+00D7) move up by 32. *)
Definition lower_char (c : ascii) : ascii :=
  if between 65 90 c || (between 192 222 c && negb (code c =? 215)%nat)
  then ascii_of_nat (code c + 32) else c.

(** The inverse mapping; this is also what [Canonicalize] does to a code
    unit under the [i] flag (without [u]): small letters go to capitals,
    and a code unit whose capital lies outside the range is kept. *)
Definition upper_char (c : ascii) : ascii :=
  if between 97 122 c || (between 224 254 c && negb (code c =? 247)%nat)
  then ascii_of_nat (code c - 32) else c.

Definition toLowerCase (s : text) : text := map lower_char s.

(** White space and line terminators of the range, as used by
    [String.prototype.trim] and by the class [\s]. *)
Definition is_space (c : ascii) : bool :=
  between 9 13 c || (code c =? 32)%nat || (code c =? 160)%nat.

(** [\w] is [A-Za-z0-9_]. *)
Definition is_word (c : ascii) : bool :=
  between 97 122 c || between 65 90 c || between 48 57 c || (code c =? 95)%nat.

Fixpoint trimStart (s : text) : text :=
  match s with
  | [] => []
  | c :: s' => if is_space c then trimStart s' else s
  end.

Definition trimEnd (s : text) : text := rev (trimStart (rev s)).

Definition trim (s : text) : text := trimEnd (trimStart s).

Fixpoint startsWith (s p : text) {struct p} : bool :=
  match p, s with
  | [], _ => true
  | _ :: _, [] => false
  | a :: p', c :: s' => Ascii.eqb c a && startsWith s' p'
  end.

(** [String.prototype.includes]: some suffix of [s] starts with [p]. *)
Fixpoint includes (s p : text) : bool :=
  startsWith s p ||
  match s with
  | [] => false
  | _ :: s' => includes s' p
  end.

(** [p] occurs in [s]; and it occurs up to the case of letters. *)
Definition occurs (p s : text) : Prop :=
  exists pre post, s = pre ++ p ++ post.

Definition occurs_ci (p s : text) : Prop :=
  exists pre w post, s = pre ++ w ++ post /\ toLowerCase w = toLowerCase p.

End Text.

Import Text.

(* ===================================================================== *)
(** ** Regular expressions: a backtracking matcher *)
(* ===================================================================== *)

Module RegExp.

(** Members of a character class. *)
Inductive citem :=
| IChar (c : ascii)          (* a single code unit *)
| IRange (lo hi : ascii)     (* lo-hi *)
| IWord                      (* \w *)
| ISpace                     (* \s *)
| INotSpace.                 (* \S *)

(** The fragment of the pattern language that the sources use. *)
Inductive regex :=
| Eps
| Chr (c : ascii)                     (* a literal code unit *)
| Cls (neg : bool) (items : list citem)  (* [...] and [^...] *)
| Seq (r1 r2 : regex)
| Alt (r1 r2 : regex)                 (* r1|r2 *)
| Star (greedy : bool) (r : regex)    (* r* and r*? *)
| Group (n : nat) (r : regex)         (* the n-th capturing ( ) *)
| WordB                               (* \b *)
| NegLook (r : regex).                (* (?!r) *)

Definition Plus (r : regex) : regex := Seq r (Star true r).
Definition Opt (r : regex) : regex := Alt r Eps.

Fixpoint Lit (s : text) : regex :=
  match s with
  | [] => Eps
  | c :: s' => Seq (Chr c) (Lit s')
  end.

Fixpoint Alts (rs : list regex) : regex :=
  match rs with
  | [] => Cls false []
  | [r] => r
  | r :: rs' => Alt r (Alts rs')
  end.

(** Position of the matcher in the subject: the code unit before the
    position (for [\b]), the rest of the subject, the index, and the
    captures made so far. *)
Record mstate := MState {
  before : option ascii;
  rest : text;
  idx : nat;
  caps : list (nat * text)
}.

Definition start_state (prev : option ascii) (s : text) : mstate :=
  MState prev s 0 [].

Definition advance (c : ascii) (s' : text) (st : mstate) : mstate :=
  MState (Some c) s' (S (idx st)) (caps st).

Definition set_cap (n : nat) (v : text) (st : mstate) : mstate :=
  MState (before st) (rest st) (idx st) ((n, v) :: caps st).

Fixpoint get_cap (n : nat) (cs : list (nat * text)) : option text :=
  match cs with
  | [] => None
  | (m, v) :: cs' => if (m =? n)%nat then Some v else get_cap n cs'
  end.

(** Equality of code units, up to case when the [i] flag is set. *)
Definition char_eq (ci : bool) (a b : ascii) : bool :=
  if ci then Ascii.eqb (upper_char a) (upper_char b) else Ascii.eqb a b.

Definition in_range (lo hi c : ascii) : bool :=
  between (code lo) (code hi) c.

Definition item_match (ci : bool) (c : ascii) (it : citem) : bool :=
  match it with
  | IChar a => char_eq ci c a
  | IRange lo hi =>
      if ci then in_range lo hi c || in_range lo hi (lower_char c)
                || in_range lo hi (upper_char c)
      else in_range lo hi c
  | IWord => is_word c
  | ISpace => is_space c
  | INotSpace => negb (is_space c)
  end.

Definition cls_match (ci neg : bool) (items : list citem) (c : ascii) : bool :=
  xorb neg (existsb (item_match ci c) items).

Definition word_before (st : mstate) : bool :=
  match before st with Some c => is_word c | None => false end.

Definition word_after (st : mstate) : bool :=
  match rest st with c :: _ => is_word c | [] => false end.

(** [s] starts with [p], up to case when the flag is set; and [p] occurs
    in [s] up to case. *)
Fixpoint starts (ci : bool) (s p : text) {struct p} : bool :=
  match p, s with
  | [], _ => true
  | _ :: _, [] => false
  | a :: p', c :: s' => char_eq ci c a && starts ci s' p'
  end.

Fixpoint includes_ci (s p : text) : bool :=
  starts true s p ||
  match s with
  | [] => false
  | _ :: s' => includes_ci s' p
  end.

(** The state [n] code units further on. *)
Fixpoint advance_by (n : nat) (st : mstate) : mstate :=
  match n with
  | O => st
  | S n' =>
      match rest st with
      | c :: s' => advance_by n' (advance c s' st)
      | [] => st
      end
  end.

(** The code unit before the position once [t] has been passed. *)
Definition prev_after (prev : option ascii) (t : text) : option ascii :=
  fold_left (fun _ c => Some c) t prev.

Section Matcher.

Variable ci : bool.   (* the [i] flag *)

(** The loop of a star over the matcher [m] of its body: another round
    first when the star is greedy, the continuation first when it is
    lazy.  A round that consumes nothing is rejected, as in ECMAScript's
    RepeatMatcher, so the number of code units left bounds the rounds. *)
Fixpoint star_loop (greedy : bool)
    (m : mstate -> (mstate -> option mstate) -> option mstate)
    (k : mstate -> option mstate) (fuel : nat) (st0 : mstate) : option mstate :=
  match fuel with
  | O => k st0
  | S fuel' =>
      let again :=
        m st0 (fun st1 =>
          if (idx st1 =? idx st0)%nat then None
          else star_loop greedy m k fuel' st1) in
      if greedy then
        match again with
        | Some res => Some res
        | None => k st0
        end
      else
        match k st0 with
        | Some res => Some res
        | None => again
        end
  end.

(** [rmatch r st k]: match [r] at [st] and hand every way of doing so, in
    the order of priority of a backtracking matcher, to the continuation
    [k]; the first success wins. *)
Fixpoint rmatch (r : regex) (st : mstate)
    (k : mstate -> option mstate) {struct r} : option mstate :=
  match r with
  | Eps => k st
  | Chr a =>
      match rest st with
      | c :: s' => if char_eq ci c a then k (advance c s' st) else None
      | [] => None
      end
  | Cls neg items =>
      match rest st with
      | c :: s' => if cls_match ci neg items c then k (advance c s' st) else None
      | [] => None
      end
  | Seq r1 r2 => rmatch r1 st (fun st1 => rmatch r2 st1 k)
  | Alt r1 r2 =>
      match rmatch r1 st k with
      | Some res => Some res
      | None => rmatch r2 st k
      end
  | Star greedy r1 =>
      star_loop greedy (rmatch r1) k (List.length (rest st)) st
  | Group n r1 =>
      rmatch r1 st (fun st1 =>
        k (set_cap n (firstn (idx st1 - idx st) (rest st)) st1))
  | WordB => if xorb (word_before st) (word_after st) then k st else None
  | NegLook r1 =>
      match rmatch r1 st Some with
      | Some _ => None
      | None => k st
      end
  end.

(** One attempt at a given position. *)
Definition match_at (r : regex) (prev : option ascii) (s : text) : option mstate :=
  rmatch r (start_state prev s) Some.

(** [RegExp.prototype.test] for a pattern without the [g] flag: is there a
    match at some position, scanning from the left. *)
Fixpoint test_from (r : regex) (prev : option ascii) (s : text) : bool :=
  match match_at r prev s with
  | Some _ => true
  | None =>
      match s with
      | [] => false
      | c :: s' => test_from r (Some c) s'
      end
  end.

Definition test (r : regex) (s : text) : bool := test_from r None s.

(** [String.prototype.replace] with a pattern carrying the [g] flag.  The
    replacement is computed from the matched text and the captures.  The
    scan walks the subject from the left; [skip] counts the code units of
    the last match that are still to be passed over.  After an empty match
    the scan moves on by one code unit. *)
Fixpoint replace_from (r : regex) (f : text -> list (nat * text) -> text)
    (prev : option ascii) (s : text) (skip : nat) {struct s} : text :=
  match skip with
  | S n =>
      match s with
      | [] => []
      | c :: s' => replace_from r f (Some c) s' n
      end
  | O =>
      match match_at r prev s with
      | Some st =>
          f (firstn (idx st) s) (caps st) ++
          match s with
          | [] => []
          | c :: s' =>
              match idx st with
              | O => c :: replace_from r f (Some c) s' 0
              | S n => replace_from r f (Some c) s' n
              end
          end
      | None =>
          match s with
          | [] => []
          | c :: s' => c :: replace_from r f (Some c) s' 0
          end
      end
  end.

Definition replaceAll (r : regex) (f : text -> list (nat * text) -> text)
    (s : text) : text :=
  replace_from r f None s 0.

End Matcher.

(** Vocabulary for reasoning about the matcher. *)

(** [p] occurs in [s], code unit for code unit. *)
Fixpoint includes_exact (s p : text) : bool :=
  starts false s p ||
  match s with
  | [] => false
  | _ :: s' => includes_exact s' p
  end.

(** The pattern cannot match unless the subject goes on with [p]. *)
Definition needs_prefix (ci : bool) (r : regex) (p : text) : Prop :=
  forall st k, starts ci (rest st) p = false -> rmatch ci r st k = None.

(** The pattern cannot match unless the next code unit is [a]. *)
Definition needs_first (ci : bool) (r : regex) (a : ascii) : Prop :=
  forall st k,
    match rest st with c :: _ => char_eq ci c a = false | [] => True end ->
    rmatch ci r st k = None.

(** The state [st'] is at or behind the place of [st]. *)
Definition behind (st' st : mstate) : Prop :=
  exists u, rest st = u ++ rest st'.

(** What follows a stretch cannot complete a pattern begun in it. *)
Definition tail_safe (p tail : text) : Prop :=
  forall j, (0 < j < List.length p)%nat -> starts true tail (skipn j p) = false.

End RegExp.

Import RegExp.

(* ===================================================================== *)
(** ** ContextService ([src/services/context.ts]) *)
(* ===================================================================== *)

Module ContextService.

Definition dquote : ascii := "034"%char.
Definition nl : ascii := "010"%char.

(** Pattern shorthands. *)
Definition w : regex := Cls false [IWord].              (* \w *)
Definition s_ : regex := Cls false [ISpace].            (* \s *)
Definition any : regex := Cls false [ISpace; INotSpace].  (* [\s\S] *)
Definition chars (s : string) : list citem := map IChar (str s).
Definition words (ws : list string) : regex := Alts (map (fun x => Lit (str x)) ws).

Inductive severity := info | warning | critical.

(** [extractSeverity]: the keywords are looked up in the lower-cased
    response, the critical ones first. *)
Definition critical_keywords : list text :=
  [str "critical"; str "security vulnerability"; str "sql injection"; str "xss"].

Definition warning_keywords : list text :=
  [str "warning"; str "bug"; str "issue"].

Definition extractSeverity (response : text) : severity :=
  let lowerResponse := toLowerCase response in
  if includes lowerResponse (str "critical")
     || includes lowerResponse (str "security vulnerability")
     || includes lowerResponse (str "sql injection")
     || includes lowerResponse (str "xss")
  then critical
  else if includes lowerResponse (str "warning")
          || includes lowerResponse (str "bug")
          || includes lowerResponse (str "issue")
  then warning
  else info.

(** The text mentions one of the keywords, in any mix of cases. *)
Definition mentions (keywords : list text) (s : text) : Prop :=
  exists kw, In kw keywords /\ occurs_ci kw s.

(** The pattern with the flags gi that removes a script element: the
    opening "<script\b", a run "[^<]*", any number of rounds of
    "(?!<\/script>)<[^<]*", and the closing "<\/script>"; and its twin for
    iframe. *)
Definition tag_block (name : string) : regex :=
  let close := Lit (str "</" ++ str name ++ str ">") in
  Seq (Lit (str "<" ++ str name))
   (Seq WordB
    (Seq (Star true (Cls true (chars "<")))
     (Seq (Star true
            (Seq (NegLook close)
              (Seq (Chr "<") (Star true (Cls true (chars "<"))))))
          close))).

Definition script_re : regex := tag_block "script".
Definition iframe_re : regex := tag_block "iframe".

Definition constant (v : text) : text -> list (nat * text) -> text :=
  fun _ _ => v.

(** [sanitizeCode] *)
Definition sanitizeCode (code : text) : text :=
  trim
    (replaceAll true iframe_re (constant (str "[REMOVED: iframe tag]"))
      (replaceAll true script_re (constant (str "[REMOVED: script tag]")) code)).

(** Vocabulary for what [sanitizeCode] does.  A text is taken apart into
    stretches in which no element opens, script elements and iframe
    elements;
    an element is written with what stands between the name of its
    opening tag and its closing tag. *)
Inductive segment :=
| Plain (t : text)
| Script (inner : text)
| Iframe (inner : text).

Definition is_lt (c : ascii) : bool := char_eq true c "<".

Definition no_lt (t : text) : bool := forallb (fun c => negb (is_lt c)) t.

(** The name of the opening tag ends where [inner] begins: [inner] is
    empty or begins with a code unit that is not of a word. *)
Definition opens (inner : text) : bool :=
  match inner with
  | [] => true
  | c :: _ => negb (is_word c)
  end.

(** No element opens inside a stretch. *)
Definition no_tag (t : text) : bool :=
  negb (includes_ci t (str "<script")) && negb (includes_ci t (str "<iframe")).

(** A script element reaches up to the first closing tag; so does an
    iframe element, in which no script element opens. *)
Definition segment_ok (seg : segment) : bool :=
  match seg with
  | Plain t => no_tag t
  | Script inner => opens inner && negb (includes_ci inner (str "</script>"))
  | Iframe inner =>
      opens inner && negb (includes_ci inner (str "</iframe>"))
        && negb (includes_ci inner (str "<script"))
  end.

Definition is_plain (segs : list segment) : bool :=
  match segs with
  | Plain _ :: _ => true
  | _ => false
  end.

(** Every segment is in order, and no stretch follows a stretch (the two
    would be one). *)
Fixpoint segments_ok (segs : list segment) : bool :=
  match segs with
  | [] => true
  | seg :: segs' =>
      segment_ok seg && negb (is_plain [seg] && is_plain segs') && segments_ok segs'
  end.

Definition segment_source (seg : segment) : text :=
  match seg with
  | Plain t => t
  | Script inner => str "<script" ++ inner ++ str "</script>"
  | Iframe inner => str "<iframe" ++ inner ++ str "</iframe>"
  end.

Definition segment_cleaned (seg : segment) : text :=
  match seg with
  | Plain t => t
  | Script _ => str "[REMOVED: script tag]"
  | Iframe _ => str "[REMOVED: iframe tag]"
  end.

Definition source (segs : list segment) : text := flat_map segment_source segs.

(** The text between the two passes: the script elements are gone. *)
Definition segment_unscripted (seg : segment) : text :=
  match seg with
  | Script _ => str "[REMOVED: script tag]"
  | _ => segment_source seg
  end.

Definition unscripted (segs : list segment) : text := flat_map segment_unscripted segs.

Definition cleaned (segs : list segment) : text := flat_map segment_cleaned segs.

(** What [sanitizeCode] is to do, in the words of its description and
    for every text: the blocks are replaced by the marker, from the left,
    and every other code unit stays.  A block of [name] stands at the
    head of a text that begins, up to the case of letters, with "<name"
    at the end of a word, and in which the closing tag "</name>" comes
    behind that; the block reaches through the first closing tag. *)





(** [validateCodeLength] *)
Definition validateCodeLength (code : text) (maxLength : Z) : bool :=
  (0 <? Z.of_nat (List.length code))%Z && (Z.of_nat (List.length code) <=? maxLength)%Z.

(** The patterns of [isCode], each with its flag [i]. *)
Definition strongIndicators : list (bool * regex) :=
  [ (* "\b(SELECT|INSERT|UPDATE|DELETE)\b[\s\S]*\b(FROM|INTO|SET|WHERE)\b", flag i *)
    (true,
     Seq WordB (Seq (Group 1 (words ["SELECT"; "INSERT"; "UPDATE"; "DELETE"]))
      (Seq WordB (Seq (Star true any)
        (Seq WordB (Seq (Group 2 (words ["FROM"; "INTO"; "SET"; "WHERE"])) WordB))))));
    (* "\b(function|def|async\s+function)\s+\w+\s*\(" *)
    (false,
     Seq WordB
      (Seq (Group 1 (Alts [Lit (str "function"); Lit (str "def");
                           Seq (Lit (str "async")) (Seq (Plus s_) (Lit (str "function")))]))
       (Seq (Plus s_) (Seq (Plus w) (Seq (Star true s_) (Chr "("))))));
    (* "<\w+[^>]*>[\s\S]*<\/\w+>" *)
    (false,
     Seq (Chr "<") (Seq (Plus w) (Seq (Star true (Cls true (chars ">")))
      (Seq (Chr ">") (Seq (Star true any)
        (Seq (Lit (str "</")) (Seq (Plus w) (Chr ">"))))))))
  ].

Definition codeIndicators : list (bool * regex) :=
  [ (* "\b(function|const|let|var|class|import|export|return|if|else|for|while|switch|case)\b" *)
    (false,
     Seq WordB (Seq (Group 1 (words ["function"; "const"; "let"; "var"; "class";
        "import"; "export"; "return"; "if"; "else"; "for"; "while"; "switch"; "case"]))
       WordB));
    (* "[{}\[\]();]" *)
    (false, Cls false (chars "{}[]();"));
    (* \w+\s*=\s* and then one of \w, double quote, quote, backtick *)
    (false,
     Seq (Plus w) (Seq (Star true s_) (Seq (Chr "=") (Seq (Star true s_)
       (Cls false (IWord :: IChar dquote :: chars "'`"))))));
    (* "=>" *)
    (false, Lit (str "=>"));
    (* "\w+\.\w+\(" *)
    (false, Seq (Plus w) (Seq (Chr ".") (Seq (Plus w) (Chr "("))));
    (* ":\s*(string|number|boolean|any|void|Array)" *)
    (false,
     Seq (Chr ":") (Seq (Star true s_)
       (Group 1 (words ["string"; "number"; "boolean"; "any"; "void"; "Array"]))));
    (* "<\/?[a-z][\s\S]*>", flag i *)
    (true,
     Seq (Chr "<") (Seq (Opt (Chr "/")) (Seq (Cls false [IRange "a" "z"])
       (Seq (Star true any) (Chr ">")))));
    (* "\b(SELECT|INSERT|UPDATE|DELETE|FROM|WHERE|JOIN|LIMIT|ORDER BY)\b", flag i *)
    (true,
     Seq WordB (Seq (Group 1 (words ["SELECT"; "INSERT"; "UPDATE"; "DELETE"; "FROM";
        "WHERE"; "JOIN"; "LIMIT"; "ORDER BY"])) WordB));
    (* "\/\/|\/\*|\*\/|#\s" *)
    (false,
     Alts [Lit (str "//"); Lit (str "/*"); Lit (str "*/"); Seq (Chr "#") s_])
  ].

Definition pattern_test (p : bool * regex) (s : text) : bool :=
  test (fst p) (snd p) s.

(** The first loop of [isCode]: return at the first strong pattern that
    matches. *)
Fixpoint any_strong (ps : list (bool * regex)) (s : text) : bool :=
  match ps with
  | [] => false
  | p :: ps' => if pattern_test p s then true else any_strong ps' s
  end.

(** The second loop: count the weak patterns that match. *)
Fixpoint count_matches (ps : list (bool * regex)) (s : text) (matches : nat) : nat :=
  match ps with
  | [] => matches
  | p :: ps' =>
      count_matches ps' s (if pattern_test p s then S matches else matches)
  end.

(** [isCode] *)
Definition isCode (input : text) : bool :=
  let trimmed := trim input in
  if startsWith trimmed (str "```") || includes trimmed (str "```") then true
  else if any_strong strongIndicators trimmed then true
  else
    let matches := count_matches codeIndicators trimmed 0 in
    if (List.length trimmed <? 50)%nat && (matches <? 2)%nat then false
    else (2 <=? matches)%nat.

(** Some strong pattern matches; and the number of weak patterns that
    match. *)
Definition strong_match (s : text) : Prop :=
  exists p, In p strongIndicators /\ pattern_test p s = true.

Definition weak_count (s : text) : nat :=
  List.length (List.filter (fun p => pattern_test p s) codeIndicators).

(** Lines joined by line feeds. *)
Fixpoint lines (ls : list string) : text :=
  match ls with
  | [] => []
  | [l] => str l
  | l :: ls' => str l ++ nl :: lines ls'
  end.

(** The guidelines of [buildContext]. *)
Definition guidelines : text := lines [
  "You are an expert code reviewer with deep knowledge of software engineering best practices.";
  "";
  "YOUR ROLE:";
  "- Analyze code for bugs, security vulnerabilities, and performance issues";
  "- Suggest improvements for code quality, readability, and maintainability";
  "- Provide constructive feedback following best practices";
  "- Explain your reasoning clearly and concisely";
  "";
  "REVIEW FOCUS AREAS:";
  "1. **Security**: SQL injection, XSS, CSRF, authentication, authorization, secrets in code";
  "2. **Bugs**: Logic errors, edge cases, null/undefined handling, type safety";
  "3. **Performance**: Algorithm complexity, memory leaks, unnecessary operations";
  "4. **Code Quality**: DRY, SOLID principles, naming conventions, code organization";
  "5. **Best Practices**: Error handling, logging, testing, documentation";
  "";
  "OUTPUT FORMAT:";
  "Provide your review in the following structure:";
  "";
  "**Severity**: [INFO / WARNING / CRITICAL]";
  "";
  "**Issues Found**:";
  "- Issue 1: [Description]";
  "- Issue 2: [Description]";
  "";
  "**Suggestions**:";
  "1. [Specific improvement with code example if applicable]";
  "2. [Another suggestion]";
  "";
  "**Positive Aspects** (if any):";
  "- [What's done well]";
  "";
  "Keep your response concise but actionable. Focus on the most important issues first."
].

(** An optional string argument counts as given when it is present and
    not empty. *)
Definition given (o : option text) : option text :=
  match o with
  | Some (c :: s) => Some (c :: s)
  | _ => None
  end.

(** [buildSystemPrompt] *)
Definition buildSystemPrompt (language : option text) : text :=
  let langContext :=
    match given language with
    | Some l =>
        nl :: str "PROGRAMMING LANGUAGE: " ++ l ++ nl :: str "Focus on " ++ l
          ++ str "-specific best practices and common pitfalls."
    | None => []
    end in
  guidelines ++ langContext.

(** [buildUserPrompt] *)
Definition buildUserPrompt (code : text) (userContext : option text) : text :=
  let contextNote :=
    match given userContext with
    | Some u => nl :: nl :: str "ADDITIONAL CONTEXT:" ++ nl :: u ++ [nl]
    | None => []
    end in
  str "Please review the following code:" ++ contextNote ++ nl :: nl ::
  str "```" ++ nl :: code ++ nl :: str "```" ++ nl :: nl ::
  str "Provide a comprehensive code review focusing on security, bugs, performance, and best practices.".

(** [buildChatSystemPrompt] *)
Definition buildChatSystemPrompt : text := lines [
  "You are a helpful AI assistant that specializes in software development and programming.";
  "";
  "YOUR ROLE:";
  "- Answer questions about programming, software development, and technology";
  "- Provide explanations and guidance";
  "- Help with problem-solving and debugging concepts";
  "- Be friendly and conversational";
  "";
  "IMPORTANT:";
  "- If the user provides code snippets, you can discuss them, but don't automatically do a full code review unless specifically asked";
  "- Be concise and helpful";
  "- Use clear, simple language";
  "- Provide examples when helpful"
].

(** [buildChatUserPrompt] *)
Definition buildChatUserPrompt (message : text) : text := message.

(** The methods of the service that [SessionService] calls, as the object
    handed to its constructor. *)
Record Methods := {
  m_sanitizeCode : text -> text;
  m_isCode : text -> bool;
  m_buildSystemPrompt : option text -> text;
  m_buildUserPrompt : text -> option text -> text;
  m_extractSeverity : text -> severity;
  m_buildChatSystemPrompt : text;
  m_buildChatUserPrompt : text -> text
}.

(** The same object with another [extractSeverity]. *)
Definition with_extractSeverity (ms : Methods) (f : text -> severity) : Methods := {|
  m_sanitizeCode := m_sanitizeCode ms;
  m_isCode := m_isCode ms;
  m_buildSystemPrompt := m_buildSystemPrompt ms;
  m_buildUserPrompt := m_buildUserPrompt ms;
  m_extractSeverity := f;
  m_buildChatSystemPrompt := m_buildChatSystemPrompt ms;
  m_buildChatUserPrompt := m_buildChatUserPrompt ms
|}.

(** [createContextService] *)
Definition createContextService : Methods := {|
  m_sanitizeCode := sanitizeCode;
  m_isCode := isCode;
  m_buildSystemPrompt := buildSystemPrompt;
  m_buildUserPrompt := buildUserPrompt;
  m_extractSeverity := extractSeverity;
  m_buildChatSystemPrompt := buildChatSystemPrompt;
  m_buildChatUserPrompt := buildChatUserPrompt
|}.

End ContextService.

Import ContextService.

(* ===================================================================== *)
(** ** GroqService ([src/services/groq.ts]): post-processing of the reply *)
(* ===================================================================== *)

Module GroqService.

Definition cap_or_empty (n : nat) (cs : list (nat * text)) : text :=
  match get_cap n cs with Some v => v | None => [] end.

(** [escapeHtml]: every one of the five characters is replaced by the
    entry of the table for it. *)
Definition escape_map (c : ascii) : text :=
  if Ascii.eqb c "&" then str "&amp;"
  else if Ascii.eqb c "<" then str "&lt;"
  else if Ascii.eqb c ">" then str "&gt;"
  else if Ascii.eqb c dquote then str "&quot;"
  else if Ascii.eqb c "'" then str "&#039;"
  else [c].

Definition html_special : regex :=
  Cls false (IChar "&" :: IChar "<" :: IChar ">" :: IChar dquote :: [IChar "'"]).

Definition escapeHtml (t : text) : text :=
  replaceAll false html_special
    (fun m _ => match m with c :: _ => escape_map c | [] => [] end) t.

(** "on\w+=", a double quote, any run without a double quote, a double
    quote; flags gi. *)
Definition handler_re : regex :=
  Seq (Lit (str "on")) (Seq (Plus w) (Seq (Chr "=") (Seq (Chr dquote)
    (Seq (Star true (Cls true [IChar dquote])) (Chr dquote))))).

(** [sanitizeResponse] *)
Definition sanitizeResponse (response : text) : text :=
  trim
    (replaceAll true handler_re (constant [])
      (replaceAll true iframe_re (constant [])
        (replaceAll true script_re (constant []) response))).

(** The fence: three backticks, "(\w+)?", a line feed, "([\s\S]*?)",
    three backticks; flag g. *)
Definition fence_re : regex :=
  Seq (Lit (str "```")) (Seq (Opt (Group 1 (Plus w))) (Seq (Chr nl)
    (Seq (Group 2 (Star false any)) (Lit (str "```"))))).

(** A backtick, "([^`]+)", a backtick. *)
Definition inline_re : regex :=
  Seq (Chr "`") (Seq (Group 1 (Plus (Cls true (chars "`")))) (Chr "`")).

(** "\*\*([^*]+)\*\*" *)
Definition bold_re : regex :=
  Seq (Lit (str "**")) (Seq (Group 1 (Plus (Cls true (chars "*")))) (Lit (str "**"))).

(** "\*([^*]+)\*" *)
Definition italic_re : regex :=
  Seq (Chr "*") (Seq (Group 1 (Plus (Cls true (chars "*")))) (Chr "*")).

(** The callback of the fence: the language defaults to text when the
    first group did not take part (or is empty); the body is trimmed and
    escaped. *)
Definition fence_markup (_ : text) (cs : list (nat * text)) : text :=
  let lang := match get_cap 1 cs with
              | Some (c :: l) => c :: l
              | _ => str "text"
              end in
  str "<pre><code class=" ++ [dquote] ++ str "language-" ++ lang ++ [dquote]
    ++ str ">" ++ escapeHtml (trim (cap_or_empty 2 cs)) ++ str "</code></pre>".

(** A replacement template of the shape  open $1 close. *)
Definition wrap1 (open close : string) (_ : text) (cs : list (nat * text)) : text :=
  str open ++ cap_or_empty 1 cs ++ str close.

(** [formatReview] *)
Definition formatReview (review : text) : text :=
  let formatted :=
    replaceAll false italic_re (wrap1 "<em>" "</em>")
      (replaceAll false bold_re (wrap1 "<strong>" "</strong>")
        (replaceAll false inline_re (wrap1 "<code>" "</code>")
          (replaceAll false fence_re fence_markup review))) in
  sanitizeResponse formatted.



(** A fenced block: three backticks, the language, a line feed, the
    body, three backticks; and the element it is turned into. *)
Definition fenced (lang body : text) : text :=
  str "```" ++ lang ++ nl :: body ++ str "```".




(** Vocabulary for what [formatReview] does to fenced blocks.  A review
    is taken apart into its fenced blocks and the stretches of text
    between them; a block becomes its element, a stretch stays. *)
Inductive piece :=
| Words (t : text)
| Fence (lang body : text).





(** The tags that [formatReview] puts around a span. *)
Definition span_tags : list (text * text) :=
  [(str "<code>", str "</code>"); (str "<strong>", str "</strong>");
   (str "<em>", str "</em>")].

(** Somewhere an equals sign is followed by a double quote. *)
Fixpoint eq_then_quote (s : text) : bool :=
  match s with
  | [] => false
  | c :: s' =>
      (Ascii.eqb c "=" && match s' with d :: _ => Ascii.eqb d dquote | [] => false end)
      || eq_then_quote s'
  end.

(** None of the code units is the given one. *)
Definition lacks (a : ascii) (t : text) : bool :=
  forallb (fun c => negb (Ascii.eqb c a)) t.




End GroqService.

Import GroqService.

(* ===================================================================== *)
(** ** RateLimiter ([src/middleware/rateLimit.ts]) *)
(* ===================================================================== *)

Module RateLimiter.

Local Open Scope Z_scope.

Record Entry := { count : Z; resetAt : Z }.

(** The names of the members of Object.prototype.  The object [store] is
    made by [{}], so a lookup [this.store[identifier]] under one of these
    names finds, where the object has no property of its own, the
    inherited member: a function (for [__proto__] the prototype itself),
    which is truthy and has neither [count] nor [resetAt]. *)
Definition inherited : list text :=
  [str "constructor"; str "__defineGetter__"; str "__defineSetter__";
   str "hasOwnProperty"; str "__lookupGetter__"; str "__lookupSetter__";
   str "isPrototypeOf"; str "propertyIsEnumerable"; str "toString";
   str "valueOf"; str "__proto__"; str "toLocaleString"].

Definition is_inherited (identifier : text) : bool :=
  bool_decide (identifier ∈ inherited).

(** A limiter.  The object [store] is given by its own properties.  None
    of them has an inherited name: the object starts empty, [check] is the
    only method that writes to it, and under an inherited name [check]
    never gets to the assignment (see there). *)
Record t := {
  store : gmap text Entry;
  limit : Z;
  windowMs : Z;
  store_own : map_Forall (fun identifier _ => identifier ∉ inherited) store
}.

(** What [check] answers.  [remaining] is a number, with [None] for NaN;
    [resetAt] is a number or, as [None], undefined. *)
Record Result := {
  allowed : bool;
  remaining : option Z;
  res_resetAt : option Z
}.

(** The numbers of the source are doubles.  They are the integers of this
    model as long as the values stay safe integers, at most 2^53 - 1 in
    size ([Number.isSafeInteger]); the statements about the numbers that
    [check] answers ask this of the limit, the window and the times. *)
Definition safe (z : Z) : bool := (- (2 ^ 53 - 1) <=? z) && (z <=? 2 ^ 53 - 1).

Definition safe_at (rl : t) (now : Z) : bool :=
  safe (limit rl) && safe (limit rl - 1) && safe (windowMs rl)
    && safe now && safe (now + windowMs rl).

(** The constructor (the timer of [cleanup] is set up by the caller of
    this model, see [cleanup]). *)
Definition new (limit windowSeconds : Z) : t :=
  {| store := ∅; limit := limit; windowMs := windowSeconds * 1000;
     store_own := map_Forall_empty _ |}.

(** [this.store[identifier] = entry], under a name that is not
    inherited. *)
Definition put (identifier : text) (own : identifier ∉ inherited) (entry : Entry)
    (rl : t) : t :=
  {| store := <[identifier := entry]> (store rl);
     limit := limit rl; windowMs := windowMs rl;
     store_own := map_Forall_insert_2 _ _ _ _ own (store_own rl) |}.

(** Is the entry to be replaced: [!entry || now > entry.resetAt]. *)
Definition stale (now : Z) (entry : option Entry) : bool :=
  match entry with
  | None => true
  | Some e => now >? resetAt e
  end.

(** The answer of [check] under an inherited name.  The entry is then
    the inherited member: it is truthy, and [now > entry.resetAt] compares
    with undefined and fails, so no entry is made; [entry.count++] leaves
    NaN on the member, [NaN <= limit] fails, [Math.max(0, NaN)] is NaN and
    [entry.resetAt] is undefined. *)
Definition refused : Result :=
  {| allowed := false; remaining := None; res_resetAt := None |}.

(** [check], at the time [now] read from [Date.now()]. *)
Definition check (now : Z) (identifier : text) (rl : t) : t * Result :=
  match decide (identifier ∈ inherited) with
  | left _ => (rl, refused)
  | right own =>
      let entry := store rl !! identifier in
      let fresh :=
        (put identifier own {| count := 1; resetAt := now + windowMs rl |} rl,
         {| allowed := true; remaining := Some (limit rl - 1);
            res_resetAt := Some (now + windowMs rl) |}) in
      (* No entry or expired - create new *)
      if stale now entry then fresh
      else
        match entry with
        | Some e =>
            (* Increment counter *)
            let e' := {| count := count e + 1; resetAt := resetAt e |} in
            (put identifier own e' rl,
             {| allowed := count e' <=? limit rl;
                remaining := Some (Z.max 0 (limit rl - count e'));
                res_resetAt := Some (resetAt e') |})
        | None => fresh
        end
  end.

(** [cleanup]: drop the entries whose reset time has passed
    ([Object.keys] lists the own properties). *)
Definition cleanup (now : Z) (rl : t) : t :=
  {| store := stdpp.base.filter
                (λ kv : text * Entry, (resetAt (snd kv) <? now) = false) (store rl);
     limit := limit rl; windowMs := windowMs rl;
     store_own := fun identifier e found =>
       store_own rl identifier e
         (proj1 (proj1 (map_lookup_filter_Some _ _ _ _) found)) |}.

(** [reset]: [delete] removes an own property and nothing else, so under
    an inherited name it removes nothing. *)
Definition reset (identifier : text) (rl : t) : t :=
  {| store := delete identifier (store rl);
     limit := limit rl; windowMs := windowMs rl;
     store_own := map_Forall_delete _ _ _ (store_own rl) |}.

(** A run of checks for one identifier at the given times; the results
    come in the order of the calls. *)
Fixpoint check_all (times : list Z) (identifier : text) (rl : t) : t * list Result :=
  match times with
  | [] => (rl, [])
  | now :: times' =>
      let '(rl1, r) := check now identifier rl in
      let '(rl2, rs) := check_all times' identifier rl1 in
      (rl2, r :: rs)
  end.

(** What the checks after the first one of a window are expected to
    answer, for an entry that stands at [count]. *)
Fixpoint window_results (limit resetAt count : Z) (n : nat) : list Result :=
  match n with
  | O => []
  | S n' =>
      {| allowed := count + 1 <=? limit;
         remaining := Some (Z.max 0 (limit - (count + 1)));
         res_resetAt := Some resetAt |}
      :: window_results limit resetAt (count + 1) n'
  end.

End RateLimiter.

(* ===================================================================== *)
(** ** Effects: errors, the clock, random identifiers, the key-value
       store and the completion API *)
(* ===================================================================== *)

Module Effects.

Local Open Scope Z_scope.

Inductive role := system | user | assistant.

Record ChatMessage := { msg_role : role; content : text }.

Record ChatSession := {
  id : text;
  messages : list ChatMessage;
  created_at : text;
  updated_at : text;
  expires_at : text
}.

(** The errors that can be thrown.  The first three are the subclasses of
    [AppError] that the sources construct; [TypeError] is the built-in
    one, [OtherError] any other [Error] (a failure of the transport). *)
Inductive error :=
| ValidationError (message : text)
| SessionError (message : text)
| AIServiceError (message : text)
| TypeError (message : text)
| OtherError (message : text).

(** Modelled from the spec: the status that [src/utils/errors.ts] gives to
    each subclass of [AppError] (section 7), together with the global
    error handler of [src/index.ts], which answers 500 to anything that is
    not an [AppError]. *)
Definition statusCode (e : error) : Z :=
  match e with
  | ValidationError _ => 400
  | SessionError _ => 404
  | AIServiceError _ => 502
  | TypeError _ => 500
  | OtherError _ => 500
  end.

(** What the completion API answers to a request: the call is rejected,
    or it brings the contents of the choices. *)
Inductive completion :=
| Rejected (message : text)
| Choices (contents : list (option text)).

(** The surroundings of the program.  The clock gives its n-th reading,
    the generator of identifiers its n-th draw; both are arbitrary.
    Serialisation is that of JSON. *)
Record Env := {
  clock : nat -> Z;
  randomUUID : nat -> text;
  toISOString : Z -> text;
  stringify : ChatSession -> text;
  safeJsonParse : text -> ChatSession -> ChatSession;
  create : list ChatMessage -> completion
}.

(** The state that the program changes: the key-value namespace (each
    value with the time at which it expires), how often the clock and the
    generator were used, and the requests sent to the completion API. *)
Record World := {
  kv : gmap text (text * Z);
  reads : nat;
  draws : nat;
  calls : list (list ChatMessage)
}.

(** Surroundings for the examples: the clock advances by a second per
    reading, identifiers are numbered, a session is serialised by its
    identifier and the number of its messages, parsing gives the fallback
    with ten earlier messages, and the completion API answers every
    request with the same sentence. *)
Definition sample_env : Env := {|
  clock := fun n => 1000 * Z.of_nat n;
  randomUUID := fun n => str "session-" ++ str (pretty n);
  toISOString := fun t => str (pretty t);
  stringify := fun s => id s ++ str "/" ++ str (pretty (List.length (messages s)));
  safeJsonParse := fun _ fallback =>
    {| id := id fallback;
       messages := repeat {| msg_role := user; content := str "earlier" |} 10;
       created_at := created_at fallback;
       updated_at := updated_at fallback;
       expires_at := expires_at fallback |};
  create := fun _ => Choices [Some (str "Looks fine to me.")]
|}.

Definition empty_world : World :=
  {| kv := ∅; reads := 0; draws := 0; calls := [] |}.

Definition sample_session : ChatSession :=
  {| id := str "session-7"; messages := [];
     created_at := str "0"; updated_at := str "0"; expires_at := str "3600000" |}.

Definition ten_messages : list ChatMessage :=
  map (fun n => {| msg_role := user; content := str (pretty n) |}) (seq 0 10).

Definition M (A : Type) : Type := World -> (error + A) * World.

Definition ret {A} (a : A) : M A := fun w => (inr a, w).

Definition bind {A B} (m : M A) (f : A -> M B) : M B :=
  fun w =>
    match m w with
    | (inr a, w') => f a w'
    | (inl e, w') => (inl e, w')
    end.

Definition throw {A} (e : error) : M A := fun w => (inl e, w).

(** try m catch h *)
Definition catch {A} (m : M A) (h : error -> M A) : M A :=
  fun w =>
    match m w with
    | (inl e, w') => h e w'
    | (inr a, w') => (inr a, w')
    end.

Notation "'let*' x := m 'in' f" := (bind m (fun x => f))
  (at level 10, x name, m at level 100, f at level 200).

Section WithEnv.

Variable E : Env.

(** [Date.now()] and [new Date()] *)
Definition now : M Z :=
  fun w => (inr (clock E (reads w)),
            {| kv := kv w; reads := S (reads w); draws := draws w; calls := calls w |}).

(** [crypto.randomUUID()] *)
Definition uuid : M text :=
  fun w => (inr (randomUUID E (draws w)),
            {| kv := kv w; reads := reads w; draws := S (draws w); calls := calls w |}).

Definition set_kv (m : gmap text (text * Z)) : M unit :=
  fun w => (inr tt, {| kv := m; reads := reads w; draws := draws w; calls := calls w |}).

Definition get_kv : M (gmap text (text * Z)) := fun w => (inr (kv w), w).

(** [kv.put(key, value, { expirationTtl })]: the value expires
    [expirationTtl] seconds after the write. *)
Definition kv_put (key value : text) (expirationTtl : Z) : M unit :=
  let* t := now in
  let* m := get_kv in
  set_kv (<[key := (value, t + expirationTtl * 1000)]> m).

(** [kv.get(key, 'text')]: null for a key that is absent or has expired. *)
Definition kv_get (key : text) : M (option text) :=
  let* t := now in
  let* m := get_kv in
  ret (match m !! key with
       | Some (v, expiry) => if t <? expiry then Some v else None
       | None => None
       end).

(** [kv.delete(key)] *)
Definition kv_delete (key : text) : M unit :=
  let* m := get_kv in
  set_kv (delete key m).

(** [client.chat.completions.create] *)
Definition send (msgs : list ChatMessage) : M completion :=
  fun w => (inr (create E msgs),
            {| kv := kv w; reads := reads w; draws := draws w;
               calls := calls w ++ [msgs] |}).

(** [GroqService.chatCompletion] (its log lines and the timing they
    report are left out).  The [try] block throws on a rejected call, on
    an answer without choices and on an empty content; the [catch] block
    passes an [AIServiceError] on and wraps anything else. *)
Definition chatCompletion (msgs : list ChatMessage) : M text :=
  catch
    (let* c := send msgs in
     match c with
     | Rejected message => throw (OtherError message)
     | Choices [] => throw (AIServiceError (str "No response from model"))
     | Choices (Some (c0 :: s) :: _) => ret (c0 :: s)
     | Choices (_ :: _) => throw (AIServiceError (str "Empty response from model"))
     end)
    (fun e =>
       match e with
       | AIServiceError _ => throw e
       | ValidationError m | SessionError m | TypeError m | OtherError m =>
           throw (AIServiceError
                    (match m with [] => str "Unknown error occurred" | _ => m end))
       end).

(** [GroqService.reviewCode] *)
Definition reviewCode (code systemPrompt userPrompt : text)
    (previousMessages : list ChatMessage) : M text :=
  chatCompletion
    ({| msg_role := system; content := systemPrompt |} :: previousMessages
       ++ [{| msg_role := user; content := userPrompt |}]).

End WithEnv.

End Effects.

Import Effects.

(* ===================================================================== *)
(** ** SessionService ([src/services/session.ts]) *)
(* ===================================================================== *)

Module SessionService.

Local Open Scope Z_scope.

Record Review := {
  review : text;
  rv_severity : severity;
  sessionId : text
}.

Definition with_messages (s : ChatSession) (ms : list ChatMessage) : ChatSession :=
  {| id := id s; messages := ms; created_at := created_at s;
     updated_at := updated_at s; expires_at := expires_at s |}.

Definition with_updated_at (s : ChatSession) (t : text) : ChatSession :=
  {| id := id s; messages := messages s; created_at := created_at s;
     updated_at := t; expires_at := expires_at s |}.

(** [Array.prototype.slice(-n)]: the last [n] elements. *)
Definition slice_last {A} (n : nat) (l : list A) : list A :=
  skipn (List.length l - n) l.

(** Keep only the last 10 messages. *)
Definition truncate (ms : list ChatMessage) : list ChatMessage :=
  if (10 <? List.length ms)%nat then slice_last 10 ms else ms.

Definition key_of (sessionId : text) : text := str "session:" ++ sessionId.

(** The world after one more reading of the clock, and after one more
    request to the completion API. *)
Definition ticked (w : World) : World :=
  {| kv := kv w; reads := S (reads w); draws := draws w; calls := calls w |}.

Definition sent (w : World) (msgs : list ChatMessage) : World :=
  {| kv := kv w; reads := reads w; draws := draws w; calls := calls w ++ [msgs] |}.

(** The entry under a key is gone at the time [t]: it is absent, or the
    time of its expiry has come. *)
Definition gone (w : World) (key : text) (t : Z) : Prop :=
  kv w !! key = None \/ exists v expiry, kv w !! key = Some (v, expiry) /\ expiry <= t.

Section Service.

Variable E : Env.
Variable contextService : Methods.   (* the injected ContextService *)
Variable kv_bound : bool.            (* is a KV namespace bound: [this.kv] *)

Definition sessionTTL : Z := 3600.

(** [createSession] *)
Definition createSession : M ChatSession :=
  let* sessionId := uuid E in
  let* t := now E in
  let* t' := now E in
  let session := {| id := sessionId; messages := [];
                    created_at := toISOString E t;
                    updated_at := toISOString E t;
                    expires_at := toISOString E (t' + sessionTTL * 1000) |} in
  let* _ := (if kv_bound
             then kv_put E (key_of sessionId) (stringify E session) sessionTTL
             else ret tt) in
  ret session.

(** [getSession] *)
Definition getSession (sessionId : text) : M ChatSession :=
  if negb kv_bound then throw (SessionError (str "Session storage not available"))
  else
    let* sessionData := kv_get E (key_of sessionId) in
    match sessionData with
    | Some (c :: d) =>
        let* t1 := now E in
        let* t2 := now E in
        let* t3 := now E in
        ret (safeJsonParse E (c :: d)
               {| id := sessionId; messages := [];
                  created_at := toISOString E t1;
                  updated_at := toISOString E t2;
                  expires_at := toISOString E t3 |})
    | _ => throw (SessionError (str "Session not found or expired"))
    end.

(** [updateSession]; the session object is changed in place, so the
    changed session is handed back. *)
Definition updateSession (session : ChatSession) : M ChatSession :=
  if negb kv_bound then ret session
  else
    let* t := now E in
    let session' := with_updated_at session (toISOString E t) in
    let* _ := kv_put E (key_of (id session')) (stringify E session') sessionTTL in
    ret session'.

(** [addMessage] *)
Definition addMessage (sessionId : text) (r : role) (c : text) : M ChatSession :=
  let* session := catch (getSession sessionId) (fun _ => createSession) in
  let pushed := messages session ++ [{| msg_role := r; content := c |}] in
  let session := with_messages session (truncate pushed) in
  updateSession session.

(** [processCodeReview] *)
Definition processCodeReview (sessionId code : text)
    (language userContext : option text) : M Review :=
  let sanitizedCode := m_sanitizeCode contextService code in
  let* found :=
    catch (let* s := getSession sessionId in ret (s, sessionId))
          (fun _ => let* s := createSession in ret (s, id s)) in
  let session := fst found in
  let sessionId := snd found in
  let isCode := m_isCode contextService sanitizedCode in
  let previousMessages :=
    List.filter (fun msg => match msg_role msg with system => false | _ => true end)
      (messages session) in
  let* out :=
    (if isCode then
       let systemPrompt := m_buildSystemPrompt contextService language in
       let userPrompt := m_buildUserPrompt contextService sanitizedCode userContext in
       let* rawReview := reviewCode E sanitizedCode systemPrompt userPrompt previousMessages in
       let review := sanitizeResponse rawReview in
       let severity := m_extractSeverity contextService review in
       ret (userPrompt, review, severity)
     else
       let systemPrompt := m_buildChatSystemPrompt contextService in
       let userPrompt := m_buildChatUserPrompt contextService sanitizedCode in
       let* rawResponse := reviewCode E sanitizedCode systemPrompt userPrompt previousMessages in
       let review := sanitizeResponse rawResponse in
       ret (userPrompt, review, info)) in
  let '(userPrompt, review, severity) := out in
  let pushed := messages session
                  ++ [{| msg_role := user; content := userPrompt |}]
                  ++ [{| msg_role := assistant; content := review |}] in
  let session := with_messages session (truncate pushed) in
  let* _ := updateSession session in
  ret {| review := review; rv_severity := severity; sessionId := sessionId |}.

(** [deleteSession] *)
Definition deleteSession (sessionId : text) : M unit :=
  if negb kv_bound then ret tt
  else kv_delete (key_of sessionId).

(** The head of [processCodeReview]: the session of the turn together
    with the identifier that the turn reports. *)
Definition find_or_create (sessionId : text) : M (ChatSession * text) :=
  catch (let* s := getSession sessionId in ret (s, sessionId))
        (fun _ => let* s := createSession in ret (s, id s)).

(** The session that a turn works on: the one found, or a new one when
    the lookup fails (the [try]/[catch] at the head of [addMessage] and of
    [processCodeReview]). *)
Definition resolve (sessionId : text) : M ChatSession :=
  catch (getSession sessionId) (fun _ => createSession).

(** The prompts of a turn, by the branch taken, and the request that goes
    to the completion API: the system prompt, the earlier messages that
    are not system messages, the user prompt. *)
Definition prompts (code : text) (language userContext : option text) : text * text :=
  let sanitizedCode := m_sanitizeCode contextService code in
  if m_isCode contextService sanitizedCode
  then (m_buildSystemPrompt contextService language,
        m_buildUserPrompt contextService sanitizedCode userContext)
  else (m_buildChatSystemPrompt contextService,
        m_buildChatUserPrompt contextService sanitizedCode).

Definition request (session : ChatSession) (code : text)
    (language userContext : option text) : list ChatMessage :=
  {| msg_role := system; content := fst (prompts code language userContext) |}
  :: List.filter (fun msg => match msg_role msg with system => false | _ => true end)
       (messages session)
  ++ [{| msg_role := user; content := snd (prompts code language userContext) |}].

(** [n] updates of a session in a row. *)
Fixpoint updates (n : nat) (session : ChatSession) : M ChatSession :=
  match n with
  | O => ret session
  | S n' => let* session' := updateSession session in updates n' session'
  end.

End Service.

End SessionService.

Import SessionService.

(* ===================================================================== *)
(** ** The chat routes ([src/routes/chat.ts]) *)
(* ===================================================================== *)

Module ChatRoutes.

Local Open Scope Z_scope.

(** The value that [c.req.json()] yields. *)
#[warnings="-register-all"]
Inductive json :=
| JNull
| JBool (b : bool)
| JNum (z : Z)
| JStr (s : text)
| JArr (items : list json)
| JObj (fields : list (text * json)).

(** Reading the property [name] of a value that is not null; [None] is
    [undefined].  Of an object the last field of that name counts; the
    other kinds of values have no property of the names read here. *)
Definition property (name : text) (j : json) : option json :=
  match j with
  | JObj fields =>
      fold_left (fun acc kv => if decide (fst kv = name) then Some (snd kv) else acc)
        fields None
  | _ => None
  end.

(** Is the value truthy ([undefined] is not). *)
Definition truthy (v : option json) : bool :=
  match v with
  | None => false
  | Some JNull => false
  | Some (JBool b) => b
  | Some (JNum z) => negb (z =? 0)
  | Some (JStr s) => match s with [] => false | _ => true end
  | Some (JArr _) => true
  | Some (JObj _) => true
  end.

Fixpoint join (sep : text) (ls : list text) : text :=
  match ls with
  | [] => []
  | [l] => l
  | l :: ls' => l ++ sep ++ join sep ls'
  end.

(** The string that a value turns into inside a template. *)
Fixpoint to_string (j : json) : text :=
  match j with
  | JNull => str "null"
  | JBool true => str "true"
  | JBool false => str "false"
  | JNum z => str (pretty z)
  | JStr s => s
  | JArr items =>
      join (str ",")
        (map (fun x => match x with JNull => [] | _ => to_string x end) items)
  | JObj _ => str "[object Object]"
  end.

(** typeof v === 'string' *)
Definition is_string (v : option json) : bool :=
  match v with Some (JStr _) => true | _ => false end.

(** The code units of a value that is a string. *)
Definition as_text (v : option json) : text :=
  match v with Some (JStr s) => s | _ => [] end.

(** An optional argument as the service sees it: a value that is not
    truthy counts as absent, a truthy one is used by its string form.
    (The service asks once more whether the argument is truthy; for a
    truthy value with an empty string form, such as an empty array, the
    source then finds it truthy, while the empty text here counts as
    absent, see [given].) *)
Definition optional (v : option json) : option text :=
  if truthy v then option_map to_string v else None.

(** [length > maxCodeLength], where the maximum may be NaN: a comparison
    with NaN fails. *)
Definition exceeds (length : Z) (maxCodeLength : option Z) : bool :=
  match maxCodeLength with
  | Some m => length >? m
  | None => false
  end.

(** The maximum inside a template. *)
Definition maximum_string (maxCodeLength : option Z) : text :=
  match maxCodeLength with
  | Some m => str (pretty m)
  | None => str "NaN"
  end.

Record ReviewData := {
  session_id : text;
  rd_review : text;
  rd_severity : severity;
  timestamp : text
}.

Section Routes.

Variable E : Env.
Variable contextService : Methods.
Variable kv_bound : bool.
(* parseInt(config.MAX_CODE_LENGTH, 10); [None] is NaN, which is what a
   setting without a digit at its head gives *)
Variable maxCodeLength : option Z.

(** POST /review, from the parsed body on.  Destructuring the body fails
    on null; every other value can be asked for its properties. *)
Definition post_review (body : json) : M ReviewData :=
  match body with
  | JNull =>
      throw (TypeError (str "Cannot destructure property 'session_id' of 'body' as it is null."))
  | _ =>
      let session_id := property (str "session_id") body in
      let code := property (str "code") body in
      let language := property (str "language") body in
      let context := property (str "context") body in
      if negb (truthy code) || negb (is_string code) then
        throw (ValidationError (str "Code is required and must be a string"))
      else
        let code := as_text code in
        if exceeds (Z.of_nat (List.length code)) maxCodeLength then
          throw (ValidationError
                   (str "Code exceeds maximum length of " ++ maximum_string maxCodeLength
                      ++ str " characters"))
        else if (List.length (trim code) =? 0)%nat then
          throw (ValidationError (str "Code cannot be empty"))
        else
          let* sid :=
            (if truthy session_id
             then ret (match session_id with Some v => to_string v | None => [] end)
             else uuid E) in
          let* result :=
            processCodeReview E contextService kv_bound sid code
              (optional language) (optional context) in
          let* t := now E in
          ret {| session_id := sessionId result;
                 rd_review := review result;
                 rd_severity := rv_severity result;
                 timestamp := toISOString E t |}
  end.

(** The field [code] of the body is missing, not a string, empty once
    trimmed, or longer than the maximum. *)
Definition code_rejected (body : json) : Prop :=
  match property (str "code") body with
  | None => True
  | Some (JStr s) =>
      trim s = [] \/ exceeds (Z.of_nat (List.length s)) maxCodeLength = true
  | Some _ => True
  end.

(** GET /session/:id reports the session, or fails as [getSession] does. *)
Definition get_session (sessionId : text) : M ChatSession :=
  getSession E kv_bound sessionId.

End Routes.

End ChatRoutes.

(* ===================================================================== *)
(** ** Built-in functions of the configuration and the middleware *)
(* ===================================================================== *)

Module Builtins.

Local Open Scope Z_scope.

(** [String.prototype.split] with a separator of one code unit: the
    pieces between the separators; the empty string gives one empty
    piece. *)
Fixpoint split (sep : ascii) (s : text) : list text :=
  match s with
  | [] => [[]]
  | c :: s' =>
      if Ascii.eqb c sep then [] :: split sep s'
      else
        match split sep s' with
        | piece :: pieces => (c :: piece) :: pieces
        | [] => [[c]]
        end
  end.

(** [a || b] for a string [a] that may be undefined: [a], unless it is
    undefined or empty. *)
Definition or_else (a : option text) (b : text) : text :=
  match a with
  | Some (c :: s) => c :: s
  | _ => b
  end.

Definition is_digit (c : ascii) : bool := between 48 57 c.

Definition digit_value (c : ascii) : Z := Z.of_nat (code c - 48).

(** The decimal digits at the head of a text, and the number they
    write. *)
Fixpoint digits (s : text) : text :=
  match s with
  | c :: s' => if is_digit c then c :: digits s' else []
  | [] => []
  end.

Definition numeral (ds : text) : Z :=
  fold_left (fun acc d => 10 * acc + digit_value d) ds 0.

(** [parseInt(s, 10)]: white space at the head is passed over, a sign is
    read, then the digits up to the first code unit that is not one;
    [None] is NaN, the answer when there is no digit.  The value is the
    integer that the digits write.  The source answers the double nearest
    to it, which is that integer when it is a safe integer
    ([RateLimiter.safe]); beyond that the double is another number of at
    least 2^53 in size, or an infinity, and with it on the same side of
    every bound between -2^53 and 2^53.  Minus zero is zero. *)
Definition parseInt (s : text) : option Z :=
  let trimmed := trimStart s in
  let signed :=
    match trimmed with
    | c :: s' =>
        if Ascii.eqb c "-" then (-1, s')
        else if Ascii.eqb c "+" then (1, s')
        else (1, trimmed)
    | [] => (1, [])
    end in
  match digits (snd signed) with
  | [] => None
  | d :: ds => Some (fst signed * numeral (d :: ds))
  end.

(** [Number.prototype.toString] of an integer. *)
Definition toString (n : Z) : text := str (pretty n).

End Builtins.

Import Builtins.

(* ===================================================================== *)
(** ** The configuration ([src/config/env.ts]) *)
(* ===================================================================== *)

Module Config.

Local Open Scope Z_scope.

(** The bindings of the worker; [None] is a binding that is not set.
    [SESSIONS] tells whether a KV namespace is bound. *)
Record Bindings := {
  b_GROQ_API_KEY : option text;
  b_ACCESS_TOKEN : option text;
  b_SESSIONS : bool;
  b_NODE_ENV : option text;
  b_ALLOWED_ORIGINS : option text;
  b_RATE_LIMIT_REQUESTS : option text;
  b_RATE_LIMIT_WINDOW : option text;
  b_MAX_CODE_LENGTH : option text
}.

Record EnvConfig := {
  NODE_ENV : text;
  GROQ_API_KEY : text;
  ACCESS_TOKEN : option text;
  ALLOWED_ORIGINS : text;
  RATE_LIMIT_REQUESTS : text;
  RATE_LIMIT_WINDOW : text;
  MAX_CODE_LENGTH : text
}.

(** [getEnv] (the logger is told the environment; the log is left
    out). *)
Definition getEnv (bindings : Bindings) : error + EnvConfig :=
  match b_GROQ_API_KEY bindings with
  | Some (c :: k) =>
      inr {| NODE_ENV := or_else (b_NODE_ENV bindings) (str "production");
             GROQ_API_KEY := c :: k;
             ACCESS_TOKEN := b_ACCESS_TOKEN bindings;
             ALLOWED_ORIGINS := or_else (b_ALLOWED_ORIGINS bindings) (str "*");
             RATE_LIMIT_REQUESTS := or_else (b_RATE_LIMIT_REQUESTS bindings) (str "20");
             RATE_LIMIT_WINDOW := or_else (b_RATE_LIMIT_WINDOW bindings) (str "60");
             MAX_CODE_LENGTH := or_else (b_MAX_CODE_LENGTH bindings) (str "10000") |}
  | _ => inl (ValidationError (str "GROQ_API_KEY is required"))
  end.

(** [isNaN(n) || n < bound] *)
Definition nan_or_below (n : option Z) (bound : Z) : bool :=
  match n with
  | None => true
  | Some z => z <? bound
  end.

(** The array [errors] that [validateConfig] fills. *)
Definition errors_of (config : EnvConfig) : list text :=
  (if match GROQ_API_KEY config with [] => true | _ => false end
      || (List.length (GROQ_API_KEY config) <? 10)%nat
   then [str "Invalid GROQ_API_KEY"] else [])
  ++ (if nan_or_below (parseInt (RATE_LIMIT_REQUESTS config)) 1
      then [str "RATE_LIMIT_REQUESTS must be a positive number"] else [])
  ++ (if nan_or_below (parseInt (RATE_LIMIT_WINDOW config)) 1
      then [str "RATE_LIMIT_WINDOW must be a positive number"] else [])
  ++ (if nan_or_below (parseInt (MAX_CODE_LENGTH config)) 100
      then [str "MAX_CODE_LENGTH must be at least 100"] else []).

(** [validateConfig] *)
Definition validateConfig (config : EnvConfig) : error + unit :=
  if (0 <? List.length (errors_of config))%nat
  then inl (ValidationError (str "Configuration validation failed"))
  else inr tt.

End Config.

Import Config.

(* ===================================================================== *)
(** ** The middleware ([src/middleware/cors.ts], [src/middleware/auth.ts],
       [src/middleware/rateLimit.ts]) *)
(* ===================================================================== *)

Module Middleware.

Local Open Scope Z_scope.

(** What a middleware throws instead of going on to [next]: one of its
    own errors, or an error of the runtime. *)
Inductive rejection :=
| AuthenticationError (message : text)
| RateLimitError (message : text)
| Thrown (e : error).

(** [c.req.header(name)]; [None] is undefined. *)
Definition Headers : Type := text -> option text.

(** The origins that [createCorsMiddleware] hands to the CORS handler. *)
Definition allowedOrigins (config : EnvConfig) : list text :=
  if bool_decide (ALLOWED_ORIGINS config = str "*")
  then [str "*"]
  else map trim (split "," (ALLOWED_ORIGINS config)).

(** The handler of [createAuthMiddleware]; [inr tt] stands for going on
    to [next]. *)
Definition createAuthMiddleware (config : EnvConfig) (header : Headers)
    : rejection + unit :=
  match given (ACCESS_TOKEN config) with
  | None => inr tt
  | Some accessToken =>
      match given (header (str "Authorization")) with
      | None => inl (AuthenticationError (str "Missing Authorization header"))
      | Some authHeader =>
          let parts := split " " authHeader in
          let scheme := nth_error parts 0 in
          let token := nth_error parts 1 in
          if negb (bool_decide (scheme = Some (str "Bearer"))) then
            inl (AuthenticationError
                   (str "Invalid authentication scheme. Use Bearer token."))
          else if match given token with None => true | Some _ => false end
                  || negb (bool_decide (token = Some accessToken)) then
            inl (AuthenticationError (str "Invalid access token"))
          else inr tt
      end
  end.

(** The identifier under which the limiter counts a request. *)
Definition identifier_of (header : Headers) : text :=
  or_else (header (str "CF-Connecting-IP"))
    (or_else (header (str "X-Forwarded-For"))
       (or_else (header (str "X-Real-IP")) (str "unknown"))).

(** The limiter that [createRateLimitMiddleware] makes, for settings that
    [parseInt] reads as numbers within the safe integers (where the
    doubles of the source are the integers read here), the window in
    milliseconds included; [None] for other settings. *)
Definition limiter_of (config : EnvConfig) : option RateLimiter.t :=
  match parseInt (RATE_LIMIT_REQUESTS config), parseInt (RATE_LIMIT_WINDOW config) with
  | Some limit, Some window =>
      if RateLimiter.safe limit && RateLimiter.safe (window * 1000)
      then Some (RateLimiter.new limit window)
      else None
  | _, _ => None
  end.

(** What the handler of [createRateLimitMiddleware] does with a request
    at the time [now]: the limiter afterwards, the headers set on the
    response, and whether the request goes on to [next]. *)
Record Answer := {
  limiter : RateLimiter.t;
  response_headers : list (text * text);
  outcome : rejection + unit
}.

(** [Number.prototype.toString] of a number that may be NaN. *)
Definition number_toString (n : option Z) : text :=
  match n with
  | Some z => toString z
  | None => str "NaN"
  end.

(** The handler.  The three headers are set one after the other; where
    [result.resetAt] is undefined, reading its [toString] throws the
    [TypeError] of the runtime (with the message of V8) before the third
    is set. *)
Definition rateLimit (header : Headers) (now : Z) (rl : RateLimiter.t) : Answer :=
  let identifier := identifier_of header in
  let checked := RateLimiter.check now identifier rl in
  let result := snd checked in
  let limit_header := (str "X-RateLimit-Limit", toString (RateLimiter.limit rl)) in
  let remaining_header :=
    (str "X-RateLimit-Remaining", number_toString (RateLimiter.remaining result)) in
  match RateLimiter.res_resetAt result with
  | None =>
      {| limiter := fst checked;
         response_headers := [limit_header; remaining_header];
         outcome :=
           inl (Thrown (TypeError
                  (str "Cannot read properties of undefined (reading 'toString')"))) |}
  | Some resetAt =>
      {| limiter := fst checked;
         response_headers :=
           [limit_header; remaining_header;
            (str "X-RateLimit-Reset", toString resetAt)];
         outcome :=
           if negb (RateLimiter.allowed result)
           then inl (RateLimitError (str "Too many requests. Please try again later."))
           else inr tt |}
  end.

(** Requests with the same headers at the given times, through one
    handler (the entry point of the development server makes the handler
    once). *)
Fixpoint serve (header : Headers) (times : list Z) (rl : RateLimiter.t)
    : list (rejection + unit) :=
  match times with
  | [] => []
  | now :: times' =>
      let answer := rateLimit header now rl in
      outcome answer :: serve header times' (limiter answer)
  end.

(** The entry point of the worker makes the handler anew for every
    request. *)
Definition rateLimit_per_request (config : EnvConfig) (header : Headers) (now : Z)
    : option Answer :=
  option_map (rateLimit header now) (limiter_of config).

(** Calls of the methods of a limiter, run in their order; the answers of
    the checks are collected. *)
Inductive call :=
| DoCheck (now : Z) (identifier : text)
| DoCleanup (now : Z)
| DoReset (identifier : text).

(** The call is not a check under an inherited name. *)
Definition own_call (c : call) : bool :=
  match c with
  | DoCheck _ identifier => negb (RateLimiter.is_inherited identifier)
  | _ => true
  end.

Fixpoint run (calls : list call) (rl : RateLimiter.t)
    : RateLimiter.t * list RateLimiter.Result :=
  match calls with
  | [] => (rl, [])
  | DoCheck now identifier :: calls' =>
      let checked := RateLimiter.check now identifier rl in
      let rest := run calls' (fst checked) in
      (fst rest, snd checked :: snd rest)
  | DoCleanup now :: calls' => run calls' (RateLimiter.cleanup now rl)
  | DoReset identifier :: calls' => run calls' (RateLimiter.reset identifier rl)
  end.

End Middleware.

Import Middleware.

(* ===================================================================== *)
(** ** The session routes ([src/routes/chat.ts]) *)
(* ===================================================================== *)

Module SessionRoutes.

Record Created := { cr_session_id : text; cr_expires_at : text }.

Record Details := {
  dt_session_id : text;
  message_count : nat;
  dt_created_at : text;
  dt_updated_at : text;
  dt_expires_at : text
}.

Section Routes.

Variable E : Env.
Variable kv_bound : bool.

(** POST /session *)
Definition post_session : M Created :=
  let* session := createSession E kv_bound in
  ret {| cr_session_id := id session; cr_expires_at := expires_at session |}.

(** GET /session/:id *)
Definition get_session_details (sessionId : text) : M Details :=
  let* session := getSession E kv_bound sessionId in
  ret {| dt_session_id := id session;
         message_count := List.length (messages session);
         dt_created_at := created_at session;
         dt_updated_at := updated_at session;
         dt_expires_at := expires_at session |}.

(** DELETE /session/:id *)
Definition delete_session (sessionId : text) : M text :=
  let* _ := deleteSession kv_bound sessionId in
  ret (str "Session deleted successfully").

End Routes.

End SessionRoutes.

(* ===================================================================== *)
(** ** ContextService, continued: the suggestions of a response *)
(* ===================================================================== *)

Module Suggestions.

(** The line terminators of the range: line feed and carriage return. *)
Definition line_terminator (c : ascii) : bool :=
  (code c =? 10)%nat || (code c =? 13)%nat.

(** "^" and "$" under the flag m: the position is at the start of the
    subject or behind a line terminator; it is at the end of the subject
    or before a line terminator. *)
Definition at_line_start (prev : option ascii) : bool :=
  match prev with
  | None => true
  | Some c => line_terminator c
  end.

Definition at_line_end (st : mstate) : bool :=
  match rest st with
  | [] => true
  | c :: _ => line_terminator c
  end.

(** "." is any code unit but a line terminator; "\d" is a digit. *)
Definition dot : regex := Cls true [IChar "010"; IChar "013"].

Definition digit : regex := Cls false [IRange "0" "9"].

(** What stands between "^" and "$" in the two patterns:
    "\d+\.\s+(.+)" and "[-*]\s+(.+)". *)
Definition numbered_body : regex :=
  Seq (Plus digit) (Seq (Chr ".") (Seq (Plus s_) (Group 1 (Plus dot)))).

Definition bullet_body : regex :=
  Seq (Cls false (chars "-*")) (Seq (Plus s_) (Group 1 (Plus dot))).

(** One attempt of "^", the body, "$" at a position: the body is run with
    the check of "$" as what comes after it, so that the body gives back
    what it took when the check fails. *)
Definition line_end_check (st : mstate) : option mstate :=
  if at_line_end st then Some st else None.

Definition match_line (body : regex) (prev : option ascii) (s : text) : option mstate :=
  if at_line_start prev
  then rmatch false body (start_state prev s) line_end_check
  else None.

(** The loop over [exec] of a pattern with the flags gm, collecting the
    first group of every match, trimmed: the search goes on behind each
    match; [skip] counts the code units of the last match that are still
    to be passed over.  (A match that takes nothing would be found over
    and over by the source; the two patterns take at least two code
    units, see [match_line_takes].) *)
Fixpoint exec_all (body : regex) (prev : option ascii) (s : text) (skip : nat)
    {struct s} : list text :=
  match skip with
  | S n =>
      match s with
      | [] => []
      | c :: s' => exec_all body (Some c) s' n
      end
  | O =>
      match match_line body prev s with
      | Some st =>
          match idx st with
          | O => []
          | S n =>
              trim (cap_or_empty 1 (caps st))
              :: match s with
                 | [] => []
                 | c :: s' => exec_all body (Some c) s' n
                 end
          end
      | None =>
          match s with
          | [] => []
          | c :: s' => exec_all body (Some c) s' 0
          end
      end
  end.

(** [extractSuggestions] *)
Definition extractSuggestions (response : text) : list text :=
  let suggestions := exec_all numbered_body None response 0 in
  if (List.length suggestions =? 0)%nat
  then exec_all bullet_body None response 0
  else suggestions.

(** An entry of a list as it is written: the number or the bullet, the
    white space behind it, and the text of the entry. *)
Record listed := { label : text; gap : text; item : text }.

Definition numbered_line (e : listed) : text :=
  label e ++ "."%char :: gap e ++ item e.

Definition bullet_line (e : listed) : text :=
  label e ++ gap e ++ item e.

(** The gap is white space within the line, the text begins with
    something that is not white space and stays within the line. *)
Definition listed_ok (e : listed) : bool :=
  match gap e with [] => false | _ :: _ => true end
  && forallb (fun c => is_space c && negb (line_terminator c)) (gap e)
  && match item e with [] => false | c :: _ => negb (is_space c) end
  && forallb (fun c => negb (line_terminator c)) (item e).

Definition numbered_ok (e : listed) : bool :=
  listed_ok e
  && match label e with [] => false | _ :: _ => true end
  && forallb is_digit (label e).

Definition bullet_ok (e : listed) : bool :=
  listed_ok e
  && match label e with
     | [c] => Ascii.eqb c "-" || Ascii.eqb c "*"
     | _ => false
     end.

(** Lines, each ended by a line feed but the last. *)
Definition lines_of (ls : list text) : text := ChatRoutes.join [nl] ls.

End Suggestions.

Import Suggestions.

(** Surroundings for the examples of stored sessions: as [sample_env],
    but parsing gives back the session that is created first, and the
    completion API may be down. *)
Definition first_session : ChatSession :=
  {| id := str "session-0"; messages := [];
     created_at := str "0"; updated_at := str "0"; expires_at := str "3601000" |}.

Definition echo_env : Env := {|
  clock := clock sample_env;
  randomUUID := randomUUID sample_env;
  toISOString := toISOString sample_env;
  stringify := stringify sample_env;
  safeJsonParse := fun _ _ => first_session;
  create := create sample_env
|}.

Definition down_env : Env := {|
  clock := clock sample_env;
  randomUUID := randomUUID sample_env;
  toISOString := toISOString sample_env;
  stringify := stringify sample_env;
  safeJsonParse := safeJsonParse sample_env;
  create := fun _ => Rejected (str "fetch failed")
|}.

(** Surroundings in which the completion API answers every request with
    the given content. *)
Definition answering (content : text) : Env := {|
  clock := clock sample_env;
  randomUUID := randomUUID sample_env;
  toISOString := toISOString sample_env;
  stringify := stringify sample_env;
  safeJsonParse := safeJsonParse sample_env;
  create := fun _ => Choices [Some content]
|}.

(** The order of the severities. *)
Definition severity_rank (s : severity) : nat :=
  match s with
  | info => 0
  | warning => 1
  | critical => 2
  end.

(* ===================================================================== *)
(** * Properties *)
(* ===================================================================== *)

(** ** The matcher *)

Module RegExpProps.

Section Matcher.

Variable ci : bool.

Lemma advance_by_rest (p t : text) : forall st,
  rest st = p ++ t ->
  rest (advance_by (List.length p) st) = t /\
  idx (advance_by (List.length p) st) = (idx st + List.length p)%nat /\
  caps (advance_by (List.length p) st) = caps st /\
  before (advance_by (List.length p) st) = prev_after (before st) p.
Proof.
  induction p as [|c p IH]; intros st Hst; simpl.
  - repeat split; trivial; lia.
  - rewrite Hst. simpl.
    destruct (IH (advance c (p ++ t) st) eq_refl) as (H1 & H2 & H3 & H4).
    rewrite H1, H2, H3, H4. simpl. repeat split; trivial; lia.
Qed.

(** A literal: the subject has to start with it. *)
Lemma rmatch_Lit (p : text) : forall st k,
  rmatch ci (Lit p) st k =
    if starts ci (rest st) p then k (advance_by (List.length p) st) else None.
Proof.
  induction p as [|a p IH]; intros st k; simpl.
  - reflexivity.
  - destruct (rest st) as [|c s'] eqn:Hst; [reflexivity|].
    destruct (char_eq ci c a); simpl; [|reflexivity].
    rewrite IH. reflexivity.
Qed.

Lemma starts_app (p : text) : forall s t,
  starts ci s p = true -> starts ci (s ++ t) p = true.
Proof.
  induction p as [|a p IH]; intros s t H; simpl in *; [reflexivity|].
  destruct s as [|c s]; [discriminate|]. simpl.
  apply andb_true_iff in H as [-> H]. simpl. now apply IH.
Qed.

Lemma star_loop_S greedy m k fuel st0 :
  star_loop greedy m k (S fuel) st0 =
    let again :=
      m st0 (fun st1 =>
        if (idx st1 =? idx st0)%nat then None
        else star_loop greedy m k fuel st1) in
    if greedy then
      match again with Some res => Some res | None => k st0 end
    else
      match k st0 with Some res => Some res | None => again end.
Proof. reflexivity. Qed.

Lemma rmatch_Cls neg items st k :
  rmatch ci (Cls neg items) st k =
    match rest st with
    | c :: s' => if cls_match ci neg items c then k (advance c s' st) else None
    | [] => None
    end.
Proof. reflexivity. Qed.

Lemma rmatch_Chr a st k :
  rmatch ci (Chr a) st k =
    match rest st with
    | c :: s' => if char_eq ci c a then k (advance c s' st) else None
    | [] => None
    end.
Proof. reflexivity. Qed.

Lemma rmatch_Seq r1 r2 st k :
  rmatch ci (Seq r1 r2) st k = rmatch ci r1 st (fun st1 => rmatch ci r2 st1 k).
Proof. reflexivity. Qed.

Lemma rmatch_Alt r1 r2 st k :
  rmatch ci (Alt r1 r2) st k =
    match rmatch ci r1 st k with
    | Some res => Some res
    | None => rmatch ci r2 st k
    end.
Proof. reflexivity. Qed.

Lemma rmatch_Star greedy r1 st k :
  rmatch ci (Star greedy r1) st k =
    star_loop greedy (rmatch ci r1) k (List.length (rest st)) st.
Proof. reflexivity. Qed.

Lemma rmatch_NegLook r1 st k :
  rmatch ci (NegLook r1) st k =
    match rmatch ci r1 st Some with
    | Some _ => None
    | None => k st
    end.
Proof. reflexivity. Qed.

Lemma rmatch_WordB st k :
  rmatch ci WordB st k =
    if xorb (word_before st) (word_after st) then k st else None.
Proof. reflexivity. Qed.

Lemma rmatch_Group n r1 st k :
  rmatch ci (Group n r1) st k =
    rmatch ci r1 st (fun st1 =>
      k (set_cap n (firstn (idx st1 - idx st) (rest st)) st1)).
Proof. reflexivity. Qed.

Lemma idx_advance_neq c s' st :
  (idx (advance c s' st) =? idx st)%nat = false.
Proof. apply Nat.eqb_neq. simpl. lia. Qed.

(** A greedy star over a class runs to the end of the code units of the
    class, when the continuation accepts there. *)
Lemma star_class_greedy neg items k (run : text) : forall tail st fuel res,
  rest st = run ++ tail ->
  forallb (cls_match ci neg items) run = true ->
  (List.length run <= fuel)%nat ->
  match tail with [] => True | c :: _ => cls_match ci neg items c = false end ->
  k (advance_by (List.length run) st) = Some res ->
  star_loop true (rmatch ci (Cls neg items)) k fuel st = Some res.
Proof.
  induction run as [|c run IH]; intros tail st fuel res Hst Hrun Hfuel Htail Hk.
  - simpl in Hst, Hk. destruct fuel as [|fuel]; [exact Hk|].
    rewrite star_loop_S. cbv zeta. rewrite rmatch_Cls, Hst.
    destruct tail as [|c tail]; [exact Hk|]. now rewrite Htail.
  - destruct fuel as [|fuel]; [simpl in Hfuel; lia|].
    simpl in Hrun. apply andb_true_iff in Hrun as [Hc Hrun].
    rewrite star_loop_S. cbv zeta. rewrite rmatch_Cls, Hst. simpl app. cbv iota.
    rewrite Hc, idx_advance_neq.
    rewrite (IH tail (advance c (run ++ tail) st) fuel res); trivial.
    + simpl in Hfuel. lia.
    + simpl in Hk. rewrite Hst in Hk. exact Hk.
Qed.


(** *** Replacing *)

Variable r : regex.
Variable f : text -> list (nat * text) -> text.

Lemma replace_from_skip (a : text) : forall prev b,
  replace_from ci r f prev (a ++ b) (List.length a)
    = replace_from ci r f (prev_after prev a) b 0.
Proof.
  induction a as [|c a IH]; intros prev b; simpl.
  - reflexivity.
  - apply IH.
Qed.

Lemma replace_from_nomatch prev c s :
  match_at ci r prev (c :: s) = None ->
  replace_from ci r f prev (c :: s) 0 = c :: replace_from ci r f (Some c) s 0.
Proof. intros H. simpl. now rewrite H. Qed.

(** A match that covers [m], at the head of the subject. *)
Lemma replace_from_match prev (m post : text) st :
  match_at ci r prev (m ++ post) = Some st ->
  idx st = List.length m -> m <> [] ->
  replace_from ci r f prev (m ++ post) 0
    = f m (caps st) ++ replace_from ci r f (prev_after prev m) post 0.
Proof.
  intros Hm Hidx Hne. destruct m as [|c m]; [contradiction|].
  simpl app. cbn [replace_from]. simpl app in Hm. rewrite Hm, Hidx.
  simpl List.length. cbn [firstn]. rewrite firstn_app, firstn_all, Nat.sub_diag.
  simpl firstn. rewrite app_nil_r. f_equal.
  rewrite replace_from_skip. reflexivity.
Qed.

(** A stretch of the subject at no place of which the pattern matches is
    passed on as it is. *)
Lemma replace_from_plain (t : text) : forall prev tail,
  (forall prev' u c v, t = u ++ c :: v ->
     match_at ci r prev' (c :: v ++ tail) = None) ->
  replace_from ci r f prev (t ++ tail) 0
    = t ++ replace_from ci r f (prev_after prev t) tail 0.
Proof.
  induction t as [|c t IH]; intros prev tail Hno.
  - reflexivity.
  - simpl app. rewrite replace_from_nomatch by (apply (Hno prev [] c t eq_refl)).
    rewrite IH; [reflexivity|].
    intros prev' u c' v ->. apply (Hno prev' (c :: u) c' v eq_refl).
Qed.

(** A subject at no place of which the pattern matches stays as it is. *)
Lemma replace_from_all_plain (t : text) prev :
  (forall prev' u c v, t = u ++ c :: v -> match_at ci r prev' (c :: v) = None) ->
  (forall prev', match_at ci r prev' [] = None) ->
  replace_from ci r f prev t 0 = t.
Proof.
  intros Hno Hnil.
  rewrite <- (app_nil_r t) at 1. rewrite replace_from_plain.
  - cbn [replace_from]. now rewrite Hnil, app_nil_r.
  - intros prev' u c v Ht. rewrite app_nil_r. now apply (Hno prev' u c v).
Qed.

End Matcher.

Lemma behind_refl st : behind st st.
Proof. now exists []. Qed.

Lemma behind_trans st1 st2 st3 : behind st1 st2 -> behind st2 st3 -> behind st1 st3.
Proof.
  intros [u Hu] [v Hv]. exists (v ++ u). now rewrite Hv, Hu, app_assoc.
Qed.

Lemma behind_advance c s' st : rest st = c :: s' -> behind (advance c s' st) st.
Proof. intros H. exists [c]. now rewrite H. Qed.

Lemma star_loop_none_behind greedy m k st0 :
  (forall st, behind st st0 -> k st = None) ->
  (forall st k', behind st st0 ->
     (forall st', behind st' st -> k' st' = None) -> m st k' = None) ->
  forall fuel st, behind st st0 -> star_loop greedy m k fuel st = None.
Proof.
  intros Hk Hm. induction fuel as [|fuel IH]; intros st Hst; simpl; [now apply Hk|].
  rewrite Hm; trivial.
  - rewrite Hk by exact Hst. now destruct greedy.
  - intros st' Hst'. destruct (idx st' =? idx st)%nat; [reflexivity|].
    apply IH. now apply (behind_trans _ st).
Qed.

(** When the continuation rejects every state at or behind the place of
    the attempt, the attempt fails. *)
Lemma rmatch_none_behind ci (r : regex) : forall st k,
  (forall st', behind st' st -> k st' = None) -> rmatch ci r st k = None.
Proof.
  induction r as [|a|neg items|r1 IH1 r2 IH2|r1 IH1 r2 IH2|greedy r1 IH1
                  |n r1 IH1| |r1 IH1]; intros st k Hk; simpl.
  - apply Hk, behind_refl.
  - destruct (rest st) as [|c s'] eqn:Hst; [reflexivity|].
    destruct (char_eq ci c a); [|reflexivity]. now apply Hk, behind_advance.
  - destruct (rest st) as [|c s'] eqn:Hst; [reflexivity|].
    destruct (cls_match ci neg items c); [|reflexivity]. now apply Hk, behind_advance.
  - apply IH1. intros st1 H1. apply IH2. intros st2 H2.
    apply Hk. now apply (behind_trans _ st1).
  - rewrite IH1 by exact Hk. now apply IH2.
  - apply (star_loop_none_behind greedy _ k st); trivial.
    + intros st1 k' H1 Hk'. now apply IH1.
    + apply behind_refl.
  - apply IH1. intros st1 H1. apply Hk. destruct H1 as [u Hu]. now exists u.
  - destruct (xorb _ _); [apply Hk, behind_refl | reflexivity].
  - destruct (rmatch ci r1 st Some); [reflexivity | apply Hk, behind_refl].
Qed.

End RegExpProps.

(** ** Text *)

Module TextProps.

Lemma startsWith_spec (p : text) : forall s,
  startsWith s p = true <-> exists post, s = p ++ post.
Proof.
  induction p as [|a p IH]; intros s; simpl.
  - split; [intros _; now exists s | reflexivity].
  - destruct s as [|c s].
    + split; [discriminate | intros [post H]; discriminate].
    + rewrite andb_true_iff, Ascii.eqb_eq, IH. split.
      * intros [-> [post ->]]. now exists post.
      * intros [post H]. injection H as -> ->. split; [reflexivity | now exists post].
Qed.

Lemma includes_spec (p s : text) :
  includes s p = true <-> occurs p s.
Proof.
  unfold occurs. induction s as [|c s IH]; simpl.
  - rewrite orb_false_r, startsWith_spec. split.
    + intros [post H]. exists [], post. exact H.
    + intros (pre & post & H). destruct pre; simpl in H.
      * now exists post.
      * discriminate.
  - rewrite orb_true_iff, IH.
    change (match p with [] => true | a :: p' => Ascii.eqb c a && startsWith s p' end)
      with (startsWith (c :: s) p).
    rewrite startsWith_spec. split.
    + intros [[post H] | (pre & post & H)].
      * exists [], post. exact H.
      * exists (c :: pre), post. simpl. now rewrite H.
    + intros (pre & post & H). destruct pre as [|c' pre]; simpl in H.
      * left. now exists post.
      * injection H as -> H. right. now exists pre, post.
Qed.

Lemma toLowerCase_app (a b : text) :
  toLowerCase (a ++ b) = toLowerCase a ++ toLowerCase b.
Proof. apply map_app. Qed.

(** Looking a lower-case word up in the lower-cased text finds the
    occurrences of the word in any mix of cases. *)
Lemma includes_lower_spec (p s : text) :
  includes (toLowerCase s) (toLowerCase p) = true <-> occurs_ci p s.
Proof.
  rewrite includes_spec. unfold occurs, occurs_ci. split.
  - intros (a & b & H). unfold toLowerCase in H at 1.
    apply map_eq_app in H as (pre & rest0 & -> & Hpre & H).
    apply map_eq_app in H as (wd & post & -> & Hw & Hpost).
    exists pre, wd, post. split; [reflexivity | exact Hw].
  - intros (pre & wd & post & -> & Hw).
    exists (toLowerCase pre), (toLowerCase post).
    now rewrite !toLowerCase_app, Hw.
Qed.

End TextProps.

(** ** Removing script and iframe elements *)

Module SanitizeProps.

Import RegExpProps.

Lemma char_eq_refl ci c : char_eq ci c c = true.
Proof. unfold char_eq. destruct ci; apply Ascii.eqb_refl. Qed.

Lemma starts_self ci (p : text) : forall t, starts ci (p ++ t) p = true.
Proof.
  induction p as [|a p IH]; intros t; simpl; [reflexivity|].
  now rewrite char_eq_refl, IH.
Qed.

(** If [v ++ t] starts with [p], then [v] does, or [v] is a proper prefix
    and [t] goes on with the rest of [p]. *)
Lemma starts_app_cases ci (p : text) : forall v t,
  starts ci (v ++ t) p = true ->
  starts ci v p = true \/
  ((List.length v < List.length p)%nat /\ starts ci t (skipn (List.length v) p) = true).
Proof.
  induction p as [|a p IH]; intros v t H.
  - now left.
  - destruct v as [|c v].
    + right. split; [simpl; lia | exact H].
    + simpl in H. apply andb_true_iff in H as [Hc H].
      destruct (IH v t H) as [Hl | [Hlen Hr]].
      * left. simpl. now rewrite Hc, Hl.
      * right. split; [simpl; lia | exact Hr].
Qed.

Lemma starts_lt_skipn (q : text) : forall j t,
  (j < List.length q)%nat ->
  forallb (fun a => negb (char_eq true "<" a)) q = true ->
  starts true ("<"%char :: t) (skipn j q) = false.
Proof.
  induction q as [|a q IH]; intros j t Hj Hq; [simpl in Hj; lia|].
  simpl in Hq. apply andb_true_iff in Hq as [Ha Hq].
  destruct j as [|j]; simpl.
  - apply negb_true_iff in Ha. now rewrite Ha.
  - apply IH; [simpl in Hj; lia | exact Hq].
Qed.

Lemma includes_ci_cons c v p :
  includes_ci (c :: v) p = false ->
  starts true (c :: v) p = false /\ includes_ci v p = false.
Proof.
  simpl. intros H. apply orb_false_iff in H.
  destruct p; [destruct H; discriminate | exact H].
Qed.

Lemma includes_ci_app_r (u : text) : forall v p,
  includes_ci (u ++ v) p = false -> includes_ci v p = false.
Proof.
  induction u as [|c u IH]; intros v p H; [exact H|].
  simpl app in H. apply includes_ci_cons in H as [_ H]. now apply IH.
Qed.

Lemma starts_straddle p c v tail :
  starts true (c :: v) p = false ->
  tail_safe p tail ->
  starts true ((c :: v) ++ tail) p = false.
Proof.
  intros Hs Htail.
  destruct (starts true ((c :: v) ++ tail) p) eqn:H; [|reflexivity].
  apply starts_app_cases in H as [H | [Hlen H]]; [congruence|].
  rewrite Htail in H; [discriminate|]. simpl List.length in *. lia.
Qed.

Lemma includes_ci_step c (v p : text) :
  starts true (c :: v) p = false -> includes_ci (c :: v) p = includes_ci v p.
Proof. simpl. now intros ->. Qed.

(** No occurrence in either part and none across the joint. *)
Lemma includes_ci_app (p u v : text) :
  includes_ci u p = false -> tail_safe p v -> includes_ci v p = false ->
  includes_ci (u ++ v) p = false.
Proof.
  intros Hu Hsafe Hv. induction u as [|c u IH]; [exact Hv|].
  apply includes_ci_cons in Hu as [Hs Hu]. cbn [app includes_ci].
  change (c :: u ++ v) with ((c :: u) ++ v).
  rewrite (starts_straddle p c u v Hs Hsafe). now apply IH.
Qed.

Lemma tail_safe_nil p : tail_safe p [].
Proof.
  intros j Hj. destruct (skipn j p) as [|a q] eqn:Hq; [|reflexivity].
  apply (f_equal (@List.length ascii)) in Hq. rewrite length_skipn in Hq.
  simpl in Hq. lia.
Qed.

Lemma char_eq_lt c a : is_lt c = true -> char_eq true c a = char_eq true "<" a.
Proof.
  unfold is_lt, char_eq. intros H. apply Ascii.eqb_eq in H. now rewrite H.
Qed.

Lemma starts_lt_skipn' (q : text) : forall j c t,
  is_lt c = true ->
  (j < List.length q)%nat ->
  forallb (fun a => negb (char_eq true "<" a)) q = true ->
  starts true (c :: t) (skipn j q) = false.
Proof.
  induction q as [|a q IH]; intros j c t Hc Hj Hq; [simpl in Hj; lia|].
  cbn [forallb] in Hq. apply andb_true_iff in Hq as [Ha Hq].
  destruct j as [|j]; cbn [skipn starts].
  - apply negb_true_iff in Ha. now rewrite (char_eq_lt c a Hc), Ha.
  - apply IH; [exact Hc | simpl in Hj; lia | exact Hq].
Qed.

Lemma tail_safe_lt p c t :
  is_lt c = true ->
  forallb (fun a => negb (char_eq true "<" a)) (tl p) = true ->
  tail_safe p (c :: t).
Proof.
  intros Hc Hp j Hj. destruct p as [|a q]; [simpl in Hj; lia|].
  destruct j as [|j]; [lia|]. cbn [skipn]. cbn [tl] in Hp. simpl in Hj.
  apply starts_lt_skipn'; trivial. lia.
Qed.

(** The longest stretch without "<" at the head of a text. *)
Lemma span_no_lt (l : text) :
  exists run tail,
    l = run ++ tail /\ no_lt run = true /\
    match tail with [] => True | c :: _ => is_lt c = true end.
Proof.
  induction l as [|c l (run & tail & -> & Hrun & Htail)].
  - exists [], []. repeat split.
  - destruct (is_lt c) eqn:Hc.
    + exists [], (c :: run ++ tail). repeat split. exact Hc.
    + exists (c :: run), tail. repeat split; trivial.
      unfold no_lt. simpl. rewrite Hc. exact Hrun.
Qed.

Lemma cls_not_lt c : cls_match true true (chars "<") c = negb (is_lt c).
Proof.
  unfold cls_match, is_lt, chars.
  cbn [str list_ascii_of_string map existsb item_match].
  now rewrite orb_false_r, xorb_true_l.
Qed.

Lemma cls_not_lt_true (run : text) :
  no_lt run = true ->
  forallb (cls_match true true (chars "<")) run = true.
Proof.
  unfold no_lt. induction run as [|c run IH]; cbn [forallb]; [reflexivity|].
  intros H. apply andb_true_iff in H as [Hc H].
  now rewrite IH, cls_not_lt, Hc.
Qed.

Lemma cls_not_lt_false c :
  is_lt c = true -> cls_match true true (chars "<") c = false.
Proof. intros H. now rewrite cls_not_lt, H. Qed.








Section Tag.

Variable name : string.

Let opening : text := str "<" ++ str name.
Let closing : text := str "</" ++ str name ++ str ">".

(** The name ends with a code unit of a word, and "<" does not come back
    inside the closing tag. *)
Hypothesis name_word :
  forall prev, match prev_after prev opening with
               | Some c => is_word c
               | None => false
               end = true.
Hypothesis closing_border :
  forallb (fun a => negb (char_eq true "<" a)) (tl closing) = true.

(** The rounds of the pattern between the opening and the closing tag. *)
Let round : regex :=
  Seq (NegLook (Lit closing))
      (Seq (Chr "<") (Star true (Cls true (chars "<")))).

Let finish : mstate -> option mstate := fun st => rmatch true (Lit closing) st Some.

Lemma tag_block_eq :
  tag_block name =
    Seq (Lit opening)
      (Seq WordB (Seq (Star true (Cls true (chars "<")))
         (Seq (Star true round) (Lit closing)))).
Proof. reflexivity. Qed.

Lemma finish_at_closing st post :
  rest st = closing ++ post ->
  exists st', finish st = Some st' /\
    idx st' = (idx st + List.length closing)%nat.
Proof.
  intros Hst. unfold finish. rewrite rmatch_Lit, Hst, starts_self.
  eexists. split; [reflexivity|].
  now destruct (advance_by_rest closing post st Hst) as (_ & H & _).
Qed.

(** Inside an element the closing tag does not start before its place. *)
Lemma not_closing_inside c v post :
  includes_ci (c :: v) closing = false ->
  starts true ((c :: v) ++ closing ++ post) closing = false.
Proof.
  intros H. apply includes_ci_cons in H as [H _].
  destruct (starts true ((c :: v) ++ closing ++ post) closing) eqn:Hs; [|reflexivity].
  apply starts_app_cases in Hs as [Hs | [Hlen Hs]]; [congruence|].
  exfalso.
  assert (Hc : closing = "<"%char :: tl closing) by reflexivity.
  pose proof closing_border as Hb.
  revert Hlen Hs Hb. rewrite Hc. generalize (tl closing). intros q Hlen Hs Hb.
  simpl in Hlen. cbn [List.length skipn app] in Hs.
  rewrite starts_lt_skipn in Hs; [discriminate | lia | exact Hb].
Qed.

(** The loop of rounds, started at a "<" (or at the closing tag itself),
    ends at the first closing tag. *)
Lemma rounds_reach_closing (n : nat) : forall v st fuel post,
  (List.length v <= n)%nat ->
  rest st = v ++ closing ++ post ->
  match v with [] => True | c :: _ => is_lt c = true end ->
  includes_ci v closing = false ->
  (List.length v <= fuel)%nat ->
  exists st',
    star_loop true (rmatch true round) finish fuel st = Some st' /\
    idx st' = (idx st + List.length v + List.length closing)%nat.
Proof.
  induction n as [|n IH]; intros v st fuel post Hn Hst Hhead Hinc Hfuel.
  - destruct v as [|c v]; [|simpl in Hn; lia].
    destruct (finish_at_closing st post Hst) as (st' & Hfin & Hidx).
    exists st'. split; [|change (List.length (@nil ascii)) with O; lia].
    destruct fuel as [|fuel]; [exact Hfin|].
    rewrite star_loop_S. cbv zeta. unfold round at 1.
    rewrite rmatch_Seq, rmatch_NegLook.
    change (rmatch true (Lit closing) st Some) with (finish st).
    now rewrite Hfin.
  - destruct v as [|c v].
    + destruct (finish_at_closing st post Hst) as (st' & Hfin & Hidx).
      exists st'. split; [|change (List.length (@nil ascii)) with O; lia].
      destruct fuel as [|fuel]; [exact Hfin|].
      rewrite star_loop_S. cbv zeta. unfold round at 1.
      rewrite rmatch_Seq, rmatch_NegLook.
      change (rmatch true (Lit closing) st Some) with (finish st).
      now rewrite Hfin.
    + destruct fuel as [|fuel]; [simpl in Hfuel; lia|].
      destruct (span_no_lt v) as (run & v2 & -> & Hrun & Hv2).
      set (st1 := advance c ((run ++ v2) ++ closing ++ post) st).
      assert (Hst1 : rest st1 = run ++ (v2 ++ closing ++ post)).
      { subst st1. simpl. now rewrite <- app_assoc. }
      destruct (advance_by_rest run (v2 ++ closing ++ post) st1 Hst1)
        as (Hr2 & Hi2 & _ & _).
      set (st2 := advance_by (List.length run) st1) in *.
      destruct (IH v2 st2 fuel post) as (st' & Hloop & Hidx); trivial.
      { simpl in Hn. rewrite length_app in Hn. lia. }
      { apply includes_ci_cons in Hinc as [_ Hinc].
        now apply includes_ci_app_r in Hinc. }
      { simpl in Hfuel. rewrite length_app in Hfuel. lia. }
      exists st'. split.
      * rewrite star_loop_S. cbv zeta. unfold round at 1.
        rewrite rmatch_Seq, rmatch_NegLook.
        rewrite rmatch_Lit, Hst, (not_closing_inside c (run ++ v2) post Hinc).
        rewrite rmatch_Seq, rmatch_Chr, Hst. cbn [app]. cbv iota.
        unfold is_lt in Hhead. rewrite Hhead.
        fold st1. rewrite rmatch_Star.
        rewrite (star_class_greedy true true (chars "<") _ run
                   (v2 ++ closing ++ post) st1 _ st'); trivial.
        -- now apply cls_not_lt_true.
        -- rewrite Hst1, length_app. lia.
        -- destruct v2 as [|c2 v2].
           ++ simpl. change closing with ("<"%char :: tl closing). reflexivity.
           ++ simpl. now apply cls_not_lt_false.
        -- fold st2.
           replace (idx st2 =? idx st)%nat with false.
           ++ exact Hloop.
           ++ symmetry. apply Nat.eqb_neq. rewrite Hi2. subst st1. simpl. lia.
      * rewrite Hidx, Hi2. subst st1. simpl. rewrite !length_app. lia.
Qed.

(** An attempt at a place where the subject does not start with the
    opening tag fails. *)
Lemma tag_none prev s :
  starts true s opening = false -> match_at true (tag_block name) prev s = None.
Proof.
  intros H. unfold match_at. rewrite tag_block_eq, rmatch_Seq, rmatch_Lit.
  unfold start_state. cbn [rest]. now rewrite H.
Qed.

(** At an element the pattern matches, and the match is the element. *)
Lemma tag_match prev inner post :
  opens inner = true ->
  includes_ci inner closing = false ->
  exists st,
    match_at true (tag_block name) prev (opening ++ inner ++ closing ++ post) = Some st /\
    idx st = List.length (opening ++ inner ++ closing).
Proof.
  intros Hopen Hinc. unfold match_at.
  rewrite tag_block_eq, rmatch_Seq, rmatch_Lit.
  set (st0 := start_state prev (opening ++ inner ++ closing ++ post)).
  assert (Hst0 : rest st0 = opening ++ inner ++ closing ++ post) by reflexivity.
  rewrite Hst0, starts_self.
  destruct (advance_by_rest opening (inner ++ closing ++ post) st0 Hst0)
    as (Hr1 & Hi1 & _ & Hb1).
  set (st1 := advance_by (List.length opening) st0) in *.
  rewrite rmatch_Seq, rmatch_WordB.
  assert (Hwb : word_before st1 = true).
  { unfold word_before. rewrite Hb1. apply name_word. }
  assert (Hwa : word_after st1 = false).
  { unfold word_after. rewrite Hr1. destruct inner as [|c inner].
    - reflexivity.
    - simpl in Hopen |- *. now apply negb_true_iff in Hopen. }
  rewrite Hwb, Hwa. cbn [xorb].
  destruct (span_no_lt inner) as (run & v & -> & Hrun & Hv).
  rewrite <- app_assoc in Hr1.
  destruct (advance_by_rest run (v ++ closing ++ post) st1 Hr1)
    as (Hr2 & Hi2 & _ & _).
  set (st2 := advance_by (List.length run) st1) in *.
  destruct (rounds_reach_closing (List.length v) v st2 (List.length (rest st2)) post)
    as (st' & Hloop & Hidx); trivial.
  { now apply includes_ci_app_r in Hinc. }
  { rewrite Hr2, length_app. lia. }
  exists st'. split.
  - rewrite rmatch_Seq, rmatch_Star.
    apply (star_class_greedy true true (chars "<") _ run (v ++ closing ++ post));
      trivial.
    + now apply cls_not_lt_true.
    + rewrite Hr1, length_app. lia.
    + destruct v as [|c v].
      * reflexivity.
      * simpl. now apply cls_not_lt_false.
  - rewrite Hidx, Hi2, Hi1. subst st0. simpl idx. rewrite !length_app. lia.
Qed.






Variable marker : text.

(** The element is replaced as a whole, and the scan goes on behind it. *)
Lemma replace_tag prev inner post :
  opens inner = true ->
  includes_ci inner closing = false ->
  exists prev',
    replace_from true (tag_block name) (constant marker) prev
      (opening ++ inner ++ closing ++ post) 0
    = marker ++ replace_from true (tag_block name) (constant marker) prev' post 0.
Proof.
  intros Hopen Hinc.
  destruct (tag_match prev inner post Hopen Hinc) as (st & Hm & Hidx).
  exists (prev_after prev (opening ++ inner ++ closing)).
  replace (opening ++ inner ++ closing ++ post)
    with ((opening ++ inner ++ closing) ++ post) in *
    by now rewrite <- !app_assoc.
  rewrite (replace_from_match true _ _ prev _ post st Hm Hidx); [reflexivity|].
  discriminate.
Qed.

(** A stretch in which the opening tag does not occur is passed on as it
    is, when what follows cannot complete an opening tag begun in it. *)
Lemma replace_stretch prev t tail :
  includes_ci t opening = false ->
  tail_safe opening tail ->
  exists prev',
    replace_from true (tag_block name) (constant marker) prev (t ++ tail) 0
    = t ++ replace_from true (tag_block name) (constant marker) prev' tail 0.
Proof.
  intros Ht Htail. exists (prev_after prev t). apply replace_from_plain.
  intros prev' u c v ->. apply tag_none.
  apply includes_ci_app_r in Ht. apply includes_ci_cons in Ht as [Ht _].
  now apply (starts_straddle opening c v tail).
Qed.


End Tag.

Lemma script_word prev :
  match prev_after prev (str "<" ++ str "script") with
  | Some c => is_word c
  | None => false
  end = true.
Proof. reflexivity. Qed.

Lemma iframe_word prev :
  match prev_after prev (str "<" ++ str "iframe") with
  | Some c => is_word c
  | None => false
  end = true.
Proof. reflexivity. Qed.

(** What follows a segment in the source begins with "<" or is nothing,
    unless it is a stretch. *)
Lemma source_tail_safe p (segs : list segment) :
  forallb (fun a => negb (char_eq true "<" a)) (tl p) = true ->
  is_plain segs = false ->
  tail_safe p (source segs).
Proof.
  intros Hp Hplain. destruct segs as [|[t|inner|inner] segs].
  - apply tail_safe_nil.
  - discriminate.
  - apply (tail_safe_lt p "<"%char); [reflexivity | exact Hp].
  - apply (tail_safe_lt p "<"%char); [reflexivity | exact Hp].
Qed.

(** After the first pass it may also begin with the marker. *)
Lemma unscripted_tail_safe (segs : list segment) :
  is_plain segs = false ->
  tail_safe (str "<iframe") (unscripted segs).
Proof.
  intros Hplain. destruct segs as [|[t|inner|inner] segs].
  - apply tail_safe_nil.
  - discriminate.
  - intros j Hj. simpl in Hj.
    destruct j as [|[|[|[|[|[|[|j]]]]]]]; try lia; reflexivity.
  - apply (tail_safe_lt _ "<"%char); reflexivity.
Qed.

Lemma marker_stretch prev tail :
  exists prev',
    replace_from true iframe_re (constant (str "[REMOVED: iframe tag]")) prev
      (str "[REMOVED: script tag]" ++ tail) 0
    = str "[REMOVED: script tag]"
        ++ replace_from true iframe_re (constant (str "[REMOVED: iframe tag]")) prev' tail 0.
Proof.
  exists (Some "]"%char). unfold iframe_re. cbn [str list_ascii_of_string app].
  do 21 (rewrite replace_from_nomatch by (apply tag_none; reflexivity)).
  reflexivity.
Qed.

(** The first pass meets an iframe element: no script element opens in
    it. *)
Lemma script_pass_iframe prev inner tail :
  includes_ci inner (str "<script") = false ->
  exists prev',
    replace_from true script_re (constant (str "[REMOVED: script tag]")) prev
      (str "<iframe" ++ inner ++ str "</iframe>" ++ tail) 0
    = str "<iframe" ++ inner ++ str "</iframe>"
        ++ replace_from true script_re (constant (str "[REMOVED: script tag]")) prev' tail 0.
Proof.
  intros Hin. unfold script_re.
  set (f := constant (str "[REMOVED: script tag]")).
  cbn [str list_ascii_of_string app].
  do 7 (rewrite replace_from_nomatch by (apply tag_none; reflexivity)).
  subst f.
  destruct (replace_stretch "script" (str "[REMOVED: script tag]") (Some "e"%char) inner
              ("<"%char :: "/"%char :: "i"%char :: "f"%char :: "r"%char :: "a"%char
               :: "m"%char :: "e"%char :: ">"%char :: tail) Hin) as (prev1 & ->).
  { apply (tail_safe_lt _ "<"%char); reflexivity. }
  do 9 (rewrite replace_from_nomatch by (apply tag_none; reflexivity)).
  exists (Some ">"%char). reflexivity.
Qed.

(** The two passes, segment by segment. *)
Lemma script_pass (segs : list segment) : forall prev,
  segments_ok segs = true ->
  replace_from true script_re (constant (str "[REMOVED: script tag]")) prev
    (source segs) 0 = unscripted segs.
Proof.
  induction segs as [|seg segs IH]; intros prev Hok; [reflexivity|].
  cbn [segments_ok] in Hok.
  apply andb_true_iff in Hok as [Hok Hrest].
  apply andb_true_iff in Hok as [Hseg Hnext]. apply negb_true_iff in Hnext.
  unfold source, unscripted. cbn [flat_map]. fold (source segs) (unscripted segs).
  destruct seg as [t|inner|inner]; cbn [segment_source segment_unscripted segment_ok] in *.
  - unfold no_tag in Hseg. apply andb_true_iff in Hseg as [Hs _].
    apply negb_true_iff in Hs.
    destruct (replace_stretch "script" (str "[REMOVED: script tag]") prev t (source segs) Hs)
      as (prev' & Hr).
    { apply source_tail_safe; [reflexivity | exact Hnext]. }
    etransitivity; [exact Hr|]. now rewrite <- (IH prev' Hrest).
  - apply andb_true_iff in Hseg as [Hopen Hinc]. apply negb_true_iff in Hinc.
    rewrite <- !app_assoc.
    destruct (replace_tag "script" script_word eq_refl (str "[REMOVED: script tag]")
                prev inner (source segs) Hopen Hinc) as (prev' & Hr).
    etransitivity; [exact Hr|]. now rewrite <- (IH prev' Hrest).
  - apply andb_true_iff in Hseg as [Hseg Hin]. apply negb_true_iff in Hin.
    rewrite <- !app_assoc.
    destruct (script_pass_iframe prev inner (source segs) Hin) as (prev' & Hr).
    etransitivity; [exact Hr|]. now rewrite <- (IH prev' Hrest).
Qed.

Lemma iframe_pass (segs : list segment) : forall prev,
  segments_ok segs = true ->
  replace_from true iframe_re (constant (str "[REMOVED: iframe tag]")) prev
    (unscripted segs) 0 = cleaned segs.
Proof.
  induction segs as [|seg segs IH]; intros prev Hok; [reflexivity|].
  cbn [segments_ok] in Hok.
  apply andb_true_iff in Hok as [Hok Hrest].
  apply andb_true_iff in Hok as [Hseg Hnext]. apply negb_true_iff in Hnext.
  unfold unscripted, cleaned. cbn [flat_map]. fold (unscripted segs) (cleaned segs).
  destruct seg as [t|inner|inner];
    cbn [segment_source segment_unscripted segment_cleaned segment_ok] in *.
  - unfold no_tag in Hseg. apply andb_true_iff in Hseg as [_ Hi].
    apply negb_true_iff in Hi.
    destruct (replace_stretch "iframe" (str "[REMOVED: iframe tag]") prev t
                (unscripted segs) Hi) as (prev' & Hr).
    { apply unscripted_tail_safe. exact Hnext. }
    etransitivity; [exact Hr|]. now rewrite <- (IH prev' Hrest).
  - destruct (marker_stretch prev (unscripted segs)) as (prev' & Hr).
    etransitivity; [exact Hr|]. now rewrite <- (IH prev' Hrest).
  - apply andb_true_iff in Hseg as [Hseg _].
    apply andb_true_iff in Hseg as [Hopen Hinc]. apply negb_true_iff in Hinc.
    rewrite <- !app_assoc.
    destruct (replace_tag "iframe" iframe_word eq_refl (str "[REMOVED: iframe tag]")
                prev inner (unscripted segs) Hopen Hinc) as (prev' & Hr).
    etransitivity; [exact Hr|]. now rewrite <- (IH prev' Hrest).
Qed.




End SanitizeProps.

(** ** Severity of a review *)

Module SeverityProps.

Import TextProps.

Lemma mentions_existsb (keywords : list text) (s : text) :
  Forall (fun kw => toLowerCase kw = kw) keywords ->
  existsb (includes (toLowerCase s)) keywords = true <-> mentions keywords s.
Proof.
  intros Hlow. unfold mentions. rewrite existsb_exists. split.
  - intros (kw & Hin & Hinc). exists kw. split; [exact Hin|].
    apply includes_lower_spec.
    rewrite Forall_forall in Hlow. now rewrite (Hlow kw Hin).
  - intros (kw & Hin & Hocc). exists kw. split; [exact Hin|].
    apply includes_lower_spec in Hocc.
    rewrite Forall_forall in Hlow. now rewrite (Hlow kw Hin) in Hocc.
Qed.

Lemma critical_lower : Forall (fun kw => toLowerCase kw = kw) critical_keywords.
Proof. repeat constructor. Qed.

Lemma warning_lower : Forall (fun kw => toLowerCase kw = kw) warning_keywords.
Proof. repeat constructor. Qed.

(** The cascade of [extractSeverity], keyword list by keyword list. *)
Lemma extractSeverity_cascade (response : text) :
  extractSeverity response =
    if existsb (includes (toLowerCase response)) critical_keywords then critical
    else if existsb (includes (toLowerCase response)) warning_keywords then warning
    else info.
Proof.
  unfold extractSeverity, critical_keywords, warning_keywords. simpl existsb.
  now rewrite !orb_false_r, !orb_assoc.
Qed.

(** C3. [extractSeverity] scans without regard to case: a text that
    mentions one of "critical", "security vulnerability", "sql injection",
    "xss" is critical; otherwise one that mentions "warning", "bug" or
    "issue" is a warning; otherwise the severity is info.  The critical
    keywords come first: a text with "SQL injection found" and, later or
    earlier, "warning" is critical. *)
Theorem extractSeverity_spec (response : text) :
  (mentions critical_keywords response -> extractSeverity response = critical) /\
  (~ mentions critical_keywords response -> mentions warning_keywords response ->
   extractSeverity response = warning) /\
  (~ mentions critical_keywords response -> ~ mentions warning_keywords response ->
   extractSeverity response = info) /\
  (forall a b c,
     response = a ++ str "SQL injection found" ++ b ++ str "warning" ++ c \/
     response = a ++ str "warning" ++ b ++ str "SQL injection found" ++ c ->
     extractSeverity response = critical).
Proof.
  rewrite extractSeverity_cascade.
  pose proof (mentions_existsb critical_keywords response critical_lower) as Hc.
  pose proof (mentions_existsb warning_keywords response warning_lower) as Hw.
  destruct (existsb _ critical_keywords) eqn:Ec;
    [|destruct (existsb _ warning_keywords) eqn:Ew].
  - repeat split; trivial.
    + intros Hn. exfalso. apply Hn, Hc. reflexivity.
    + intros Hn. exfalso. apply Hn, Hc. reflexivity.
  - assert (Hnc : ~ mentions critical_keywords response).
    { intros H. apply Hc in H. discriminate. }
    repeat split; trivial.
    + intros H. now apply Hnc in H.
    + intros _ Hn. exfalso. apply Hn, Hw. reflexivity.
    + intros a b c H. exfalso. apply Hnc.
      exists (str "sql injection"). split; [simpl; tauto|].
      destruct H as [-> | ->].
      * exists a, (str "SQL injection"), (str " found" ++ b ++ str "warning" ++ c).
        split; reflexivity.
      * exists (a ++ str "warning" ++ b), (str "SQL injection"), (str " found" ++ c).
        split; [now rewrite <- !app_assoc | reflexivity].
  - assert (Hnc : ~ mentions critical_keywords response).
    { intros H. apply Hc in H. discriminate. }
    assert (Hnw : ~ mentions warning_keywords response).
    { intros H. apply Hw in H. discriminate. }
    repeat split; trivial.
    + intros H. now apply Hnc in H.
    + intros _ H. now apply Hnw in H.
    + intros a b c H. exfalso. apply Hnc.
      exists (str "sql injection"). split; [simpl; tauto|].
      destruct H as [-> | ->].
      * exists a, (str "SQL injection"), (str " found" ++ b ++ str "warning" ++ c).
        split; reflexivity.
      * exists (a ++ str "warning" ++ b), (str "SQL injection"), (str " found" ++ c).
        split; [now rewrite <- !app_assoc | reflexivity].
Qed.

(** The theorem at the three sample texts of the specification. *)
Lemma extractSeverity_spec_witness :
  extractSeverity (str "SQL injection found; warning: unused var") = critical /\
  extractSeverity (str "warning: unused var") = warning /\
  extractSeverity (str "looks fine to me") = info.
Proof.
  split; [|split].
  - apply (extractSeverity_spec (str "SQL injection found; warning: unused var")).
    exists (str "sql injection"). split; [simpl; tauto|].
    exists [], (str "SQL injection"), (str " found; warning: unused var").
    split; reflexivity.
  - apply (extractSeverity_spec (str "warning: unused var")).
    + intros H. apply (mentions_existsb _ _ critical_lower) in H. discriminate.
    + exists (str "warning"). split; [simpl; tauto|].
      exists [], (str "warning"), (str ": unused var"). split; reflexivity.
  - apply (extractSeverity_spec (str "looks fine to me")).
    + intros H. apply (mentions_existsb _ _ critical_lower) in H. discriminate.
    + intros H. apply (mentions_existsb _ _ warning_lower) in H. discriminate.
Defined.

End SeverityProps.

(** ** The classifier *)

Module ClassifierProps.

Lemma any_strong_spec (ps : list (bool * regex)) (s : text) :
  any_strong ps s = true <-> exists p, In p ps /\ pattern_test p s = true.
Proof.
  induction ps as [|p ps IH]; simpl.
  - split; [discriminate | intros (p & [] & _)].
  - destruct (pattern_test p s) eqn:Hp.
    + split; [intros _; exists p; auto | reflexivity].
    + rewrite IH. split.
      * intros (q & Hin & Hq). exists q. auto.
      * intros (q & [<- | Hin] & Hq); [congruence | exists q; auto].
Qed.

Lemma count_matches_spec (ps : list (bool * regex)) (s : text) : forall n,
  count_matches ps s n =
    (n + List.length (List.filter (fun p => pattern_test p s) ps))%nat.
Proof.
  induction ps as [|p ps IH]; intros n; simpl.
  - lia.
  - rewrite IH. destruct (pattern_test p s); simpl; lia.
Qed.

(** C2. On the trimmed text: a fence of three backticks makes it code,
    and so does a match of one of the strong patterns; otherwise, with m
    the number of weak patterns that match, a text of fewer than 50 code
    units with m < 2 is not code, and in every other case the text is code
    exactly when m >= 2. *)
Theorem isCode_spec (input : text) :
  let trimmed := trim input in
  let m := weak_count trimmed in
  (includes trimmed (str "```") = true -> isCode input = true) /\
  (strong_match trimmed -> isCode input = true) /\
  (includes trimmed (str "```") = false -> ~ strong_match trimmed ->
   ((List.length trimmed < 50)%nat /\ (m < 2)%nat -> isCode input = false) /\
   (~ ((List.length trimmed < 50)%nat /\ (m < 2)%nat) ->
    (isCode input = true <-> (2 <= m)%nat))).
Proof.
  intros trimmed m. unfold isCode. fold trimmed.
  rewrite count_matches_spec, Nat.add_0_l. fold (weak_count trimmed). fold m.
  pose proof (any_strong_spec strongIndicators trimmed) as Hs.
  fold (strong_match trimmed) in Hs.
  assert (Hfence : startsWith trimmed (str "```") || includes trimmed (str "```")
                   = includes trimmed (str "```")).
  { destruct (startsWith trimmed (str "```")) eqn:Hsw; [|reflexivity].
    symmetry. unfold includes. destruct trimmed; fold includes; now rewrite Hsw. }
  rewrite Hfence.
  split; [|split].
  - intros ->. reflexivity.
  - intros H. apply Hs in H. rewrite H. now destruct (includes _ _).
  - intros -> Hn.
    destruct (any_strong strongIndicators trimmed) eqn:Ha.
    { exfalso. apply Hn, Hs. reflexivity. }
    split.
    + intros [Hlen Hm].
      apply Nat.ltb_lt in Hlen, Hm. now rewrite Hlen, Hm.
    + intros Hnot.
      destruct (Nat.ltb_spec (List.length trimmed) 50);
        destruct (Nat.ltb_spec m 2); cbn [andb].
      * exfalso. apply Hnot. split; assumption.
      * apply Nat.leb_le.
      * apply Nat.leb_le.
      * apply Nat.leb_le.
Qed.

(** The samples of the specification. *)
Example isCode_fence :
  isCode (str "```" ++ [nl] ++ str "let x = 1" ++ [nl] ++ str "```") = true.
Proof. reflexivity. Qed.

Example isCode_chat : isCode (str "hello, how are you?") = false.
Proof. vm_compute. reflexivity. Qed.

Example isCode_sql : isCode (str "SELECT * FROM users WHERE id=1") = true.
Proof. vm_compute. reflexivity. Qed.

Example isCode_short : isCode (str "wait; what") = false.
Proof. vm_compute. reflexivity. Qed.

Example isCode_short_count :
  List.length (str "wait; what") = 10%nat /\ weak_count (str "wait; what") = 1%nat.
Proof. vm_compute. split; reflexivity. Qed.

Lemma isCode_spec_witness :
  isCode (str "  ```js  ") = true /\
  isCode (str "function f(){ return 1 }") = true /\
  isCode (str "hello, how are you?") = false /\
  (isCode (str "The loop is for (let i = 0; i < n; i++) and it never ends, does it?") = true
   <-> (2 <= weak_count
              (trim (str "The loop is for (let i = 0; i < n; i++) and it never ends, does it?")))%nat).
Proof.
  split; [|split; [|split]].
  - destruct (isCode_spec (str "  ```js  ")) as (Hfence & _ & _).
    apply Hfence. reflexivity.
  - destruct (isCode_spec (str "function f(){ return 1 }")) as (_ & Hstrong & _).
    apply Hstrong.
    exists (nth 1 strongIndicators (false, Eps)). split; [simpl; tauto|].
    vm_compute. reflexivity.
  - destruct (isCode_spec (str "hello, how are you?")) as (_ & _ & Hweak).
    apply Hweak.
    + vm_compute. reflexivity.
    + intros H. apply any_strong_spec in H. vm_compute in H. discriminate.
    + vm_compute. split; lia.
  - destruct (isCode_spec
                (str "The loop is for (let i = 0; i < n; i++) and it never ends, does it?"))
      as (_ & _ & Hweak).
    apply Hweak.
    + vm_compute. reflexivity.
    + intros H. apply any_strong_spec in H. vm_compute in H. discriminate.
    + vm_compute. lia.
Defined.

End ClassifierProps.

(** ** The rate limiter *)

Module RateLimiterProps.

Import RateLimiter.
Local Open Scope Z_scope.

Lemma stale_spec now (o : option Entry) :
  stale now o = true <-> o = None \/ exists e, o = Some e /\ now > resetAt e.
Proof.
  destruct o as [e|]; simpl.
  - rewrite Z.gtb_gt. split.
    + intros H. right. exists e. split; [reflexivity | lia].
    + intros [H | (e' & H & Hgt)]; [discriminate | injection H as <-; lia].
  - split; [intros _; now left | reflexivity].
Qed.

Lemma own_name identifier :
  is_inherited identifier = false -> identifier ∉ inherited.
Proof. apply bool_decide_eq_false. Qed.

(** Under an inherited name nothing is stored, and every check is
    refused. *)
Lemma inherited_no_entry rl identifier :
  identifier ∈ inherited -> store rl !! identifier = None.
Proof.
  intros Hin. destruct (store rl !! identifier) as [e|] eqn:He; [|reflexivity].
  now destruct (store_own rl identifier e He).
Qed.

Lemma check_inherited rl now identifier :
  identifier ∈ inherited -> check now identifier rl = (rl, refused).
Proof.
  intros Hin. unfold check.
  destruct (decide (identifier ∈ inherited)); [reflexivity | contradiction].
Qed.

Lemma check_all_inherited (times : list Z) : forall rl identifier,
  identifier ∈ inherited ->
  check_all times identifier rl = (rl, map (fun _ => refused) times).
Proof.
  induction times as [|now times IH]; intros rl identifier Hin; [reflexivity|].
  cbn [check_all map]. rewrite (check_inherited rl now identifier Hin).
  now rewrite (IH rl identifier Hin).
Qed.

Lemma check_fresh rl now identifier :
  identifier ∉ inherited ->
  stale now (store rl !! identifier) = true ->
  exists own,
    check now identifier rl =
      (put identifier own {| count := 1; resetAt := now + windowMs rl |} rl,
       {| allowed := true; remaining := Some (limit rl - 1);
          res_resetAt := Some (now + windowMs rl) |}).
Proof.
  intros Hown Hs. unfold check.
  destruct (decide (identifier ∈ inherited)) as [Hin|own]; [contradiction|].
  exists own. now rewrite Hs.
Qed.

Lemma check_within rl now identifier e :
  identifier ∉ inherited ->
  store rl !! identifier = Some e -> now <= resetAt e ->
  exists own,
    check now identifier rl =
      (put identifier own {| count := count e + 1; resetAt := resetAt e |} rl,
       {| allowed := count e + 1 <=? limit rl;
          remaining := Some (Z.max 0 (limit rl - (count e + 1)));
          res_resetAt := Some (resetAt e) |}).
Proof.
  intros Hown He Hle. unfold check, stale.
  destruct (decide (identifier ∈ inherited)) as [Hin|own]; [contradiction|].
  exists own. rewrite He.
  destruct (now >? resetAt e) eqn:Hgt; [apply Z.gtb_gt in Hgt; lia | reflexivity].
Qed.

(** Checks that all fall into the window of the stored entry count up
    from it, one by one. *)
Lemma check_all_within times : forall rl identifier e,
  identifier ∉ inherited ->
  store rl !! identifier = Some e ->
  Forall (fun now => now <= resetAt e) times ->
  let out := check_all times identifier rl in
  snd out = window_results (limit rl) (resetAt e) (count e) (List.length times) /\
  limit (fst out) = limit rl /\ windowMs (fst out) = windowMs rl /\
  store (fst out) !! identifier =
    Some {| count := count e + Z.of_nat (List.length times); resetAt := resetAt e |}.
Proof.
  induction times as [|now times IH]; intros rl identifier e Hown He Hall; simpl.
  - repeat split; trivial. rewrite He, Z.add_0_r. now destruct e.
  - inversion Hall as [|? ? Hnow Hrest]; subst.
    destruct (check_within rl now identifier e Hown He Hnow) as (own & ->).
    set (e' := {| count := count e + 1; resetAt := resetAt e |}).
    set (rl1 := put identifier own e' rl).
    specialize (IH rl1 identifier e' Hown).
    destruct (check_all times identifier rl1) as [rl2 rs] eqn:Hrun.
    simpl in IH |- *.
    destruct IH as (Hrs & Hlim & Hwin & Hst).
    + apply lookup_insert_eq.
    + exact Hrest.
    + rewrite Hrs, Hlim, Hwin, Hst. repeat split; trivial.
      f_equal. f_equal. lia.
Qed.

Lemma check_all_app t1 t2 identifier rl :
  check_all (t1 ++ t2) identifier rl =
    let '(rl1, r1) := check_all t1 identifier rl in
    let '(rl2, r2) := check_all t2 identifier rl1 in
    (rl2, r1 ++ r2).
Proof.
  revert rl. induction t1 as [|now t1 IH]; intros rl; simpl.
  - now destruct (check_all t2 identifier rl).
  - destruct (check now identifier rl) as [rl1 r]. rewrite IH.
    destruct (check_all t1 identifier rl1) as [rl2 rs].
    now destruct (check_all t2 identifier rl2).
Qed.

(** The two branches of [check] under a name that is not inherited: a
    fresh entry (count 1, reset time now + W) and the answer allowed with
    N - 1 remaining when the identifier has no entry or the time is past
    the entry's reset time; otherwise the count goes up by one and the
    answer is allowed = (count <= N), remaining = max(0, N - count).  With N = 5 and W = 60 s, of six checks of one
    identifier within a window the first five are allowed and the sixth is
    not, and the first check after the reset time is allowed again with
    N - 1 = 4 remaining. *)
Lemma check_fixed_window (rl : t) (now : Z) (identifier : text) :
  identifier ∉ inherited ->
  (store rl !! identifier = None \/
   (exists e, store rl !! identifier = Some e /\ now > resetAt e) ->
   store (fst (check now identifier rl)) =
     <[identifier := {| count := 1; resetAt := now + windowMs rl |}]> (store rl) /\
   snd (check now identifier rl) =
     {| allowed := true; remaining := Some (limit rl - 1);
        res_resetAt := Some (now + windowMs rl) |}) /\
  (forall e, store rl !! identifier = Some e -> now <= resetAt e ->
   store (fst (check now identifier rl)) =
     <[identifier := {| count := count e + 1; resetAt := resetAt e |}]> (store rl) /\
   snd (check now identifier rl) =
     {| allowed := count e + 1 <=? limit rl;
        remaining := Some (Z.max 0 (limit rl - (count e + 1)));
        res_resetAt := Some (resetAt e) |}) /\
  (forall times later,
     limit rl = 5 -> windowMs rl = 60 * 1000 ->
     store rl !! identifier = None \/
       (exists e, store rl !! identifier = Some e /\ now > resetAt e) ->
     List.length times = 5%nat ->
     Forall (fun t => t <= now + 60 * 1000) times ->
     later > now + 60 * 1000 ->
     let results := snd (check_all (now :: times ++ [later]) identifier rl) in
     map allowed results = [true; true; true; true; true; false; true] /\
     map remaining results = [Some 4; Some 3; Some 2; Some 1; Some 0; Some 0; Some 4]).
Proof.
  intros Hown. split; [|split].
  - intros H. apply stale_spec in H.
    destruct (check_fresh rl now identifier Hown H) as (own & ->). now split.
  - intros e He Hle.
    destruct (check_within rl now identifier e Hown He Hle) as (own & ->). now split.
  - intros times later Hlim Hwin Hstale Hlen Hall Hlater results.
    subst results. simpl.
    apply stale_spec in Hstale.
    destruct (check_fresh rl now identifier Hown Hstale) as (own & ->).
    set (e1 := {| count := 1; resetAt := now + windowMs rl |}).
    set (rl1 := put identifier own e1 rl).
    rewrite check_all_app.
    pose proof (check_all_within times rl1 identifier e1 Hown) as Hrun.
    destruct (check_all times identifier rl1) as [rl2 rs] eqn:Erun.
    simpl in Hrun.
    destruct Hrun as (Hrs & Hlim2 & Hwin2 & Hst).
    { apply lookup_insert_eq. }
    { rewrite Hwin. exact Hall. }
    simpl.
    destruct (check_fresh rl2 later identifier Hown) as (own2 & ->).
    { apply stale_spec. right. eexists. split; [exact Hst|]. simpl. lia. }
    simpl. rewrite Hrs, Hlen, Hlim2, Hlim. simpl.
    split; reflexivity.
Qed.

(** The lemma at work: a limiter made by [new 5 60], the identifier
    "10.0.0.7", checks at 1000 ms and every ten seconds after it, the last
    one after the window has passed. *)
Lemma check_fixed_window_witness :
  let rl := new 5 60 in
  let identifier := str "10.0.0.7" in
  snd (check 1000 identifier rl) =
    {| allowed := true; remaining := Some 4; res_resetAt := Some 61000 |} /\
  map allowed
    (snd (check_all ([1000; 11000; 21000; 31000; 41000; 51000] ++ [61001]) identifier rl))
  = [true; true; true; true; true; false; true].
Proof.
  intros rl identifier.
  assert (Hown : identifier ∉ inherited) by (now apply own_name).
  destruct (check_fixed_window rl 1000 identifier Hown) as (Hfresh & _ & Hrun).
  split.
  - apply Hfresh. left. reflexivity.
  - apply (Hrun [11000; 21000; 31000; 41000; 51000] 61001).
    + reflexivity.
    + reflexivity.
    + left. reflexivity.
    + reflexivity.
    + repeat constructor; simpl; lia.
    + lia.
Defined.

(** C1, at the identifier "constructor" (and at every other name that
    objects inherit).  The store has no entry for it, which calls for a
    fresh entry and the answer allowed with N - 1 remaining.  [check]
    finds the inherited member instead of nothing: it installs no entry
    and answers not allowed, with NaN as the remaining number and no
    reset time; and so for every later check, inside the window or after
    it.  With N = 5 and W = 60 s not one check of the identifier is
    allowed.  (For the names that are not inherited see
    [check_fixed_window].) *)
Theorem check_inherited_name (rl : t) (now : Z) :
  store rl !! str "constructor" = None /\
  check now (str "constructor") rl =
    (rl, {| allowed := false; remaining := None; res_resetAt := None |}) /\
  Forall (fun identifier =>
            store rl !! identifier = None /\ check now identifier rl = (rl, refused))
    inherited /\
  (forall times,
     map allowed (snd (check_all times (str "constructor") (new 5 60)))
       = map (fun _ => false) times).
Proof.
  assert (Hall : Forall (fun identifier =>
            store rl !! identifier = None /\ check now identifier rl = (rl, refused))
            inherited).
  { apply Forall_forall. intros identifier Hin. apply list_elem_of_In in Hin.
    split; [now apply inherited_no_entry | now apply check_inherited]. }
  assert (Hc : str "constructor" ∈ inherited) by (apply list_elem_of_In; now left).
  split; [now apply inherited_no_entry|].
  split; [now apply check_inherited|].
  split; [exact Hall|].
  intros times. rewrite (check_all_inherited times _ _ Hc). cbn [snd].
  now rewrite map_map.
Qed.

End RateLimiterProps.

(** ** Sessions *)

Module SessionProps.

Local Open Scope Z_scope.

Section Props.

Variable E : Env.
Variable contextService : Methods.
Variable kv_bound : bool.

Lemma slice_last_length {A} (n : nat) (l : list A) :
  List.length (slice_last n l) = Nat.min n (List.length l).
Proof. unfold slice_last. rewrite length_skipn. lia. Qed.

Lemma truncate_length (ms : list ChatMessage) :
  (List.length (truncate ms) <= 10)%nat.
Proof.
  unfold truncate. destruct (Nat.ltb_spec 10 (List.length ms)).
  - rewrite slice_last_length. lia.
  - lia.
Qed.

(** The messages kept are a suffix of the sequence: what is dropped comes
    from the front, and something is dropped only to get down to ten. *)
Lemma truncate_suffix (ms : list ChatMessage) :
  exists dropped,
    ms = dropped ++ truncate ms /\
    List.length dropped = (List.length ms - 10)%nat /\
    (dropped = [] \/ List.length (truncate ms) = 10%nat).
Proof.
  unfold truncate. destruct (Nat.ltb_spec 10 (List.length ms)).
  - exists (firstn (List.length ms - 10) ms). unfold slice_last.
    rewrite firstn_skipn, length_firstn, length_skipn.
    repeat split; [lia | right; lia].
  - exists []. repeat split; [simpl; lia | now left].
Qed.

Lemma updateSession_bound (session : ChatSession) (w : World) :
  kv_bound = true ->
  let session' := with_updated_at session (toISOString E (clock E (reads w))) in
  updateSession E kv_bound session w =
    (inr session',
     {| kv := <[key_of (id session) :=
                 (stringify E session', clock E (S (reads w)) + 3600 * 1000)]> (kv w);
        reads := S (S (reads w)); draws := draws w; calls := calls w |}).
Proof. intros ->. reflexivity. Qed.

Lemma updateSession_unbound (session : ChatSession) (w : World) :
  kv_bound = false -> updateSession E kv_bound session w = (inr session, w).
Proof. intros ->. reflexivity. Qed.

Lemma updateSession_messages session w session' w' :
  updateSession E kv_bound session w = (inr session', w') ->
  messages session' = messages session /\ id session' = id session /\
  calls w' = calls w.
Proof.
  unfold updateSession. destruct kv_bound; simpl; intros [= <- <-]; now simpl.
Qed.

Lemma updateSession_calls session w :
  calls (snd (updateSession E kv_bound session w)) = calls w.
Proof. unfold updateSession. destruct kv_bound; reflexivity. Qed.

Lemma getSession_unbound sessionId w :
  kv_bound = false ->
  getSession E kv_bound sessionId w =
    (inl (SessionError (str "Session storage not available")), w).
Proof. intros ->. reflexivity. Qed.

Lemma getSession_gone sessionId w :
  kv_bound = true ->
  gone w (key_of sessionId) (clock E (reads w)) ->
  getSession E kv_bound sessionId w =
    (inl (SessionError (str "Session not found or expired")), ticked w).
Proof.
  intros -> Hgone. unfold getSession, kv_get, bind, Effects.now, get_kv, ret. simpl.
  destruct Hgone as [-> | (v & expiry & -> & Hle)]; [reflexivity|].
  destruct (Z.ltb_spec (clock E (reads w)) expiry); [lia | reflexivity].
Qed.

(** A lookup either fails with a [SessionError] or finds a session; it
    changes neither the store nor the generator nor the requests sent. *)
Lemma getSession_cases sessionId w :
  exists w',
    kv w' = kv w /\ draws w' = draws w /\ calls w' = calls w /\
    ((exists m, getSession E kv_bound sessionId w = (inl (SessionError m), w')) \/
     (exists session, getSession E kv_bound sessionId w = (inr session, w'))).
Proof.
  unfold getSession, kv_get, bind, Effects.now, get_kv, ret, throw.
  destruct kv_bound; simpl;
    [destruct (kv w !! key_of sessionId) as [[v expiry]|];
       [destruct (clock E (reads w) <? expiry); [destruct v as [|c d]|]|]|];
    (eexists; refine (conj _ (conj _ (conj _ _))); cycle 3;
     [first [left; eexists; reflexivity | right; eexists; reflexivity]
     | reflexivity ..]).
Qed.

(** [createSession] cannot fail; the session is empty, its identifier is
    the next draw, and no request is sent. *)
Lemma createSession_ok w :
  exists session w',
    createSession E kv_bound w = (inr session, w') /\
    id session = randomUUID E (draws w) /\ messages session = [] /\
    expires_at session = toISOString E (clock E (S (reads w)) + 3600 * 1000) /\
    draws w' = S (draws w) /\ calls w' = calls w.
Proof.
  unfold createSession, kv_put, bind, Effects.now, uuid, get_kv, set_kv, ret.
  destruct kv_bound; simpl; do 2 eexists; repeat split.
Qed.

Lemma resolve_ok sessionId w :
  exists session w',
    resolve E kv_bound sessionId w = (inr session, w') /\ calls w' = calls w.
Proof.
  unfold resolve, catch.
  destruct (getSession_cases sessionId w) as (w1 & _ & _ & Hc & [[m H] | [s0 H]]);
    rewrite H.
  - destruct (createSession_ok w1) as (s & w2 & Hs & _ & _ & _ & _ & Hc2).
    exists s, w2. split; [exact Hs | congruence].
  - exists s0, w1. split; [reflexivity | exact Hc].
Qed.

Lemma find_or_create_found sessionId w session w1 :
  getSession E kv_bound sessionId w = (inr session, w1) ->
  find_or_create E kv_bound sessionId w = (inr (session, sessionId), w1).
Proof. intros H. unfold find_or_create, catch, bind. now rewrite H. Qed.

Lemma find_or_create_failed sessionId w e w1 :
  getSession E kv_bound sessionId w = (inl e, w1) ->
  exists session w2,
    createSession E kv_bound w1 = (inr session, w2) /\
    find_or_create E kv_bound sessionId w = (inr (session, id session), w2) /\
    id session = randomUUID E (draws w) /\ messages session = [] /\
    calls w2 = calls w.
Proof.
  intros H.
  destruct (getSession_cases sessionId w) as (w1' & _ & Hd & Hc & Hcase).
  assert (w1' = w1) as -> by (destruct Hcase as [[m H'] | [s H']]; congruence).
  destruct (createSession_ok w1) as (s & w2 & Hs & Hid & Hm & _ & _ & Hc2).
  exists s, w2. repeat split; trivial; try congruence.
  unfold find_or_create, catch, bind. rewrite H, Hs. reflexivity.
Qed.

Lemma find_or_create_ok sessionId w :
  exists found w0,
    find_or_create E kv_bound sessionId w = (inr found, w0) /\ calls w0 = calls w.
Proof.
  destruct (getSession_cases sessionId w) as (w1 & _ & _ & Hc & [[m H] | [s0 H]]).
  - destruct (find_or_create_failed _ _ _ _ H) as (s & w2 & _ & Hf & _ & _ & Hc2).
    now exists (s, id s), w2.
  - exists (s0, sessionId), w1. split; [now apply find_or_create_found | exact Hc].
Qed.

(** One turn, spelled out: the session is found or created, the request
    is sent; a content that is not empty becomes the review, the session
    gets the two messages and is written back; anything else ends the
    turn with an [AIServiceError] and nothing is written. *)
Lemma processCodeReview_run sessionId code language userContext w found w0 :
  find_or_create E kv_bound sessionId w = (inr found, w0) ->
  let session := fst found in
  let req := request contextService session code language userContext in
  let sanitized := m_sanitizeCode contextService code in
  processCodeReview E contextService kv_bound sessionId code language userContext w =
  match create E req with
  | Choices (Some (c :: r) :: _) =>
      let rv := sanitizeResponse (c :: r) in
      let session' :=
        with_messages session
          (truncate
             (messages session
                ++ [{| msg_role := user;
                       content := snd (prompts contextService code language userContext) |}]
                ++ [{| msg_role := assistant; content := rv |}])) in
      (inr {| review := rv;
              rv_severity := if m_isCode contextService sanitized
                             then m_extractSeverity contextService rv else info;
              sessionId := snd found |},
       snd (updateSession E kv_bound session' (sent w0 req)))
  | Choices [] =>
      (inl (AIServiceError (str "No response from model")), sent w0 req)
  | Choices (_ :: _) =>
      (inl (AIServiceError (str "Empty response from model")), sent w0 req)
  | Rejected m =>
      (inl (AIServiceError (match m with [] => str "Unknown error occurred" | _ => m end)),
       sent w0 req)
  end.
Proof.
  intros Hf session req sanitized.
  unfold processCodeReview. fold (find_or_create E kv_bound sessionId).
  unfold bind. rewrite Hf.
  subst req. unfold request, prompts. fold sanitized. fold session.
  destruct (m_isCode contextService sanitized) eqn:Hcode; simpl fst; simpl snd.
  all: unfold reviewCode, chatCompletion, catch, bind, send, throw, ret; simpl.
  all: match goal with |- context [create E ?r] =>
         destruct (create E r) as [m|[|[[|c r']|] cs]] end.
  all: simpl; try reflexivity.
  all: unfold updateSession, kv_put, bind, Effects.now, get_kv, set_kv, ret;
       destruct kv_bound; reflexivity.
Qed.

Lemma updates_frame n : forall session w,
  exists session' w',
    updates E kv_bound n session w = (inr session', w') /\
    id session' = id session /\ messages session' = messages session /\
    created_at session' = created_at session /\
    expires_at session' = expires_at session /\
    (kv_bound = true -> (0 < n)%nat ->
     kv w' !! key_of (id session) =
       Some (stringify E session', clock E (reads w' - 1) + 3600 * 1000)).
Proof.
  induction n as [|n IH]; intros session w.
  - exists session, w. repeat split; trivial. intros _ H. lia.
  - simpl. unfold bind. destruct kv_bound eqn:Hb.
    + unfold updateSession, kv_put, bind, Effects.now, get_kv, set_kv, ret. simpl.
      set (s1 := with_updated_at session _). set (w1 := Build_World _ _ _ _).
      destruct (IH s1 w1) as (s' & w' & Hrun & Hid & Hms & Hcr & Hex & Hkv).
      exists s', w'. rewrite Hrun. repeat split; trivial.
      intros _ _. destruct n as [|n].
      * simpl in Hrun. injection Hrun as <- <-. subst w1. simpl.
        apply lookup_insert_eq.
      * apply Hkv; [reflexivity | lia].
    + unfold updateSession. simpl.
      destruct (IH session w) as (s' & w' & Hrun & Hid & Hms & Hcr & Hex & Hkv).
      exists s', w'. rewrite Hrun. repeat split; trivial. intros H. discriminate.
Qed.

(** C10. [updateSession] changes nothing of the session but
    [updated_at]: the value written back has the same [id], [messages],
    [created_at] and [expires_at]; without a store nothing happens at all.
    The entry in the store gets a new time to live with every update (one
    hour from the write), while the field [expires_at] of the session
    stays what it was, however many updates follow. *)
Theorem updateSession_frame (session : ChatSession) (w : World) :
  (kv_bound = true ->
   exists session' w',
     updateSession E kv_bound session w = (inr session', w') /\
     kv w' = <[key_of (id session) :=
                (stringify E session', clock E (S (reads w)) + 3600 * 1000)]> (kv w) /\
     id session' = id session /\ messages session' = messages session /\
     created_at session' = created_at session /\
     expires_at session' = expires_at session /\
     updated_at session' = toISOString E (clock E (reads w))) /\
  (kv_bound = false -> updateSession E kv_bound session w = (inr session, w)) /\
  (forall n, exists session' w',
     updates E kv_bound n session w = (inr session', w') /\
     id session' = id session /\ messages session' = messages session /\
     created_at session' = created_at session /\
     expires_at session' = expires_at session /\
     (kv_bound = true -> (0 < n)%nat ->
      kv w' !! key_of (id session) =
        Some (stringify E session', clock E (reads w' - 1) + 3600 * 1000))).
Proof.
  split; [|split].
  - intros Hb. do 2 eexists. split; [apply updateSession_bound, Hb|].
    simpl. repeat split.
  - apply updateSession_unbound.
  - intros n. apply updates_frame.
Qed.

(** C5. Whatever session a turn works on, after [addMessage] and after
    the two messages that [processCodeReview] appends the session holds at
    most ten messages; they are the last ones of the sequence, in their
    order, and messages are dropped (from the front) only to get down to
    ten.  An eleventh message leaves ten: the first one goes. *)
Theorem messages_capped (sid : text) (r : role) (c code : text)
    (language userContext : option text) (w : World) :
  (exists s0 w0 s w',
     resolve E kv_bound sid w = (inr s0, w0) /\
     addMessage E kv_bound sid r c w = (inr s, w') /\
     messages s = truncate (messages s0 ++ [{| msg_role := r; content := c |}]) /\
     (kv_bound = true ->
      exists expiry, kv w' !! key_of (id s0) = Some (stringify E s, expiry))) /\
  (forall rv w',
     processCodeReview E contextService kv_bound sid code language userContext w
       = (inr rv, w') ->
     exists s0 w0 prompt,
       find_or_create E kv_bound sid w = (inr (s0, sessionId rv), w0) /\
       (kv_bound = true ->
        exists s' expiry,
          kv w' !! key_of (id s0) = Some (stringify E s', expiry) /\
          messages s' =
            truncate (messages s0
                        ++ [{| msg_role := user; content := prompt |}]
                        ++ [{| msg_role := assistant; content := review rv |}]))) /\
  (forall ms : list ChatMessage,
     (List.length (truncate ms) <= 10)%nat /\
     exists dropped,
       ms = dropped ++ truncate ms /\
       (dropped = [] \/ List.length (truncate ms) = 10%nat)) /\
  (forall (ms : list ChatMessage) (m : ChatMessage),
     List.length ms = 10%nat ->
     List.length (truncate (ms ++ [m])) = 10%nat /\
     truncate (ms ++ [m]) = tl ms ++ [m]).
Proof.
  split; [|split; [|split]].
  - destruct (resolve_ok sid w) as (s0 & w0 & Hres & _).
    exists s0, w0.
    unfold addMessage. fold (resolve E kv_bound sid). unfold bind. rewrite Hres.
    set (s1 := with_messages s0 _).
    destruct kv_bound eqn:Hb.
    + unfold updateSession, kv_put, bind, Effects.now, get_kv, set_kv, ret. simpl.
      do 2 eexists. repeat split. intros _. eexists. apply lookup_insert_eq.
    + unfold updateSession. simpl. exists s1, w0. repeat split. intros H. discriminate.
  - intros rv w' Hrun.
    destruct (find_or_create_ok sid w) as ([s0 sid'] & w0 & Hf & _).
    pose proof (processCodeReview_run sid code language userContext w _ _ Hf) as Hp.
    simpl in Hp. rewrite Hrun in Hp.
    destruct (create E _) as [m|[|[[|c0 r0]|] cs]] in Hp; try discriminate.
    injection Hp as -> ->. simpl.
    exists s0, w0, (snd (prompts contextService code language userContext)).
    split; [exact Hf|].
    intros Hb. rewrite updateSession_bound by exact Hb. simpl.
    do 2 eexists. split; [apply lookup_insert_eq | reflexivity].
  - intros ms. split; [apply truncate_length|].
    destruct (truncate_suffix ms) as (dropped & H1 & _ & H3). now exists dropped.
  - intros ms m Hlen.
    do 10 (destruct ms as [|? ms]; [discriminate|]).
    destruct ms; [|discriminate]. split; reflexivity.
Qed.

(** C6. A direct lookup fails with a [SessionError] when no store is
    bound and when the entry is absent or has expired.  In
    [processCodeReview] a failed lookup is not passed on: a session is
    created, the request of the turn is sent for it, the identifier
    reported is the one of the new session, and the only error that can
    still end the turn is the [AIServiceError] of the completion call. *)
Theorem lookup_failure_recovered (sid code : text)
    (language userContext : option text) (w : World) :
  (kv_bound = false ->
   getSession E kv_bound sid w =
     (inl (SessionError (str "Session storage not available")), w)) /\
  (kv_bound = true -> gone w (key_of sid) (clock E (reads w)) ->
   getSession E kv_bound sid w =
     (inl (SessionError (str "Session not found or expired")), ticked w)) /\
  (forall e w1,
     getSession E kv_bound sid w = (inl e, w1) ->
     exists s w2 out w',
       createSession E kv_bound w1 = (inr s, w2) /\
       id s = randomUUID E (draws w) /\
       processCodeReview E contextService kv_bound sid code language userContext w
         = (out, w') /\
       calls w' = calls w ++ [request contextService s code language userContext] /\
       match out with
       | inr rv => sessionId rv = id s
       | inl e' => exists m, e' = AIServiceError m
       end /\
       (forall c0 r0 cs,
          create E (request contextService s code language userContext)
            = Choices (Some (c0 :: r0) :: cs) ->
          exists rv, out = inr rv)).
Proof.
  split; [|split].
  - apply getSession_unbound.
  - apply getSession_gone.
  - intros e w1 Hget.
    destruct (find_or_create_failed _ _ _ _ Hget) as (s & w2 & Hs & Hf & Hid & Hms & Hc).
    pose proof (processCodeReview_run sid code language userContext w _ _ Hf) as Hp.
    simpl in Hp.
    exists s, w2.
    destruct (create E _) as [m|[|[[|c0 r0]|] cs]] eqn:Hcr in Hp.
    all: do 2 eexists; split; [exact Hs|]; split; [exact Hid|]; split; [exact Hp|].
    all: split; [|split].
    all: try (simpl; now rewrite Hc).
    all: try (eexists; reflexivity).
    all: try (intros c1 r1 cs1 H; rewrite H in Hcr; discriminate).
    rewrite updateSession_calls. simpl. now rewrite Hc.
Qed.

(** C8. When the classifier takes the sanitized input for conversation,
    the severity reported is [info] whatever the answer says, and the turn
    does not depend on [extractSeverity] at all: with any other function
    in its place the outcome is the same.  On the code branch the severity
    is what [extractSeverity] makes of the review.  On either branch the
    turn does report: a completion whose first content is not empty makes
    the turn succeed, with the sanitized content as the review. *)
Theorem chat_branch_severity (sid code : text)
    (language userContext : option text) (w : World) :
  (m_isCode contextService (m_sanitizeCode contextService code) = false ->
   (forall rv w',
      processCodeReview E contextService kv_bound sid code language userContext w
        = (inr rv, w') ->
      rv_severity rv = info) /\
   (forall f,
      processCodeReview E (with_extractSeverity contextService f) kv_bound
        sid code language userContext w
      = processCodeReview E contextService kv_bound sid code language userContext w) /\
   (forall found w0 c0 r0 others,
      find_or_create E kv_bound sid w = (inr found, w0) ->
      create E (request contextService (fst found) code language userContext)
        = Choices (Some (c0 :: r0) :: others) ->
      exists rv w',
        processCodeReview E contextService kv_bound sid code language userContext w
          = (inr rv, w') /\
        review rv = sanitizeResponse (c0 :: r0) /\
        rv_severity rv = info)) /\
  (m_isCode contextService (m_sanitizeCode contextService code) = true ->
   (forall rv w',
      processCodeReview E contextService kv_bound sid code language userContext w
        = (inr rv, w') ->
      rv_severity rv = m_extractSeverity contextService (review rv)) /\
   (forall found w0 c0 r0 others,
      find_or_create E kv_bound sid w = (inr found, w0) ->
      create E (request contextService (fst found) code language userContext)
        = Choices (Some (c0 :: r0) :: others) ->
      exists rv w',
        processCodeReview E contextService kv_bound sid code language userContext w
          = (inr rv, w') /\
        review rv = sanitizeResponse (c0 :: r0) /\
        rv_severity rv = m_extractSeverity contextService (review rv))).
Proof.
  destruct (find_or_create_ok sid w) as (found & w0 & Hf & _).
  pose proof (processCodeReview_run sid code language userContext w _ _ Hf) as Hp.
  simpl in Hp.
  split.
  - intros Hcode. split; [|split].
    + intros rv w' Hrun. rewrite Hrun, Hcode in Hp.
      destruct (create E _) as [m|[|[[|c0 r0]|] cs]] in Hp; try discriminate.
      now injection Hp as -> _.
    + intros f. unfold processCodeReview, with_extractSeverity. simpl.
      rewrite Hcode. reflexivity.
    + intros found' w0' c0 r0 others Hf' Hcreate.
      rewrite Hf in Hf'. injection Hf' as <- <-.
      rewrite Hcreate, Hcode in Hp. do 2 eexists. split; [exact Hp|]. now split.
  - intros Hcode. split.
    + intros rv w' Hrun. rewrite Hrun, Hcode in Hp.
      destruct (create E _) as [m|[|[[|c0 r0]|] cs]] in Hp; try discriminate.
      now injection Hp as -> _.
    + intros found' w0' c0 r0 others Hf' Hcreate.
      rewrite Hf in Hf'. injection Hf' as <- <-.
      rewrite Hcreate, Hcode in Hp. do 2 eexists. split; [exact Hp|]. now split.
Qed.

(** A turn fails with an [AIServiceError] or not at all. *)
Lemma processCodeReview_errors sid code language userContext w e w' :
  processCodeReview E contextService kv_bound sid code language userContext w
    = (inl e, w') ->
  exists m, e = AIServiceError m.
Proof.
  intros Hrun.
  destruct (find_or_create_ok sid w) as (found & w0 & Hf & _).
  pose proof (processCodeReview_run sid code language userContext w _ _ Hf) as Hp.
  simpl in Hp. rewrite Hrun in Hp.
  destruct (create E _) as [m|[|[[|c0 r0]|] cs]] in Hp; try discriminate;
    injection Hp as -> _; eexists; reflexivity.
Qed.

End Props.

(** The theorems at work in the sample surroundings. *)

Lemma updateSession_frame_witness :
  updateSession sample_env false sample_session empty_world
    = (inr sample_session, empty_world) /\
  exists session' w',
    updateSession sample_env true sample_session empty_world = (inr session', w') /\
    expires_at session' = str "3600000" /\ updated_at session' = str "0".
Proof.
  destruct (updateSession_frame sample_env true sample_session empty_world)
    as (Hbound & _ & _).
  destruct (updateSession_frame sample_env false sample_session empty_world)
    as (_ & Hunbound & _).
  split.
  - apply Hunbound. reflexivity.
  - destruct (Hbound eq_refl) as (s' & w' & Hrun & _ & _ & _ & _ & Hexp & Hupd).
    exists s', w'. split; [exact Hrun|]. split; [exact Hexp | exact Hupd].
Defined.

Lemma messages_capped_witness :
  let eleventh := {| msg_role := assistant; content := str "the eleventh" |} in
  truncate (ten_messages ++ [eleventh]) = tl ten_messages ++ [eleventh] /\
  exists rv w' s0 w0 prompt,
    processCodeReview sample_env createContextService true (str "abc")
      (str "hello, how are you?") None None empty_world = (inr rv, w') /\
    find_or_create sample_env true (str "abc") empty_world = (inr (s0, sessionId rv), w0) /\
    exists s' expiry,
      kv w' !! key_of (id s0) = Some (stringify sample_env s', expiry) /\
      messages s' =
        truncate (messages s0
                    ++ [{| msg_role := user; content := prompt |}]
                    ++ [{| msg_role := assistant; content := review rv |}]).
Proof.
  intros eleventh.
  destruct (messages_capped sample_env createContextService true (str "abc") user
              (str "hi") (str "hello, how are you?") None None empty_world)
    as (_ & Hturn & _ & Heleven).
  split.
  - apply (Heleven ten_messages eleventh). reflexivity.
  - destruct (processCodeReview sample_env createContextService true (str "abc")
                (str "hello, how are you?") None None empty_world)
      as [[e|rv] w'] eqn:Hrun.
    + vm_compute in Hrun. discriminate.
    + destruct (Hturn rv w' eq_refl) as (s0 & w0 & prompt & Hf & Hkv).
      exists rv, w', s0, w0, prompt. split; [reflexivity|]. split; [exact Hf|].
      apply Hkv. reflexivity.
Defined.

Lemma lookup_failure_recovered_witness :
  getSession sample_env false (str "abc") empty_world
    = (inl (SessionError (str "Session storage not available")), empty_world) /\
  getSession sample_env true (str "abc") empty_world
    = (inl (SessionError (str "Session not found or expired")), ticked empty_world) /\
  exists rv w',
    processCodeReview sample_env createContextService true (str "abc")
      (str "hello, how are you?") None None empty_world = (inr rv, w') /\
    sessionId rv = str "session-0".
Proof.
  destruct (lookup_failure_recovered sample_env createContextService false (str "abc")
              (str "hello, how are you?") None None empty_world) as (Hnone & _ & _).
  destruct (lookup_failure_recovered sample_env createContextService true (str "abc")
              (str "hello, how are you?") None None empty_world) as (_ & Hgone & Hturn).
  assert (Hmiss : getSession sample_env true (str "abc") empty_world
                  = (inl (SessionError (str "Session not found or expired")),
                     ticked empty_world)).
  { apply Hgone; [reflexivity | left; reflexivity]. }
  split; [apply Hnone; reflexivity|]. split; [exact Hmiss|].
  destruct (Hturn _ _ Hmiss) as (s & w2 & out & w' & _ & Hid & Hrun & _ & Hout & Hok).
  destruct (Hok "L"%char (str "ooks fine to me.") [] eq_refl) as (rv & ->).
  exists rv, w'. split; [exact Hrun|]. rewrite Hout. exact Hid.
Defined.

(** A conversation whose answer speaks of a critical vulnerability is
    reported as [info]; the same answer to a piece of code is reported as
    [critical]. *)
Lemma chat_branch_severity_witness :
  (exists rv w',
     processCodeReview (answering (str "This is a critical security vulnerability."))
       createContextService false (str "abc")
       (str "what is a security vulnerability?") None None empty_world = (inr rv, w') /\
     review rv = str "This is a critical security vulnerability." /\
     rv_severity rv = info /\
     extractSeverity (review rv) = critical) /\
  (exists rv w',
     processCodeReview (answering (str "This is a critical security vulnerability."))
       createContextService false (str "abc")
       (str "function f(){ return 1 }") None None empty_world = (inr rv, w') /\
     rv_severity rv = critical).
Proof.
  split.
  - destruct (chat_branch_severity (answering (str "This is a critical security vulnerability."))
                createContextService false (str "abc")
                (str "what is a security vulnerability?") None None empty_world)
      as [Hchat _].
    destruct Hchat as (_ & _ & Hrun); [vm_compute; reflexivity|].
    destruct (Hrun (first_session, str "session-0")
                {| kv := ∅; reads := 2; draws := 1; calls := [] |}
                "T"%char (str "his is a critical security vulnerability.") [])
      as (rv & w' & Hrv & Hreview & Hsev); [reflexivity | reflexivity |].
    exists rv, w'. split; [exact Hrv|]. split; [rewrite Hreview; vm_compute; reflexivity|].
    split; [exact Hsev|]. rewrite Hreview. vm_compute. reflexivity.
  - destruct (chat_branch_severity (answering (str "This is a critical security vulnerability."))
                createContextService false (str "abc")
                (str "function f(){ return 1 }") None None empty_world)
      as [_ Hcode].
    destruct Hcode as (_ & Hrun); [vm_compute; reflexivity|].
    destruct (Hrun (first_session, str "session-0")
                {| kv := ∅; reads := 2; draws := 1; calls := [] |}
                "T"%char (str "his is a critical security vulnerability.") [])
      as (rv & w' & Hrv & Hreview & Hsev); [reflexivity | reflexivity |].
    exists rv, w'. split; [exact Hrv|]. rewrite Hsev, Hreview. vm_compute. reflexivity.
Defined.

End SessionProps.

(** ** The review route *)

Module ChatProps.

Import ChatRoutes SessionProps.
Local Open Scope Z_scope.

Section Props.

Variable E : Env.
Variable contextService : Methods.
Variable kv_bound : bool.
Variable maxCodeLength : option Z.

Lemma trim_empty_length (s : text) :
  (List.length (trim s) =? 0)%nat = true <-> trim s = [].
Proof.
  rewrite Nat.eqb_eq. destruct (trim s); simpl; split; intros H; try reflexivity;
    discriminate.
Qed.

Lemma trim_nil_of_nil : trim [] = [].
Proof. reflexivity. Qed.

(** For every body other than null the route fails with a
    [ValidationError] exactly when the field [code] is rejected, and then
    the world is as before: nothing was read, drawn, stored or sent. *)
Lemma post_review_validation (body : json) (w : World) :
  body <> JNull ->
  ((exists m w', post_review E contextService kv_bound maxCodeLength body w
                 = (inl (ValidationError m), w'))
   <-> code_rejected maxCodeLength body) /\
  (forall m w', post_review E contextService kv_bound maxCodeLength body w
                = (inl (ValidationError m), w') -> w' = w).
Proof.
  intros Hnull.
  assert (Hbody : post_review E contextService kv_bound maxCodeLength body w =
    let session_id := property (str "session_id") body in
    let code := property (str "code") body in
    let language := property (str "language") body in
    let context := property (str "context") body in
    (if negb (truthy code) || negb (is_string code) then
        throw (ValidationError (str "Code is required and must be a string"))
      else
        let code := as_text code in
        if exceeds (Z.of_nat (List.length code)) maxCodeLength then
          throw (ValidationError
                   (str "Code exceeds maximum length of " ++ maximum_string maxCodeLength
                      ++ str " characters"))
        else if (List.length (trim code) =? 0)%nat then
          throw (ValidationError (str "Code cannot be empty"))
        else
          let* sid :=
            (if truthy session_id
             then ret (match session_id with Some v => to_string v | None => [] end)
             else uuid E) in
          let* result :=
            processCodeReview E contextService kv_bound sid code
              (optional language) (optional context) in
          let* t := Effects.now E in
          ret {| session_id := sessionId result;
                 rd_review := review result;
                 rd_severity := rv_severity result;
                 timestamp := toISOString E t |}) w).
  { destruct body; try reflexivity. now contradiction Hnull. }
  rewrite Hbody. clear Hbody. unfold code_rejected. cbv zeta.
  destruct (property (str "code") body) as [[|b|z|s|items|fields]|] eqn:Hcode;
    simpl negb; simpl orb; cbv iota.
  all: try (split; [split; [tauto | intros _; do 2 eexists; reflexivity]
                   | intros m w' [= _ <-]; reflexivity]).
  all: try (rewrite orb_true_r;
            split; [split; [tauto | intros _; do 2 eexists; reflexivity]
                   | intros m w' [= _ <-]; reflexivity]).
  (* the field is a string *)
  destruct s as [|c s].
  { simpl. split; [split; [intros _; now left | intros _; do 2 eexists; reflexivity]
                  | intros m w' [= _ <-]; reflexivity]. }
  simpl negb. simpl orb. cbv iota. unfold as_text.
  destruct (exceeds (Z.of_nat (List.length (c :: s))) maxCodeLength) eqn:Hlong.
  { split; [split; [intros _; now right | intros _; do 2 eexists; reflexivity]
           | intros m w' [= _ <-]; reflexivity]. }
  destruct (List.length (trim (c :: s)) =? 0)%nat eqn:Hempty.
  { apply trim_empty_length in Hempty.
    split; [split; [intros _; now left | intros _; do 2 eexists; reflexivity]
           | intros m w' [= _ <-]; reflexivity]. }
  assert (Hne : trim (c :: s) <> []).
  { intros H. apply trim_empty_length in H. congruence. }
  (* the field is accepted: what fails now is not a validation *)
  assert (Hno : forall m w',
    (let* sid :=
       (if truthy (property (str "session_id") body)
        then ret (match property (str "session_id") body with
                  | Some v => to_string v | None => [] end)
        else uuid E) in
     let* result :=
       processCodeReview E contextService kv_bound sid (c :: s)
         (optional (property (str "language") body))
         (optional (property (str "context") body)) in
     let* t := Effects.now E in
     ret {| session_id := sessionId result;
            rd_review := review result;
            rd_severity := rv_severity result;
            timestamp := toISOString E t |}) w
    <> (inl (ValidationError m), w')).
  { intros m w'. unfold bind.
    destruct (truthy (property (str "session_id") body)); unfold ret, uuid.
    all: match goal with
         | |- context [processCodeReview ?a ?b ?c ?d ?e ?f ?g ?h] =>
             destruct (processCodeReview a b c d e f g h) as [[e0|rv] w1] eqn:Hrun
         end; try discriminate.
    all: apply processCodeReview_errors in Hrun as [m0 ->]; discriminate. }
  split.
  - split.
    + intros (m & w' & H). now apply Hno in H.
    + intros [H | H]; [contradiction | discriminate].
  - intros m w' H. now apply Hno in H.
Qed.

(** C7, at the body null.  The field [code] is missing, which calls for
    a [ValidationError] with status 400; the route fails earlier, while
    taking the body apart, with a [TypeError] that the global handler
    answers with 500.  (Nothing has been touched at that point; for every
    other body see [post_review_validation].) *)
Theorem post_review_null (w : World) :
  code_rejected maxCodeLength JNull /\
  post_review E contextService kv_bound maxCodeLength JNull w =
    (inl (TypeError
            (str "Cannot destructure property 'session_id' of 'body' as it is null.")),
     w) /\
  (forall m w', post_review E contextService kv_bound maxCodeLength JNull w
                <> (inl (ValidationError m), w')) /\
  statusCode (TypeError
     (str "Cannot destructure property 'session_id' of 'body' as it is null.")) = 500.
Proof.
  repeat split. intros m w' H. discriminate.
Qed.

End Props.

End ChatProps.

(** ** Markup of a review *)

Module FormatProps.

Import RegExpProps SanitizeProps.

(** [escapeHtml] goes through the text code unit by code unit. *)
Lemma escapeHtml_flat_map (t : text) : escapeHtml t = flat_map escape_map t.
Proof.
  unfold escapeHtml, replaceAll. generalize (@None ascii).
  induction t as [|c t IH]; intros prev; [reflexivity|].
  cbn [replace_from flat_map]. unfold match_at, html_special.
  rewrite rmatch_Cls. unfold start_state. cbn [rest].
  unfold cls_match. cbn [existsb item_match xorb]. unfold char_eq, escape_map.
  destruct (Ascii.eqb c "&") eqn:E1; [cbn; now rewrite E1, IH|].
  destruct (Ascii.eqb c "<") eqn:E2; [cbn; now rewrite E1, E2, IH|].
  destruct (Ascii.eqb c ">") eqn:E3; [cbn; now rewrite E1, E2, E3, IH|].
  destruct (Ascii.eqb c dquote) eqn:E4; [cbn; now rewrite E1, E2, E3, E4, IH|].
  destruct (Ascii.eqb c "'") eqn:E5; [cbn; now rewrite E1, E2, E3, E4, E5, IH|].
  cbn. now rewrite IH.
Qed.

Ltac by_code_unit c :=
  destruct c as [[] [] [] [] [] [] [] []]; first [reflexivity | discriminate].

(** The signs that matter here are not letters: case plays no part. *)
Lemma char_eq_lt_exact c : char_eq true c "<" = Ascii.eqb c "<".
Proof. by_code_unit c. Qed.

Lemma char_eq_eq_exact c : char_eq true c "=" = Ascii.eqb c "=".
Proof. by_code_unit c. Qed.

Lemma char_eq_quote_exact c : char_eq true c dquote = Ascii.eqb c dquote.
Proof. by_code_unit c. Qed.


Lemma lacks_app a t1 t2 : lacks a (t1 ++ t2) = lacks a t1 && lacks a t2.
Proof. apply forallb_app. Qed.













(** *** Patterns that need a certain code unit first *)

Lemma needs_first_Chr ci a : needs_first ci (Chr a) a.
Proof.
  intros st k H. rewrite rmatch_Chr. destruct (rest st) as [|c s']; [reflexivity|].
  now rewrite H.
Qed.

Lemma needs_first_Seq ci r1 r2 a : needs_first ci r1 a -> needs_first ci (Seq r1 r2) a.
Proof. intros H st k Hst. rewrite rmatch_Seq. now apply H. Qed.

Lemma needs_first_pass ci r f a (t : text) prev :
  needs_first ci r a ->
  forallb (fun c => negb (char_eq ci c a)) t = true ->
  replace_from ci r f prev t 0 = t.
Proof.
  intros Hr Ht. apply replace_from_all_plain.
  - intros prev' u c v ->. apply Hr. cbn [rest start_state].
    rewrite forallb_app in Ht. apply andb_true_iff in Ht as [_ Ht].
    cbn [forallb] in Ht. apply andb_true_iff in Ht as [Hc _].
    now apply negb_true_iff in Hc.
  - intros prev'. now apply Hr.
Qed.

Lemma lacks_exact a t :
  lacks a t = true -> forallb (fun c => negb (char_eq false c a)) t = true.
Proof. intros H. exact H. Qed.

Lemma lacks_lt_ci t :
  lacks "<" t = true -> forallb (fun c => negb (char_eq true c "<")) t = true.
Proof.
  unfold lacks. induction t as [|c t IH]; cbn [forallb]; [reflexivity|].
  intros H. apply andb_true_iff in H as [Hc H].
  now rewrite char_eq_lt_exact, Hc, IH.
Qed.

Lemma fence_first : needs_first false fence_re "`".
Proof. apply needs_first_Seq, needs_first_Seq, needs_first_Chr. Qed.

Lemma inline_first : needs_first false inline_re "`".
Proof. apply needs_first_Seq, needs_first_Chr. Qed.

Lemma bold_first : needs_first false bold_re "*".
Proof. apply needs_first_Seq, needs_first_Seq, needs_first_Chr. Qed.

Lemma italic_first : needs_first false italic_re "*".
Proof. apply needs_first_Seq, needs_first_Chr. Qed.

Lemma tag_first name : needs_first true (tag_block name) "<".
Proof. apply needs_first_Seq, needs_first_Seq, needs_first_Chr. Qed.

(** *** The pattern of the event handlers *)

Lemma eq_then_quote_behind (u : text) : forall s,
  eq_then_quote (u ++ s) = false -> eq_then_quote s = false.
Proof.
  induction u as [|c u IH]; intros s H; [exact H|].
  cbn [app eq_then_quote] in H. apply orb_false_iff in H as [_ H]. now apply IH.
Qed.

Lemma handler_none prev s :
  eq_then_quote s = false -> match_at true handler_re prev s = None.
Proof.
  intros Hs. unfold match_at, handler_re.
  rewrite rmatch_Seq. apply rmatch_none_behind. intros st1 H1.
  rewrite rmatch_Seq. apply rmatch_none_behind. intros st2 H2.
  pose proof (behind_trans _ _ _ H2 H1) as [u Hu]. cbn [rest start_state] in Hu.
  rewrite Hu in Hs. apply eq_then_quote_behind in Hs.
  rewrite rmatch_Seq, rmatch_Chr.
  destruct (rest st2) as [|c s'] eqn:Hst2; [reflexivity|].
  rewrite char_eq_eq_exact. destruct (Ascii.eqb c "=") eqn:Hc; [|reflexivity].
  rewrite rmatch_Seq, rmatch_Chr. cbn [rest advance].
  destruct s' as [|d s'']; [reflexivity|].
  rewrite char_eq_quote_exact.
  cbn [eq_then_quote] in Hs. rewrite Hc in Hs. cbn [andb] in Hs.
  apply orb_false_iff in Hs as [Hd _]. now rewrite Hd.
Qed.

Lemma handler_pass f prev s :
  eq_then_quote s = false -> replace_from true handler_re f prev s 0 = s.
Proof.
  intros Hs. apply replace_from_all_plain.
  - intros prev' u c v ->. apply handler_none. now apply eq_then_quote_behind in Hs.
  - intros prev'. reflexivity.
Qed.

Lemma lacks_quote_pairs s : lacks dquote s = true -> eq_then_quote s = false.
Proof.
  unfold lacks. induction s as [|c s IH]; [reflexivity|].
  cbn [forallb eq_then_quote]. intros H. apply andb_true_iff in H as [_ H].
  rewrite (IH H), orb_false_r. destruct s as [|d s]; [apply andb_false_r|].
  cbn [forallb] in H. apply andb_true_iff in H as [Hd _].
  apply negb_true_iff in Hd. rewrite Hd. apply andb_false_r.
Qed.



(** Trimming a text that neither begins nor ends with white space. *)
Lemma trim_solid c s d :
  is_space c = false -> is_space d = false ->
  trim (c :: s ++ [d]) = c :: s ++ [d].
Proof.
  intros Hc Hd. unfold trim, trimEnd. cbn [trimStart]. rewrite Hc.
  change (c :: s ++ [d]) with ((c :: s) ++ [d]).
  rewrite rev_app_distr. cbn [rev app trimStart]. rewrite Hd.
  change (d :: rev s ++ [c]) with ([d] ++ rev (c :: s)).
  rewrite rev_app_distr, rev_involutive. reflexivity.
Qed.

Lemma trim_wrapped (o' inner cl' : text) :
  trim (("<"%char :: o') ++ inner ++ cl' ++ [">"%char])
  = ("<"%char :: o') ++ inner ++ cl' ++ [">"%char].
Proof.
  replace (("<"%char :: o') ++ inner ++ cl' ++ [">"%char])
    with ("<"%char :: (o' ++ inner ++ cl') ++ [">"%char])
    by (cbn [app]; now rewrite <- !app_assoc).
  apply trim_solid; reflexivity.
Qed.

(** *** The passes of [formatReview] over a fenced block *)



Lemma lacks_lt_includes t q :
  lacks "<" t = true -> includes_ci t ("<"%char :: q) = false.
Proof.
  unfold lacks. induction t as [|c t IH]; [reflexivity|].
  cbn [forallb]. intros H. apply andb_true_iff in H as [Hc H].
  apply negb_true_iff in Hc.
  cbn [includes_ci starts]. now rewrite char_eq_lt_exact, Hc, IH.
Qed.

(** A stretch without "<" holds no opening tag, and none begins in it. *)
Lemma includes_ci_lacks (u : text) : forall v q,
  lacks "<" u = true ->
  includes_ci (u ++ v) ("<"%char :: q) = includes_ci v ("<"%char :: q).
Proof.
  induction u as [|c u IH]; intros v q H; [reflexivity|].
  unfold lacks in H. cbn [forallb] in H. apply andb_true_iff in H as [Hc H].
  apply negb_true_iff in Hc. cbn [app].
  rewrite includes_ci_step; [now apply IH|].
  cbn [starts]. now rewrite char_eq_lt_exact, Hc.
Qed.





(** *** Spans: inline code, bold, italic *)

Lemma needs_prefix_Lit ci p r2 : needs_prefix ci (Seq (Lit p) r2) p.
Proof. intros st k H. now rewrite rmatch_Seq, rmatch_Lit, H. Qed.

Lemma includes_exact_behind (u : text) : forall s p,
  includes_exact (u ++ s) p = false -> includes_exact s p = false.
Proof.
  induction u as [|c u IH]; intros s p H; [exact H|].
  cbn [app includes_exact] in H. apply orb_false_iff in H as [_ H]. now apply IH.
Qed.

Lemma needs_prefix_pass ci r f p (s : text) prev :
  ci = false ->
  needs_prefix ci r p ->
  includes_exact s p = false ->
  replace_from ci r f prev s 0 = s.
Proof.
  intros -> Hr Hs. apply replace_from_all_plain.
  - intros prev' u c v ->. apply Hr. cbn [rest start_state].
    apply includes_exact_behind in Hs. cbn [includes_exact] in Hs.
    now apply orb_false_iff in Hs as [Hs _].
  - intros prev'. apply Hr. cbn [rest start_state].
    rewrite <- (app_nil_r s) in Hs. apply includes_exact_behind in Hs.
    cbn [includes_exact] in Hs. now rewrite orb_false_r in Hs.
Qed.

(** A span between single delimiters holds no doubled or tripled one. *)
Lemma delimited_no_run a (q t : text) :
  lacks a t = true -> t <> [] ->
  includes_exact (a :: t ++ [a]) (a :: a :: q) = false.
Proof.
  intros Ht Hne. destruct t as [|c t]; [contradiction|].
  unfold lacks in Ht. cbn [forallb] in Ht. apply andb_true_iff in Ht as [Hc Ht].
  apply negb_true_iff in Hc.
  cbn [includes_exact starts app]. unfold char_eq at 1 2 3.
  rewrite Hc, andb_false_r. cbn [andb orb].
  clear Hne. induction t as [|d t IH].
  - cbn [app includes_exact starts]. unfold char_eq.
    rewrite Ascii.eqb_refl. reflexivity.
  - cbn [forallb] in Ht. apply andb_true_iff in Ht as [Hd Ht].
    apply negb_true_iff in Hd.
    cbn [app includes_exact starts]. unfold char_eq at 1. rewrite Hd. cbn [andb orb].
    now apply IH.
Qed.

Lemma not_cls a c : Ascii.eqb c a = false -> cls_match false true [IChar a] c = true.
Proof.
  intros H. unfold cls_match. cbn [existsb item_match]. unfold char_eq. now rewrite H.
Qed.

Lemma not_cls_all a t :
  lacks a t = true -> forallb (cls_match false true [IChar a]) t = true.
Proof.
  unfold lacks. induction t as [|c t IH]; cbn [forallb]; [reflexivity|].
  intros H. apply andb_true_iff in H as [Hc H]. apply negb_true_iff in Hc.
  now rewrite not_cls, IH.
Qed.

(** A span pattern: the delimiter, one or more code units other than
    [a] (the first capture), the delimiter again. *)
Lemma span_match a (d : text) prev (t post : text) :
  match d with c :: _ => c = a | [] => False end ->
  t <> [] -> lacks a t = true ->
  exists st,
    match_at false
      (Seq (Lit d) (Seq (Group 1 (Plus (Cls true [IChar a]))) (Lit d)))
      prev (d ++ t ++ d ++ post) = Some st /\
    idx st = List.length (d ++ t ++ d) /\
    get_cap 1 (caps st) = Some t.
Proof.
  intros Hd Hne Ht. destruct t as [|c t]; [contradiction|]. clear Hne.
  pose proof Ht as Hall.
  unfold lacks in Ht. cbn [forallb] in Ht. apply andb_true_iff in Ht as [Hc Ht].
  apply negb_true_iff in Hc.
  unfold match_at.
  set (st0 := start_state prev (d ++ (c :: t) ++ d ++ post)).
  assert (Hst0 : rest st0 = d ++ (c :: t) ++ d ++ post) by reflexivity.
  destruct (advance_by_rest d _ st0 Hst0) as (Hr1 & Hi1 & Hc1 & _).
  set (st1 := advance_by (List.length d) st0) in *.
  set (sta := advance c (t ++ d ++ post) st1).
  assert (Hsta : rest sta = t ++ d ++ post) by reflexivity.
  destruct (advance_by_rest t _ sta Hsta) as (Hrb & Hib & Hcb & _).
  set (stb := advance_by (List.length t) sta) in *.
  set (stc := set_cap 1 (c :: t) stb).
  assert (Hstc : rest stc = d ++ post) by (subst stc; simpl; exact Hrb).
  destruct (advance_by_rest d post stc Hstc) as (_ & Hid & Hcd & _).
  exists (advance_by (List.length d) stc). split; [|split].
  - rewrite rmatch_Seq, rmatch_Lit, Hst0, starts_self. fold st1.
    rewrite rmatch_Seq, rmatch_Group. unfold Plus.
    rewrite rmatch_Seq, rmatch_Cls, Hr1. cbn [app]. rewrite (not_cls a c Hc).
    fold sta. rewrite rmatch_Star.
    apply (star_class_greedy false true [IChar a] _ t (d ++ post)); trivial.
    + now apply not_cls_all.
    + rewrite Hsta, length_app. lia.
    + destruct d as [|c0 d]; [contradiction|]. subst c0. cbn [app].
      unfold cls_match. cbn [existsb item_match]. unfold char_eq.
      now rewrite Ascii.eqb_refl.
    + fold stb. rewrite Hib. subst sta. cbn [idx advance].
      replace (S (idx st1) + List.length t - idx st1)%nat with (S (List.length t)) by lia.
      cbn [firstn]. rewrite firstn_app, firstn_all, Nat.sub_diag.
      cbn [firstn]. rewrite app_nil_r. fold stc.
      now rewrite rmatch_Lit, Hstc, starts_self.
  - rewrite Hid. subst stc. cbn [idx set_cap]. rewrite Hib. subst sta.
    cbn [idx advance]. rewrite Hi1. subst st0. cbn [idx start_state].
    repeat (rewrite length_app || cbn [List.length app]). lia.
  - rewrite Hcd. subst stc. reflexivity.
Qed.

(** The pass of a span pattern over a span. *)
Lemma span_pass a (d : text) r open close (t : text) :
  (forall st k,
     rmatch false r st k =
     rmatch false (Seq (Lit d) (Seq (Group 1 (Plus (Cls true [IChar a]))) (Lit d))) st k) ->
  needs_first false r a ->
  match d with c :: _ => c = a | [] => False end ->
  t <> [] -> lacks a t = true ->
  replaceAll false r (wrap1 open close) (d ++ t ++ d) = str open ++ t ++ str close.
Proof.
  intros Hr Hfirst Hd Hne Ht. unfold replaceAll.
  destruct (span_match a d None t [] Hd Hne Ht) as (st & Hm & Hidx & Hcap).
  rewrite app_nil_r in Hm.
  rewrite <- (app_nil_r (d ++ t ++ d)).
  rewrite (replace_from_match false r _ None _ [] st).
  - cbn [replace_from]. unfold match_at. rewrite Hfirst by exact I.
    unfold wrap1, cap_or_empty. now rewrite Hcap, !app_nil_r.
  - unfold match_at. rewrite Hr, app_nil_r. exact Hm.
  - exact Hidx.
  - destruct d; [contradiction | discriminate].
Qed.

Lemma tag_pass_span name f prev o cl (inner : text) :
  In (o, cl) span_tags ->
  name = "script"%string \/ name = "iframe"%string ->
  lacks "<" inner = true ->
  replace_from true (tag_block name) (constant f) prev (o ++ inner ++ cl) 0
  = o ++ inner ++ cl.
Proof.
  intros Htags Hname Hin.
  assert (Hstretch : forall prev',
    replace_from true (tag_block name) (constant f) prev' (inner ++ cl) 0
    = inner ++ cl).
  { intros prev'.
    destruct (replace_stretch name f prev' inner cl) as (prev1 & ->).
    - apply lacks_lt_includes, Hin.
    - cbn in Htags.
      destruct Htags as [[= <- <-]|[[= <- <-]|[[= <- <-]|[]]]];
        (apply (tail_safe_lt _ "<"%char); [reflexivity|]);
        destruct Hname as [-> | ->]; reflexivity.
    - f_equal. cbn in Htags.
      destruct Htags as [[= <- <-]|[[= <- <-]|[[= <- <-]|[]]]];
        cbn [str list_ascii_of_string];
        destruct Hname as [-> | ->];
        repeat (rewrite replace_from_nomatch by (apply tag_none; reflexivity));
        reflexivity. }
  cbn in Htags.
  destruct Htags as [[= <- <-]|[[= <- <-]|[[= <- <-]|[]]]];
    cbn [str list_ascii_of_string app];
    destruct Hname as [-> | ->];
    repeat (rewrite replace_from_nomatch by (apply tag_none; reflexivity));
    now rewrite Hstretch.
Qed.

Lemma trim_span o cl (inner : text) :
  In (o, cl) span_tags -> trim (o ++ inner ++ cl) = o ++ inner ++ cl.
Proof.
  intros Htags. cbn in Htags.
  destruct Htags as [[= <- <-]|[[= <- <-]|[[= <- <-]|[]]]].
  - exact (trim_wrapped (str "code>") inner (str "</code")).
  - exact (trim_wrapped (str "strong>") inner (str "</strong")).
  - exact (trim_wrapped (str "em>") inner (str "</em")).
Qed.

Lemma sanitizeResponse_span o cl (inner : text) :
  In (o, cl) span_tags ->
  lacks "<" inner = true -> lacks dquote inner = true ->
  sanitizeResponse (o ++ inner ++ cl) = o ++ inner ++ cl.
Proof.
  intros Htags Hlt Hq. unfold sanitizeResponse, replaceAll, script_re, iframe_re.
  rewrite (tag_pass_span "script") by auto.
  rewrite (tag_pass_span "iframe") by auto.
  rewrite handler_pass.
  - now apply trim_span.
  - apply lacks_quote_pairs. rewrite !lacks_app, Hq.
    cbn in Htags.
    destruct Htags as [[= <- <-]|[[= <- <-]|[[= <- <-]|[]]]]; reflexivity.
Qed.

Lemma lacks_span a o cl (inner : text) :
  In (o, cl) span_tags ->
  lacks a (str "<code></code><strong></strong><em></em>") = true ->
  lacks a inner = true ->
  lacks a (o ++ inner ++ cl) = true.
Proof.
  intros Htags Hfix Hin. rewrite !lacks_app, Hin.
  cbn [str list_ascii_of_string] in Hfix. unfold lacks in Hfix. cbn [forallb] in Hfix.
  repeat (apply andb_true_iff in Hfix as [?H Hfix]).
  cbn in Htags.
  destruct Htags as [[= <- <-]|[[= <- <-]|[[= <- <-]|[]]]];
    unfold lacks; cbn [str list_ascii_of_string forallb];
    repeat (apply andb_true_iff; split); trivial.
Qed.

(** Inline code, bold and italic spans are wrapped as they are. *)
Lemma formatReview_spans (t : text) :
  t <> [] ->
  lacks "`" t = true -> lacks "*" t = true ->
  lacks "<" t = true -> lacks dquote t = true ->
  formatReview (str "`" ++ t ++ str "`") = str "<code>" ++ t ++ str "</code>" /\
  formatReview (str "**" ++ t ++ str "**") = str "<strong>" ++ t ++ str "</strong>" /\
  formatReview (str "*" ++ t ++ str "*") = str "<em>" ++ t ++ str "</em>".
Proof.
  intros Hne Htick Hstar Hlt Hq.
  assert (Htags : forall o cl, In (o, cl) span_tags ->
            sanitizeResponse (o ++ t ++ cl) = o ++ t ++ cl)
    by (intros o cl H; now apply sanitizeResponse_span).
  split; [|split]; unfold formatReview.
  - (* inline code *)
    unfold replaceAll at 4.
    rewrite (needs_prefix_pass false fence_re _ (str "```")); trivial.
    2:{ apply needs_prefix_Lit. }
    2:{ now apply (delimited_no_run "`" (str "`")). }
    rewrite (span_pass "`" (str "`") inline_re "<code>" "</code>" t
               (fun _ _ => eq_refl) inline_first eq_refl Hne Htick).
    unfold replaceAll.
    rewrite (needs_first_pass false bold_re _ "*" _ _ bold_first).
    2:{ apply lacks_exact, (lacks_span "*" (str "<code>") (str "</code>")); cbn; auto. }
    rewrite (needs_first_pass false italic_re _ "*" _ _ italic_first).
    2:{ apply lacks_exact, (lacks_span "*" (str "<code>") (str "</code>")); cbn; auto. }
    apply Htags. cbn. auto.
  - (* bold *)
    unfold replaceAll at 4.
    rewrite (needs_first_pass false fence_re _ "`" _ _ fence_first).
    2:{ apply lacks_exact. rewrite !lacks_app, Htick. reflexivity. }
    unfold replaceAll at 3.
    rewrite (needs_first_pass false inline_re _ "`" _ _ inline_first).
    2:{ apply lacks_exact. rewrite !lacks_app, Htick. reflexivity. }
    rewrite (span_pass "*" (str "**") bold_re "<strong>" "</strong>" t
               (fun _ _ => eq_refl) bold_first eq_refl Hne Hstar).
    unfold replaceAll.
    rewrite (needs_first_pass false italic_re _ "*" _ _ italic_first).
    2:{ apply lacks_exact, (lacks_span "*" (str "<strong>") (str "</strong>")); cbn; auto. }
    apply Htags. cbn. auto.
  - (* italic *)
    unfold replaceAll at 4.
    rewrite (needs_first_pass false fence_re _ "`" _ _ fence_first).
    2:{ apply lacks_exact. rewrite !lacks_app, Htick. reflexivity. }
    unfold replaceAll at 3.
    rewrite (needs_first_pass false inline_re _ "`" _ _ inline_first).
    2:{ apply lacks_exact. rewrite !lacks_app, Htick. reflexivity. }
    unfold replaceAll at 2.
    rewrite (needs_prefix_pass false bold_re _ (str "**")); trivial.
    2:{ apply needs_prefix_Lit. }
    2:{ now apply (delimited_no_run "*" []). }
    rewrite (span_pass "*" (str "*") italic_re "<em>" "</em>" t
               (fun _ _ => eq_refl) italic_first eq_refl Hne Hstar).
    apply Htags. cbn. auto.
Qed.


Lemma formatReview_plain t :
  lacks "`" t = true -> lacks "*" t = true ->
  lacks "<" t = true -> lacks dquote t = true ->
  formatReview t = trim t.
Proof.
  intros Htick Hstar Hlt Hq. unfold formatReview, sanitizeResponse, replaceAll.
  rewrite (needs_first_pass false fence_re _ "`" _ _ fence_first)
    by now apply lacks_exact.
  rewrite (needs_first_pass false inline_re _ "`" _ _ inline_first)
    by now apply lacks_exact.
  rewrite (needs_first_pass false bold_re _ "*" _ _ bold_first)
    by now apply lacks_exact.
  rewrite (needs_first_pass false italic_re _ "*" _ _ italic_first)
    by now apply lacks_exact.
  unfold script_re, iframe_re.
  rewrite (needs_first_pass true _ _ "<" _ _ (tag_first "script"))
    by now apply lacks_lt_ci.
  rewrite (needs_first_pass true _ _ "<" _ _ (tag_first "iframe"))
    by now apply lacks_lt_ci.
  rewrite handler_pass by now apply lacks_quote_pairs.
  reflexivity.
Qed.

(** *** Text that [sanitizeResponse] has nothing to remove from *)









(** *** Fenced blocks with text around them *)











(** *** The handler pattern before a "<" *)









(** Not every fence is taken for one: a language tag with a sign in it
    is not. *)
Example formatReview_fence_with_sign :
  formatReview (fenced (str "c++") (str "a<b")) = str "``<code>c++" ++ nl :: str "a<b</code>``".
Proof. vm_compute. reflexivity. Qed.



End FormatProps.

(** ** The limiter in use *)

Module LimiterProps.

Import RateLimiter RateLimiterProps.
Local Open Scope Z_scope.

Lemma window_results_nth (n : nat) : forall limit r c k,
  (k < n)%nat ->
  nth_error (window_results limit r c n) k =
    Some {| allowed := c + Z.of_nat k + 1 <=? limit;
            remaining := Some (Z.max 0 (limit - (c + Z.of_nat k + 1)));
            res_resetAt := Some r |}.
Proof.
  induction n as [|n IH]; intros limit r c k Hk; [lia|].
  destruct k as [|k]; cbn [window_results nth_error].
  - now rewrite Z.add_0_r.
  - rewrite IH by lia. do 2 f_equal; [f_equal; lia | do 3 f_equal; lia].
Qed.

Lemma window_results_length (n : nat) : forall limit r c,
  List.length (window_results limit r c n) = n.
Proof. induction n as [|n IH]; intros; simpl; [reflexivity | now rewrite IH]. Qed.

(** The answers of a window that a check opens, one by one. *)
Lemma check_all_window rl now identifier times :
  identifier ∉ inherited ->
  stale now (store rl !! identifier) = true ->
  Forall (fun t => t <= now + windowMs rl) times ->
  snd (check_all (now :: times) identifier rl) =
    {| allowed := true; remaining := Some (limit rl - 1);
       res_resetAt := Some (now + windowMs rl) |}
    :: window_results (limit rl) (now + windowMs rl) 1 (List.length times).
Proof.
  intros Hown Hstale Hall. cbn [check_all].
  destruct (check_fresh rl now identifier Hown Hstale) as (own & ->).
  set (e1 := {| count := 1; resetAt := now + windowMs rl |}).
  set (rl1 := put identifier own e1 rl).
  pose proof (check_all_within times rl1 identifier e1 Hown) as Hrun.
  destruct (check_all times identifier rl1) as [rl2 rs].
  simpl in Hrun. destruct Hrun as (Hrs & _); [apply lookup_insert_eq | exact Hall |].
  simpl. now rewrite Hrs.
Qed.

(** X1. Under a name that is not inherited from Object.prototype, and
    with a limit, a window, times and a number of requests within the
    safe integers: in the window that a check opens (no entry, or the
    entry has expired), the first request is allowed whatever the limit
    is, and the k-th one after it, as long as it comes before the reset
    time, is allowed exactly when k is within the limit; the reset time
    stays where the first request put it. *)
Theorem window_quota (rl : t) (now : Z) (identifier : text) (times : list Z) :
  is_inherited identifier = false ->
  safe_at rl now = true ->
  safe (Z.of_nat (List.length times) + 1) = true ->
  stale now (store rl !! identifier) = true ->
  Forall (fun t => t <= now + windowMs rl) times ->
  let results := snd (check_all (now :: times) identifier rl) in
  List.length results = S (List.length times) /\
  forall k r,
    nth_error results k = Some r ->
    allowed r = ((k =? 0)%nat || (Z.of_nat k + 1 <=? limit rl)) /\
    remaining r =
      Some (if (k =? 0)%nat then limit rl - 1
            else Z.max 0 (limit rl - (Z.of_nat k + 1))) /\
    res_resetAt r = Some (now + windowMs rl).
Proof.
  intros Hown _ _ Hstale Hall results. subst results. apply own_name in Hown.
  rewrite check_all_window by assumption. split.
  - cbn [List.length]. now rewrite window_results_length.
  - intros k r Hk. destruct k as [|k]; cbn [nth_error] in Hk.
    + injection Hk as <-. repeat split.
    + assert (Hlt : (k < List.length
                           (window_results (limit rl) (now + windowMs rl) 1
                              (List.length times)))%nat)
        by (apply nth_error_Some; congruence).
      rewrite window_results_length in Hlt.
      rewrite window_results_nth in Hk by exact Hlt. injection Hk as <-.
      cbn [allowed remaining res_resetAt Nat.eqb orb].
      repeat split; do 2 f_equal; lia.
Qed.

Lemma window_quota_witness :
  let rl := new 0 60 in
  let results := snd (check_all [1000; 2000; 3000] (str "10.0.0.7") rl) in
  List.length results = 3%nat /\
  forall k r,
    nth_error results k = Some r ->
    allowed r = ((k =? 0)%nat || (Z.of_nat k + 1 <=? 0)) /\
    remaining r =
      Some (if (k =? 0)%nat then 0 - 1 else Z.max 0 (0 - (Z.of_nat k + 1))) /\
    res_resetAt r = Some 61000.
Proof.
  intros rl results.
  apply (window_quota rl 1000 (str "10.0.0.7") [2000; 3000]).
  - reflexivity.
  - reflexivity.
  - reflexivity.
  - reflexivity.
  - repeat constructor; simpl; lia.
Defined.

Lemma cleanup_lookup rl tc identifier :
  store (cleanup tc rl) !! identifier =
    match store rl !! identifier with
    | Some e => if resetAt e <? tc then None else Some e
    | None => None
    end.
Proof.
  unfold cleanup. cbn [store].
  destruct (store rl !! identifier) as [e|] eqn:He.
  - destruct (resetAt e <? tc) eqn:Hlt.
    + apply map_lookup_filter_None. right. intros e' He'. simpl.
      rewrite He in He'. injection He' as <-. congruence.
    + apply map_lookup_filter_Some. split; [exact He | exact Hlt].
  - apply map_lookup_filter_None. now left.
Qed.

(** X2. The periodic cleanup cannot be seen through [check]: when the
    clock does not run backwards, a check after a cleanup answers what it
    would have answered without the cleanup, and leaves the same entry
    for the identifier; an entry that has not expired is kept as it
    is. *)
Theorem cleanup_unobservable (rl : t) (tc now : Z) (identifier : text) :
  tc <= now ->
  snd (check now identifier (cleanup tc rl)) = snd (check now identifier rl) /\
  store (fst (check now identifier (cleanup tc rl))) !! identifier
    = store (fst (check now identifier rl)) !! identifier /\
  (forall e, store rl !! identifier = Some e -> tc <= resetAt e ->
     store (cleanup tc rl) !! identifier = Some e).
Proof.
  intros Hle. split; [|split].
  - unfold check. destruct (decide (identifier ∈ inherited)) as [Hin|own];
      [reflexivity|].
    rewrite cleanup_lookup.
    destruct (store rl !! identifier) as [e|] eqn:He; [|reflexivity].
    destruct (Z.ltb_spec (resetAt e) tc) as [Hlt|Hge].
    + cbn [stale]. destruct (Z.gtb_spec now (resetAt e)); [reflexivity | lia].
    + destruct (stale now (Some e)); reflexivity.
  - unfold check. destruct (decide (identifier ∈ inherited)) as [Hin|own].
    { cbn [fst]. now rewrite !inherited_no_entry. }
    rewrite cleanup_lookup.
    destruct (store rl !! identifier) as [e|] eqn:He.
    + destruct (Z.ltb_spec (resetAt e) tc) as [Hlt|Hge].
      * cbn [stale]. destruct (Z.gtb_spec now (resetAt e)); [|lia].
        cbn [fst store put limit windowMs cleanup].
        now rewrite !lookup_insert_eq.
      * cbn [stale]. destruct (now >? resetAt e);
          cbn [fst store put limit windowMs cleanup]; now rewrite !lookup_insert_eq.
    + cbn [stale fst store put]. now rewrite !lookup_insert_eq.
  - intros e He Hge. rewrite cleanup_lookup, He.
    destruct (Z.ltb_spec (resetAt e) tc); [lia | reflexivity].
Qed.

Lemma cleanup_unobservable_witness :
  let rl := fst (check 1000 (str "10.0.0.7") (new 5 60)) in
  snd (check 70000 (str "10.0.0.7") (cleanup 65000 rl))
    = snd (check 70000 (str "10.0.0.7") rl) /\
  store (fst (check 70000 (str "10.0.0.7") (cleanup 65000 rl))) !! str "10.0.0.7"
    = store (fst (check 70000 (str "10.0.0.7") rl)) !! str "10.0.0.7" /\
  (forall e, store rl !! str "10.0.0.7" = Some e -> 65000 <= resetAt e ->
     store (cleanup 65000 rl) !! str "10.0.0.7" = Some e).
Proof.
  intros rl. apply (cleanup_unobservable rl 65000 70000 (str "10.0.0.7")). lia.
Defined.

(** A check writes the entry of its identifier and nothing else. *)
Lemma check_frame rl now identifier other :
  other <> identifier ->
  store (fst (check now identifier rl)) !! other = store rl !! other /\
  limit (fst (check now identifier rl)) = limit rl /\
  windowMs (fst (check now identifier rl)) = windowMs rl.
Proof.
  intros Hne. unfold check.
  destruct (decide (identifier ∈ inherited)) as [Hin|own]; [now repeat split|].
  destruct (stale now (store rl !! identifier)); [|destruct (store rl !! identifier)];
    cbn [fst store put limit windowMs];
    (split; [now apply lookup_insert_ne | split; reflexivity]).
Qed.

Lemma check_depends rl rl' now identifier :
  store rl' !! identifier = store rl !! identifier ->
  limit rl' = limit rl -> windowMs rl' = windowMs rl ->
  snd (check now identifier rl') = snd (check now identifier rl).
Proof.
  intros Hs Hl Hw. unfold check.
  destruct (decide (identifier ∈ inherited)) as [Hin|own]; [reflexivity|].
  rewrite Hs, Hl, Hw.
  destruct (stale now (store rl !! identifier)); [|destruct (store rl !! identifier)];
    reflexivity.
Qed.

(** X3. Identifiers are counted apart: a check or a reset of one
    identifier changes neither the entry of another identifier nor the
    answer that a later check of the other one gets. *)
Theorem identifiers_independent (rl : t) (now later : Z) (identifier other : text) :
  other <> identifier ->
  store (fst (check now identifier rl)) !! other = store rl !! other /\
  snd (check later other (fst (check now identifier rl))) = snd (check later other rl) /\
  store (reset identifier rl) !! other = store rl !! other /\
  snd (check later other (reset identifier rl)) = snd (check later other rl).
Proof.
  intros Hne. destruct (check_frame rl now identifier other Hne) as (Hs & Hl & Hw).
  assert (Hr : store (reset identifier rl) !! other = store rl !! other).
  { unfold reset. cbn [store]. now apply lookup_delete_ne. }
  repeat split; trivial.
  - now apply check_depends.
  - now apply check_depends.
Qed.

Lemma identifiers_independent_witness :
  let rl := fst (check 1000 (str "10.0.0.7") (new 1 60)) in
  store (fst (check 2000 (str "10.0.0.7") rl)) !! str "10.0.0.8" = store rl !! str "10.0.0.8" /\
  snd (check 3000 (str "10.0.0.8") (fst (check 2000 (str "10.0.0.7") rl)))
    = snd (check 3000 (str "10.0.0.8") rl) /\
  store (reset (str "10.0.0.7") rl) !! str "10.0.0.8" = store rl !! str "10.0.0.8" /\
  snd (check 3000 (str "10.0.0.8") (reset (str "10.0.0.7") rl))
    = snd (check 3000 (str "10.0.0.8") rl).
Proof.
  intros rl. apply (identifiers_independent rl 2000 3000 (str "10.0.0.7") (str "10.0.0.8")).
  discriminate.
Defined.

(** X4. Under a name that is not inherited from Object.prototype,
    [reset] makes the identifier start over: whatever its entry was, the
    next check opens a new window and answers as for a first request
    (with the limit, the window and the time within the safe integers).
    Under an inherited name [reset] removes nothing, and the next check is
    refused as every check under that name is. *)
Theorem reset_starts_over (rl : t) (now : Z) (identifier : text) :
  (is_inherited identifier = false ->
   safe_at rl now = true ->
   store (reset identifier rl) !! identifier = None /\
   snd (check now identifier (reset identifier rl)) =
     {| allowed := true; remaining := Some (limit rl - 1);
        res_resetAt := Some (now + windowMs rl) |} /\
   store (fst (check now identifier (reset identifier rl))) !! identifier =
     Some {| count := 1; resetAt := now + windowMs rl |}) /\
  (is_inherited identifier = true ->
   store (reset identifier rl) = store rl /\
   check now identifier (reset identifier rl) =
     (reset identifier rl,
      {| allowed := false; remaining := None; res_resetAt := None |})).
Proof.
  split.
  - intros Hown _. apply own_name in Hown.
    assert (H : store (reset identifier rl) !! identifier = None).
    { unfold reset. cbn [store]. apply lookup_delete_eq. }
    split; [exact H|].
    destruct (check_fresh (reset identifier rl) now identifier Hown) as (own & ->).
    { now rewrite H. }
    cbn [snd fst store put]. split; [reflexivity | apply lookup_insert_eq].
  - intros Hin. apply bool_decide_eq_true in Hin. split.
    + unfold reset. cbn [store]. apply delete_id. now apply inherited_no_entry.
    + now apply check_inherited.
Qed.

Lemma reset_starts_over_witness :
  let rl := fst (check 1000 (str "10.0.0.7") (new 1 60)) in
  (store (reset (str "10.0.0.7") rl) !! str "10.0.0.7" = None /\
   snd (check 2000 (str "10.0.0.7") (reset (str "10.0.0.7") rl)) =
     {| allowed := true; remaining := Some (limit rl - 1);
        res_resetAt := Some (2000 + windowMs rl) |} /\
   store (fst (check 2000 (str "10.0.0.7") (reset (str "10.0.0.7") rl))) !! str "10.0.0.7" =
     Some {| count := 1; resetAt := 2000 + windowMs rl |}) /\
  check 2000 (str "toString") (reset (str "toString") (new 1 60)) =
    (reset (str "toString") (new 1 60),
     {| allowed := false; remaining := None; res_resetAt := None |}).
Proof.
  intros rl. split.
  - apply (proj1 (reset_starts_over rl 2000 (str "10.0.0.7"))); reflexivity.
  - apply (proj2 (reset_starts_over (new 1 60) 2000 (str "toString"))). reflexivity.
Defined.

End LimiterProps.

(** ** Splitting, trimming and reading numbers *)

Module BuiltinsProps.

Local Open Scope Z_scope.

Lemma split_lacks sep (a : text) : lacks sep a = true -> split sep a = [a].
Proof.
  induction a as [|c a IH]; intros H; [reflexivity|].
  cbn [lacks forallb] in H. apply andb_true_iff in H as [Hc H].
  apply negb_true_iff in Hc. cbn [split]. rewrite Hc.
  now rewrite (IH H).
Qed.

Lemma split_app sep (a s : text) :
  lacks sep a = true -> split sep (a ++ sep :: s) = a :: split sep s.
Proof.
  induction a as [|c a IH]; intros H.
  - cbn [app split]. now rewrite Ascii.eqb_refl.
  - cbn [lacks forallb] in H. apply andb_true_iff in H as [Hc H].
    apply negb_true_iff in Hc. cbn [app split]. rewrite Hc.
    now rewrite (IH H).
Qed.

(** The first piece reaches up to the first separator. *)
Lemma split_first sep (s : text) :
  exists a pieces,
    split sep s = a :: pieces /\ lacks sep a = true /\
    ((pieces = [] /\ s = a) \/
     (exists s', s = a ++ sep :: s' /\ pieces = split sep s')).
Proof.
  induction s as [|c s (a & pieces & Hs & Ha & Hcase)].
  - exists [], []. repeat split. now left.
  - cbn [split]. destruct (Ascii.eqb c sep) eqn:Hc.
    + apply Ascii.eqb_eq in Hc as ->.
      exists [], (split sep s). repeat split. right. now exists s.
    + rewrite Hs. exists (c :: a), pieces. split; [reflexivity|]. split.
      * change (lacks sep (c :: a)) with (negb (Ascii.eqb c sep) && lacks sep a).
        now rewrite Hc, Ha.
      * destruct Hcase as [[-> ->] | (s' & -> & ->)]; [now left|].
        right. now exists s'.
Qed.

Lemma split_join sep (pieces : list text) :
  pieces <> [] ->
  Forall (fun p => lacks sep p = true) pieces ->
  split sep (ChatRoutes.join [sep] pieces) = pieces.
Proof.
  induction pieces as [|p pieces IH]; intros Hne Hall; [contradiction|].
  inversion Hall as [|? ? Hp Hrest]; subst.
  destruct pieces as [|q pieces].
  - cbn [ChatRoutes.join]. now apply split_lacks.
  - change (ChatRoutes.join [sep] (p :: q :: pieces))
      with (p ++ sep :: ChatRoutes.join [sep] (q :: pieces)).
    rewrite split_app by exact Hp. f_equal. apply IH; [discriminate | exact Hrest].
Qed.

(** *** Trimming *)

Lemma trimStart_split (s : text) :
  exists sp, s = sp ++ trimStart s /\ forallb is_space sp = true.
Proof.
  induction s as [|c s (sp & Hs & Hsp)].
  - now exists [].
  - cbn [trimStart]. destruct (is_space c) eqn:Hc.
    + exists (c :: sp). split; [simpl; now rewrite <- Hs | simpl; now rewrite Hc].
    + now exists [].
Qed.

Lemma trimStart_head (s : text) :
  match trimStart s with [] => True | c :: _ => is_space c = false end.
Proof.
  induction s as [|c s IH]; [exact I|].
  cbn [trimStart]. destruct (is_space c) eqn:Hc; [exact IH | exact Hc].
Qed.

Lemma trimStart_fix (s : text) :
  match s with [] => True | c :: _ => is_space c = false end -> trimStart s = s.
Proof. destruct s as [|c s]; [reflexivity|]. cbn [trimStart]. now intros ->. Qed.

Lemma trimStart_spaces (sp s : text) :
  forallb is_space sp = true -> trimStart (sp ++ s) = trimStart s.
Proof.
  induction sp as [|c sp IH]; intros H; [reflexivity|].
  cbn [forallb] in H. apply andb_true_iff in H as [Hc H].
  cbn [app trimStart]. rewrite Hc. now apply IH.
Qed.

(** What is left of a text that does not begin with white space, once
    the white space at its end is taken away, does not begin with white
    space either. *)
Lemma trimEnd_head (s : text) :
  match s with [] => True | c :: _ => is_space c = false end ->
  match trimEnd s with [] => True | c :: _ => is_space c = false end.
Proof.
  intros Hs. unfold trimEnd.
  destruct (trimStart_split (rev s)) as (sp & Hrev & Hsp).
  apply (f_equal (@rev ascii)) in Hrev. rewrite rev_involutive, rev_app_distr in Hrev.
  destruct (rev (trimStart (rev s))) as [|c t]; [exact I|].
  rewrite Hrev in Hs. exact Hs.
Qed.

Lemma trimEnd_last (s : text) :
  match rev (trimEnd s) with [] => True | c :: _ => is_space c = false end.
Proof. unfold trimEnd. rewrite rev_involutive. apply trimStart_head. Qed.

Lemma trim_idempotent (s : text) : trim (trim s) = trim s.
Proof.
  unfold trim at 1.
  rewrite (trimStart_fix (trim s)) by (apply trimEnd_head, trimStart_head).
  unfold trimEnd at 1.
  rewrite (trimStart_fix (rev (trim s))) by apply trimEnd_last.
  apply rev_involutive.
Qed.

Lemma forallb_reversed {A} (f : A -> bool) (l : list A) :
  forallb f (rev l) = forallb f l.
Proof.
  induction l as [|a l IH]; [reflexivity|].
  cbn [rev forallb]. rewrite forallb_app, IH. cbn [forallb].
  rewrite andb_true_r. apply andb_comm.
Qed.

Lemma trimEnd_spaces (s sp : text) :
  forallb is_space sp = true -> trimEnd (s ++ sp) = trimEnd s.
Proof.
  intros H. unfold trimEnd. rewrite rev_app_distr, trimStart_spaces; [reflexivity|].
  now rewrite forallb_reversed.
Qed.

(** White space around a text does not change what is left when it is
    trimmed. *)
Lemma trim_padded (pre s post : text) :
  forallb is_space pre = true -> forallb is_space post = true ->
  trim (pre ++ s ++ post) = trim s.
Proof.
  intros Hpre Hpost. unfold trim. rewrite trimStart_spaces by exact Hpre.
  destruct (trimStart_split s) as (sp & Hs & Hsp).
  destruct (trimStart s) as [|c t] eqn:Ht.
  - rewrite app_nil_r in Hs. subst sp.
    rewrite trimStart_spaces by exact Hsp.
    destruct (trimStart_split post) as (sq & Hq & Hsq).
    assert (Hall : forallb is_space (trimStart post) = true).
    { rewrite Hq, forallb_app in Hpost. now apply andb_true_iff in Hpost as [_ ?]. }
    pose proof (trimStart_head post) as Hh.
    destruct (trimStart post) as [|d u]; [reflexivity|].
    cbn [forallb] in Hall. apply andb_true_iff in Hall as [Hd _]. congruence.
  - rewrite Hs at 1. rewrite <- app_assoc, trimStart_spaces by exact Hsp.
    pose proof (trimStart_head s) as Hh. rewrite Ht in Hh.
    rewrite (trimStart_fix ((c :: t) ++ post)) by exact Hh.
    now apply trimEnd_spaces.
Qed.

End BuiltinsProps.

(** ** The configuration and the middleware *)

Module MiddlewareProps.

Import RateLimiter RateLimiterProps LimiterProps BuiltinsProps.
Local Open Scope Z_scope.

Lemma nan_or_below_false n bound :
  nan_or_below n bound = false <-> exists z, n = Some z /\ bound <= z.
Proof.
  destruct n as [z|]; simpl.
  - rewrite Z.ltb_ge. split; [intros H; now exists z | intros (z' & [= <-] & H); exact H].
  - split; [discriminate | intros (z & H & _); discriminate].
Qed.

(** What a configuration that [validateConfig] lets through is like. *)
Lemma validateConfig_inv (config : EnvConfig) :
  validateConfig config = inr tt ->
  (10 <= List.length (GROQ_API_KEY config))%nat /\
  (exists n, parseInt (RATE_LIMIT_REQUESTS config) = Some n /\ 1 <= n) /\
  (exists n, parseInt (RATE_LIMIT_WINDOW config) = Some n /\ 1 <= n) /\
  (exists n, parseInt (MAX_CODE_LENGTH config) = Some n /\ 100 <= n).
Proof.
  unfold validateConfig, errors_of.
  destruct (match GROQ_API_KEY config with [] => true | _ => false end
            || (List.length (GROQ_API_KEY config) <? 10)%nat) eqn:Hk;
    [discriminate|].
  destruct (nan_or_below (parseInt (RATE_LIMIT_REQUESTS config)) 1) eqn:Hr;
    [discriminate|].
  destruct (nan_or_below (parseInt (RATE_LIMIT_WINDOW config)) 1) eqn:Hw;
    [discriminate|].
  destruct (nan_or_below (parseInt (MAX_CODE_LENGTH config)) 100) eqn:Hm;
    [discriminate|].
  intros _. apply orb_false_iff in Hk as [_ Hk]. apply Nat.ltb_ge in Hk.
  repeat split; trivial; now apply nan_or_below_false.
Qed.

(** X5. [validateConfig] lets a configuration through exactly when the
    key has at least ten code units and the three settings are read by
    [parseInt] as numbers of at least 1, 1 and 100; otherwise it throws
    the one [ValidationError], however many of the checks fail. *)
Theorem validateConfig_accepts (config : EnvConfig) :
  (validateConfig config = inr tt <->
   (10 <= List.length (GROQ_API_KEY config))%nat /\
   (exists n, parseInt (RATE_LIMIT_REQUESTS config) = Some n /\ 1 <= n) /\
   (exists n, parseInt (RATE_LIMIT_WINDOW config) = Some n /\ 1 <= n) /\
   (exists n, parseInt (MAX_CODE_LENGTH config) = Some n /\ 100 <= n)) /\
  (validateConfig config <> inr tt ->
   validateConfig config
     = inl (ValidationError (str "Configuration validation failed"))) /\
  (List.length (errors_of config) <= 4)%nat.
Proof.
  split; [split|split].
  - apply validateConfig_inv.
  - intros (Hk & Hr & Hw & Hm). unfold validateConfig, errors_of.
    apply nan_or_below_false in Hr, Hw, Hm. rewrite Hr, Hw, Hm.
    apply Nat.ltb_ge in Hk. rewrite Hk.
    destruct (GROQ_API_KEY config); [simpl in Hk; discriminate | reflexivity].
  - unfold validateConfig. destruct (0 <? _)%nat; [reflexivity | congruence].
  - unfold errors_of.
    repeat match goal with |- context [if ?b then _ else _] => destruct b end;
      simpl; lia.
Qed.

(** X6. The defaults of [getEnv] are in order: [getEnv] fails exactly
    when the key is not bound or empty, and bindings that hold nothing
    but a key of at least ten code units give a configuration that
    [validateConfig] lets through, with 20 requests per 60 seconds, at
    most 10000 code units of code and every origin allowed. *)
Theorem getEnv_defaults (bindings : Bindings) :
  (given (b_GROQ_API_KEY bindings) = None <->
   getEnv bindings = inl (ValidationError (str "GROQ_API_KEY is required"))) /\
  (forall key,
     given (b_GROQ_API_KEY bindings) = Some key ->
     (10 <= List.length key)%nat ->
     given (b_ALLOWED_ORIGINS bindings) = None ->
     given (b_RATE_LIMIT_REQUESTS bindings) = None ->
     given (b_RATE_LIMIT_WINDOW bindings) = None ->
     given (b_MAX_CODE_LENGTH bindings) = None ->
     exists config,
       getEnv bindings = inr config /\
       GROQ_API_KEY config = key /\
       ACCESS_TOKEN config = b_ACCESS_TOKEN bindings /\
       validateConfig config = inr tt /\
       limiter_of config = Some (new 20 60) /\
       parseInt (MAX_CODE_LENGTH config) = Some 10000 /\
       allowedOrigins config = [str "*"]).
Proof.
  split.
  - unfold getEnv, given. destruct (b_GROQ_API_KEY bindings) as [[|c k]|];
      split; intros H; try reflexivity; discriminate.
  - intros key Hkey Hlen Ho Hr Hw Hm. unfold getEnv.
    assert (Hdef : forall o d, given o = None -> or_else o d = d).
    { intros [[|c s]|] d; try reflexivity. discriminate. }
    unfold given in Hkey.
    destruct (b_GROQ_API_KEY bindings) as [[|c k]|]; try discriminate.
    injection Hkey as <-.
    rewrite (Hdef _ _ Ho), (Hdef _ _ Hr), (Hdef _ _ Hw), (Hdef _ _ Hm).
    eexists. split; [reflexivity|]. cbn [GROQ_API_KEY ACCESS_TOKEN].
    repeat split.
    unfold validateConfig, errors_of.
    cbn [GROQ_API_KEY RATE_LIMIT_REQUESTS RATE_LIMIT_WINDOW MAX_CODE_LENGTH].
    apply Nat.ltb_ge in Hlen. rewrite Hlen. reflexivity.
Qed.

Lemma getEnv_defaults_witness :
  exists config,
    getEnv {| b_GROQ_API_KEY := Some (str "gsk_0123456789"); b_ACCESS_TOKEN := None;
              b_SESSIONS := true; b_NODE_ENV := None; b_ALLOWED_ORIGINS := None;
              b_RATE_LIMIT_REQUESTS := Some []; b_RATE_LIMIT_WINDOW := None;
              b_MAX_CODE_LENGTH := None |} = inr config /\
    validateConfig config = inr tt /\ limiter_of config = Some (new 20 60).
Proof.
  destruct (proj2 (getEnv_defaults
              {| b_GROQ_API_KEY := Some (str "gsk_0123456789"); b_ACCESS_TOKEN := None;
                 b_SESSIONS := true; b_NODE_ENV := None; b_ALLOWED_ORIGINS := None;
                 b_RATE_LIMIT_REQUESTS := Some []; b_RATE_LIMIT_WINDOW := None;
                 b_MAX_CODE_LENGTH := None |}) (str "gsk_0123456789"))
    as (config & Hget & _ & _ & Hval & Hlim & _); try reflexivity.
  - simpl. lia.
  - exists config. repeat split; assumption.
Defined.

(** *** The limiter behind the handler *)

Lemma serve_check_all header (times : list Z) : forall rl,
  serve header times rl =
    map (fun r =>
           match res_resetAt r with
           | None =>
               inl (Thrown (TypeError
                      (str "Cannot read properties of undefined (reading 'toString')")))
           | Some _ =>
               if negb (allowed r)
               then inl (RateLimitError (str "Too many requests. Please try again later."))
               else inr tt
           end)
        (snd (check_all times (identifier_of header) rl)).
Proof.
  induction times as [|now times IH]; intros rl; [reflexivity|].
  cbn [serve check_all]. unfold rateLimit at 1.
  replace (limiter (rateLimit header now rl))
    with (fst (check now (identifier_of header) rl))
    by (unfold rateLimit; now destruct (res_resetAt _)).
  destruct (check now (identifier_of header) rl) as [rl1 r].
  cbn [fst snd]. rewrite IH.
  destruct (check_all times (identifier_of header) rl1) as [rl2 rs].
  cbn [snd map]. now destruct (res_resetAt r).
Qed.

(** X7. Behind a handler that is made once from a configuration
    whose settings are read as numbers, a client whose identifier is not
    a name inherited from Object.prototype gets as many requests through
    per window as the configuration says (the limit, the window, the
    times and the number of requests being within the safe integers): of
    the requests with the same headers that come before the reset time of
    the first one, the first goes on to [next], the k-th goes on exactly
    when k is within the limit, and every other one is answered with the
    [RateLimitError].  Under an inherited name every request ends in the
    [TypeError] of the runtime.  A configuration that [validateConfig]
    lets through has a limit and a window of at least one, and makes such
    a handler when the two are within the safe integers. *)
Theorem served_within_limit (config : EnvConfig) (header : Headers)
    (now : Z) (times : list Z) :
  (forall rl,
     limiter_of config = Some rl ->
     is_inherited (identifier_of header) = false ->
     safe_at rl now = true ->
     safe (Z.of_nat (List.length times) + 1) = true ->
     Forall (fun t => t <= now + windowMs rl) times ->
     forall k out,
       nth_error (serve header (now :: times) rl) k = Some out ->
       (out = inr tt <-> k = 0%nat \/ Z.of_nat k + 1 <= limit rl) /\
       (out <> inr tt ->
        out = inl (RateLimitError (str "Too many requests. Please try again later.")))) /\
  (forall rl,
     limiter_of config = Some rl ->
     is_inherited (identifier_of header) = true ->
     forall k out,
       nth_error (serve header (now :: times) rl) k = Some out ->
       out = inl (Thrown (TypeError
                    (str "Cannot read properties of undefined (reading 'toString')")))) /\
  (validateConfig config = inr tt ->
   exists n window,
     parseInt (RATE_LIMIT_REQUESTS config) = Some n /\ 1 <= n /\
     parseInt (RATE_LIMIT_WINDOW config) = Some window /\ 1 <= window /\
     (safe n = true -> safe (window * 1000) = true ->
      limiter_of config = Some (new n window))).
Proof.
  split; [|split].
  - intros rl Hrl Hown _ _ Hall k out Hk. apply own_name in Hown.
    assert (Hempty : store rl = ∅).
    { unfold limiter_of in Hrl.
      destruct (parseInt (RATE_LIMIT_REQUESTS config)); [|discriminate].
      destruct (parseInt (RATE_LIMIT_WINDOW config)); [|discriminate].
      destruct (safe _ && safe _); [|discriminate].
      now injection Hrl as <-. }
    rewrite serve_check_all in Hk.
    rewrite check_all_window in Hk;
      [| exact Hown | rewrite Hempty, lookup_empty; reflexivity | exact Hall].
    destruct k as [|k]; cbn [map nth_error] in Hk.
    + injection Hk as <-. cbn [allowed res_resetAt negb].
      split; [split; [now left | reflexivity] | intros Hne; contradiction].
    + rewrite nth_error_map in Hk.
      destruct (nth_error _ k) as [r|] eqn:Hr in Hk; [|discriminate].
      assert (Hlt : (k < List.length times)%nat).
      { rewrite <- (window_results_length (List.length times) (limit rl)
                      (now + windowMs rl) 1).
        apply nth_error_Some. congruence. }
      rewrite window_results_nth in Hr by exact Hlt. injection Hr as <-.
      cbn [option_map allowed res_resetAt] in Hk. injection Hk as <-.
      destruct (Z.leb_spec (1 + Z.of_nat k + 1) (limit rl)) as [Hle|Hgt]; cbn [negb].
      * split; [split; [intros _; right; lia | reflexivity] | intros Hne; contradiction].
      * split; [split; [discriminate | intros [H0 | Hle]; [discriminate | lia]]
               | reflexivity].
  - intros rl _ Hin k out Hk. apply bool_decide_eq_true in Hin.
    rewrite serve_check_all, (check_all_inherited _ _ _ Hin) in Hk.
    cbn [snd] in Hk. rewrite map_map, nth_error_map in Hk.
    destruct (nth_error (now :: times) k); [|discriminate].
    now injection Hk as <-.
  - intros Hval.
    destruct (validateConfig_inv config Hval)
      as (_ & (n & Hn & Hn1) & (wd & Hw & Hw1) & _).
    exists n, wd. unfold limiter_of. rewrite Hn, Hw. repeat split; trivial.
    now intros -> ->.
Qed.

Lemma served_within_limit_witness :
  let config := {| NODE_ENV := str "development"; GROQ_API_KEY := [];
                   ACCESS_TOKEN := None; ALLOWED_ORIGINS := str "*";
                   RATE_LIMIT_REQUESTS := str "2"; RATE_LIMIT_WINDOW := str " 60s";
                   MAX_CODE_LENGTH := str "10000" |} in
  limiter_of config = Some (new 2 60) /\
  (forall k out,
     nth_error (serve (fun _ => None) (1000 :: [2000; 3000]) (new 2 60)) k = Some out ->
     (out = inr tt <-> k = 0%nat \/ Z.of_nat k + 1 <= 2) /\
     (out <> inr tt ->
      out = inl (RateLimitError (str "Too many requests. Please try again later.")))) /\
  (forall k out,
     nth_error (serve (fun name => if bool_decide (name = str "X-Forwarded-For")
                                   then Some (str "constructor") else None)
                  (1000 :: [2000; 3000]) (new 2 60)) k = Some out ->
     out = inl (Thrown (TypeError
                  (str "Cannot read properties of undefined (reading 'toString')")))).
Proof.
  intros config. split; [reflexivity|]. split.
  - apply (proj1 (served_within_limit config (fun _ => None) 1000 [2000; 3000]) (new 2 60)).
    + reflexivity.
    + reflexivity.
    + reflexivity.
    + reflexivity.
    + repeat constructor; simpl; lia.
  - apply (proj1 (proj2 (served_within_limit config
                           (fun name => if bool_decide (name = str "X-Forwarded-For")
                                        then Some (str "constructor") else None)
                           1000 [2000; 3000])) (new 2 60)); reflexivity.
Defined.

Lemma check_bounds rl now identifier :
  1 <= limit rl ->
  identifier ∉ inherited ->
  map_Forall (fun _ e => 1 <= count e) (store rl) ->
  let r := snd (check now identifier rl) in
  (exists left, remaining r = Some left /\
     0 <= left <= limit rl - 1 /\ (allowed r = false -> left = 0)) /\
  map_Forall (fun _ e => 1 <= count e) (store (fst (check now identifier rl))) /\
  limit (fst (check now identifier rl)) = limit rl.
Proof.
  intros Hlim Hown Hinv. unfold check.
  destruct (decide (identifier ∈ inherited)) as [Hin|own]; [contradiction|].
  destruct (stale now (store rl !! identifier)) eqn:Hs.
  - cbn [snd fst remaining allowed store put limit].
    split; [eexists; split; [reflexivity|]; split; [lia | discriminate]|].
    split; [|reflexivity].
    apply map_Forall_insert_2; [simpl; lia | exact Hinv].
  - destruct (store rl !! identifier) as [e|] eqn:He; [|discriminate].
    pose proof (Hinv _ _ He) as Hc. cbn beta in Hc.
    cbn [snd fst remaining allowed store put limit count].
    split; [eexists; split; [reflexivity|]; lia|].
    split; [|reflexivity].
    apply map_Forall_insert_2; [simpl; lia | exact Hinv].
Qed.

Lemma run_bounds (calls : list call) : forall rl,
  1 <= limit rl ->
  forallb own_call calls = true ->
  map_Forall (fun _ e => 1 <= count e) (store rl) ->
  Forall (fun r => exists left, remaining r = Some left /\
                     0 <= left <= limit rl - 1 /\ (allowed r = false -> left = 0))
    (snd (run calls rl)).
Proof.
  induction calls as [|[now identifier|now|identifier] calls IH]; intros rl Hlim Hown Hinv;
    cbn [run snd]; cbn [forallb own_call] in Hown.
  - constructor.
  - apply andb_true_iff in Hown as [Hid Hown]. apply negb_true_iff, own_name in Hid.
    destruct (check_bounds rl now identifier Hlim Hid Hinv) as (Hr & Hinv' & Hl').
    constructor; [exact Hr|].
    rewrite <- Hl'. apply IH; [now rewrite Hl' | exact Hown | exact Hinv'].
  - apply (IH (cleanup now rl)); [exact Hlim | exact Hown |].
    unfold cleanup. cbn [store].
    intros k e Hk. apply map_lookup_filter_Some in Hk as [Hk _]. now apply (Hinv k).
  - apply (IH (reset identifier rl)); [exact Hlim | exact Hown |].
    unfold reset. cbn [store].
    intros k e Hk. apply lookup_delete_Some in Hk as [_ Hk]. now apply (Hinv k).
Qed.

(** X8. With a limit of at least one, whatever calls of [check],
    [cleanup] and [reset] a limiter gets, at whatever times and for
    whatever identifiers that are not names inherited from
    Object.prototype, every answer of [check] reports a number of
    remaining requests between 0 and the limit less one, and 0 whenever
    the request is not allowed (the limit and the number of calls being
    within the safe integers). *)
Theorem remaining_in_bounds (n windowSeconds : Z) (calls : list call) :
  1 <= n ->
  safe n = true ->
  safe (Z.of_nat (List.length calls)) = true ->
  forallb own_call calls = true ->
  Forall (fun r => exists left, remaining r = Some left /\
                     0 <= left <= n - 1 /\ (allowed r = false -> left = 0))
    (snd (run calls (new n windowSeconds))).
Proof.
  intros Hn _ _ Hown. apply (run_bounds calls (new n windowSeconds)); [exact Hn | exact Hown |].
  apply map_Forall_empty.
Qed.

Lemma remaining_in_bounds_witness :
  Forall (fun r => exists left, remaining r = Some left /\
                     0 <= left <= 2 - 1 /\ (allowed r = false -> left = 0))
    (snd (run [DoCheck 1000 (str "a"); DoCheck 1500 (str "a"); DoCleanup 2000;
               DoCheck 2500 (str "a"); DoReset (str "a"); DoCheck 3000 (str "a")]
            (new 2 60))).
Proof.
  apply (remaining_in_bounds 2 60); [lia | reflexivity | reflexivity | reflexivity].
Defined.

(** X9. The entry point of the worker makes the limiter anew for every
    request, so the handler never meets an entry and never answers with
    the [RateLimitError], whatever came before.  A request whose
    identifier is not a name inherited from Object.prototype goes on to
    [next], with the limit less one reported as remaining and a reset time
    one window ahead (for a limit, a window and a time within the safe
    integers); under an inherited name the request ends in the
    [TypeError] of the runtime. *)
Theorem per_request_never_blocks (config : EnvConfig) (header : Headers) (now : Z)
    (answer : Answer) :
  rateLimit_per_request config header now = Some answer ->
  (forall message, outcome answer <> inl (RateLimitError message)) /\
  (is_inherited (identifier_of header) = false ->
   outcome answer = inr tt /\
   exists n window,
     parseInt (RATE_LIMIT_REQUESTS config) = Some n /\
     parseInt (RATE_LIMIT_WINDOW config) = Some window /\
     (safe_at (new n window) now = true ->
      response_headers answer =
        [(str "X-RateLimit-Limit", toString n);
         (str "X-RateLimit-Remaining", toString (n - 1));
         (str "X-RateLimit-Reset", toString (now + window * 1000))])) /\
  (is_inherited (identifier_of header) = true ->
   outcome answer =
     inl (Thrown (TypeError
            (str "Cannot read properties of undefined (reading 'toString')")))).
Proof.
  unfold rateLimit_per_request, limiter_of.
  destruct (parseInt (RATE_LIMIT_REQUESTS config)) as [n|]; [|discriminate].
  destruct (parseInt (RATE_LIMIT_WINDOW config)) as [wd|]; [|discriminate].
  destruct (safe n && safe (wd * 1000)); [|discriminate].
  cbn [option_map]. intros [= <-]. unfold rateLimit.
  destruct (decide (identifier_of header ∈ inherited)) as [Hin|Hown].
  - rewrite (check_inherited _ _ _ Hin). cbn [snd res_resetAt refused outcome].
    split; [discriminate|]. split; [|reflexivity].
    intros H. apply own_name in H. contradiction.
  - destruct (check_fresh (new n wd) now (identifier_of header) Hown) as (own & ->);
      [reflexivity|].
    cbn [snd res_resetAt remaining allowed outcome response_headers negb].
    split; [discriminate|]. split.
    + intros _. split; [reflexivity|]. exists n, wd. repeat split.
    + intros H. apply bool_decide_eq_true in H. contradiction.
Qed.

Lemma per_request_never_blocks_witness :
  exists answer,
    rateLimit_per_request
      {| NODE_ENV := str "production"; GROQ_API_KEY := str "gsk_0123456789";
         ACCESS_TOKEN := None; ALLOWED_ORIGINS := str "*";
         RATE_LIMIT_REQUESTS := str "1"; RATE_LIMIT_WINDOW := str "60";
         MAX_CODE_LENGTH := str "10000" |} (fun _ => None) 1000 = Some answer /\
    outcome answer = inr tt.
Proof.
  eexists. split; [reflexivity|].
  apply (per_request_never_blocks
           {| NODE_ENV := str "production"; GROQ_API_KEY := str "gsk_0123456789";
              ACCESS_TOKEN := None; ALLOWED_ORIGINS := str "*";
              RATE_LIMIT_REQUESTS := str "1"; RATE_LIMIT_WINDOW := str "60";
              MAX_CODE_LENGTH := str "10000" |} (fun _ => None) 1000);
    reflexivity.
Defined.

(** *** Authentication *)

Lemma given_Some (o : option text) (v : text) :
  given o = Some v <-> o = Some v /\ v <> [].
Proof.
  unfold given. destruct o as [[|c s]|]; split.
  all: try discriminate.
  all: try (intros [H1 H2]; try discriminate; injection H1 as <-; try contradiction).
  all: try (intros [= <-]; split; [reflexivity | discriminate]).
  all: reflexivity.
Qed.

Lemma given_None (o : option text) :
  given o = None <-> o = None \/ o = Some [].
Proof.
  unfold given. destruct o as [[|c s]|]; split; intros H; auto; try discriminate.
  destruct H; discriminate.
Qed.

(** X10. Without an access token in the configuration (none, or an
    empty one) every request goes on to [next].  With an access token, a
    request goes on exactly when its Authorization header is the word
    Bearer, one space and the token, followed by nothing or by a space and
    anything at all; so a token that holds a space lets no request
    through. *)
Theorem auth_accepts (config : EnvConfig) (header : Headers) :
  (given (ACCESS_TOKEN config) = None -> createAuthMiddleware config header = inr tt) /\
  (forall accessToken,
     given (ACCESS_TOKEN config) = Some accessToken ->
     (createAuthMiddleware config header = inr tt <->
      lacks " " accessToken = true /\
      exists rest0,
        header (str "Authorization") = Some (str "Bearer " ++ accessToken ++ rest0) /\
        (rest0 = [] \/ exists r, rest0 = " "%char :: r))).
Proof.
  split.
  - intros H. unfold createAuthMiddleware. now rewrite H.
  - intros accessToken Htok. unfold createAuthMiddleware. rewrite Htok.
    apply given_Some in Htok as [_ Hne]. split.
    + destruct (given (header (str "Authorization"))) as [h|] eqn:Hh; [|discriminate].
      apply given_Some in Hh as [Hh _].
      destruct (split_first " " h) as (a & pieces & Hs & Ha & Hcase).
      rewrite Hs. cbn [nth_error].
      destruct (bool_decide (Some a = Some (str "Bearer"))) eqn:Hsch; [|discriminate].
      apply bool_decide_eq_true in Hsch. injection Hsch as ->. cbn [negb].
      destruct pieces as [|b pieces]; [discriminate|]. cbn [nth_error].
      destruct (given (Some b)) eqn:Hb; [|discriminate]. cbn [orb].
      destruct (bool_decide (Some b = Some accessToken)) eqn:Heq; [|discriminate].
      apply bool_decide_eq_true in Heq. injection Heq as ->. intros _.
      destruct Hcase as [[? _] | (s' & -> & Hp)]; [discriminate|].
      destruct (split_first " " s') as (a' & pieces' & Hs' & Ha' & Hcase').
      rewrite Hs' in Hp. injection Hp as <- <-.
      split; [exact Ha'|].
      destruct Hcase' as [[_ ->] | (s'' & -> & _)].
      * exists []. split; [rewrite Hh; now rewrite app_nil_r | now left].
      * exists (" "%char :: s''). split; [exact Hh | right; now exists s''].
    + intros (Hlack & rest0 & Hh & Hrest). rewrite Hh.
      assert (Hg : given (Some (str "Bearer " ++ accessToken ++ rest0))
                   = Some (str "Bearer " ++ accessToken ++ rest0)) by reflexivity.
      rewrite Hg.
      change (str "Bearer " ++ accessToken ++ rest0)
        with (str "Bearer" ++ " "%char :: (accessToken ++ rest0)).
      rewrite split_app by reflexivity.
      assert (Hsp : exists pieces, split " " (accessToken ++ rest0) = accessToken :: pieces).
      { destruct Hrest as [-> | (r & ->)].
        - rewrite app_nil_r, split_lacks by exact Hlack. now eexists.
        - rewrite split_app by exact Hlack. now eexists. }
      destruct Hsp as (pieces & ->). cbn [nth_error].
      rewrite bool_decide_eq_true_2 by reflexivity. cbn [negb].
      rewrite (bool_decide_eq_true_2 (Some accessToken = Some accessToken)) by reflexivity.
      destruct accessToken as [|c t]; [contradiction | reflexivity].
Qed.

Lemma auth_accepts_witness :
  let config := {| NODE_ENV := str "production"; GROQ_API_KEY := str "gsk_0123456789";
                   ACCESS_TOKEN := Some (str "s3cret"); ALLOWED_ORIGINS := str "*";
                   RATE_LIMIT_REQUESTS := str "20"; RATE_LIMIT_WINDOW := str "60";
                   MAX_CODE_LENGTH := str "10000" |} in
  createAuthMiddleware config
    (fun name => if bool_decide (name = str "Authorization")
                 then Some (str "Bearer s3cret and more") else None) = inr tt.
Proof.
  intros config.
  apply (proj2 (auth_accepts config _) (str "s3cret") eq_refl).
  split; [reflexivity|].
  exists (str " and more"). split; [reflexivity | right; now eexists].
Defined.

(** *** Origins *)

(** X11. The list of origins is never empty and none of its entries
    begins or ends with white space; a setting written as pieces without
    commas, joined by commas, gives the pieces trimmed, in their order
    (the setting that is just a star gives the star). *)
Theorem allowedOrigins_pieces (config : EnvConfig) :
  allowedOrigins config <> [] /\
  Forall (fun origin => trim origin = origin) (allowedOrigins config) /\
  (forall pieces,
     pieces <> [] ->
     Forall (fun p => lacks "," p = true) pieces ->
     ALLOWED_ORIGINS config = ChatRoutes.join (str ",") pieces ->
     allowedOrigins config = map trim pieces).
Proof.
  unfold allowedOrigins.
  destruct (bool_decide (ALLOWED_ORIGINS config = str "*")) eqn:Hstar.
  - apply bool_decide_eq_true in Hstar. split; [discriminate|]. split.
    + now repeat constructor.
    + intros pieces Hne Hall Hjoin.
      pose proof (split_join "," pieces Hne Hall) as Hs.
      change [","%char] with (str ",") in Hs.
      rewrite <- Hjoin, Hstar in Hs. rewrite <- Hs. reflexivity.
  - split; [|split].
    + destruct (split_first "," (ALLOWED_ORIGINS config)) as (a & pieces & -> & _).
      discriminate.
    + apply Forall_map, Forall_forall. intros p _. apply trim_idempotent.
    + intros pieces Hne Hall Hjoin. rewrite Hjoin.
      change (str ",") with [","%char]. now rewrite split_join.
Qed.

Lemma allowedOrigins_pieces_witness :
  allowedOrigins {| NODE_ENV := str "production"; GROQ_API_KEY := str "gsk_0123456789";
                    ACCESS_TOKEN := None;
                    ALLOWED_ORIGINS := str "https://a.example, https://b.example ,";
                    RATE_LIMIT_REQUESTS := str "20"; RATE_LIMIT_WINDOW := str "60";
                    MAX_CODE_LENGTH := str "10000" |}
  = [str "https://a.example"; str "https://b.example"; []].
Proof.
  apply (proj2 (proj2 (allowedOrigins_pieces _))
           [str "https://a.example"; str " https://b.example "; []]).
  - discriminate.
  - repeat constructor.
  - reflexivity.
Defined.

End MiddlewareProps.

(** ** Stored sessions and the session routes *)

Module StoreProps.

Import ChatRoutes SessionRoutes SessionProps.
Local Open Scope Z_scope.

(** The world after [n] more readings of the clock. *)
Lemma getSession_found (E : Env) (sid data : text) (expiry : Z) (w : World) :
  kv w !! key_of sid = Some (data, expiry) ->
  data <> [] ->
  clock E (reads w) < expiry ->
  getSession E true sid w =
    (inr (safeJsonParse E data
            {| id := sid; messages := [];
               created_at := toISOString E (clock E (1 + reads w));
               updated_at := toISOString E (clock E (2 + reads w));
               expires_at := toISOString E (clock E (3 + reads w)) |}),
     {| kv := kv w; reads := 4 + reads w; draws := draws w; calls := calls w |}).
Proof.
  intros Hkv Hne Hlt.
  unfold getSession, kv_get, bind, Effects.now, get_kv, ret. cbn [negb kv reads].
  rewrite Hkv. apply Z.ltb_lt in Hlt. rewrite Hlt.
  destruct data as [|c d]; [contradiction | reflexivity].
Qed.

Lemma createSession_bound (E : Env) (w : World) :
  let session :=
    {| id := randomUUID E (draws w); messages := [];
       created_at := toISOString E (clock E (reads w));
       updated_at := toISOString E (clock E (reads w));
       expires_at := toISOString E (clock E (S (reads w)) + 3600 * 1000) |} in
  createSession E true w =
    (inr session,
     {| kv := <[key_of (id session) :=
                 (stringify E session, clock E (2 + reads w) + 3600 * 1000)]> (kv w);
        reads := 3 + reads w; draws := S (draws w); calls := calls w |}).
Proof. reflexivity. Qed.

(** X12. A session made by POST /session is found by GET /session/:id
    under the identifier that was answered, with no messages and the same
    time of expiry, provided the store is bound, the session is written
    as a text that is not empty and that is read back as the session, and
    less than an hour has passed on the clock. *)
Theorem post_then_get (E : Env) (w : World) :
  let session :=
    {| id := randomUUID E (draws w); messages := [];
       created_at := toISOString E (clock E (reads w));
       updated_at := toISOString E (clock E (reads w));
       expires_at := toISOString E (clock E (S (reads w)) + 3600 * 1000) |} in
  stringify E session <> [] ->
  (forall fallback, safeJsonParse E (stringify E session) fallback = session) ->
  clock E (3 + reads w) < clock E (2 + reads w) + 3600 * 1000 ->
  exists w1 w2,
    post_session E true w =
      (inr {| cr_session_id := id session; cr_expires_at := expires_at session |}, w1) /\
    get_session_details E true (id session) w1 =
      (inr {| dt_session_id := id session; message_count := 0;
              dt_created_at := created_at session;
              dt_updated_at := updated_at session;
              dt_expires_at := expires_at session |}, w2) /\
    kv w2 = <[key_of (id session) :=
               (stringify E session, clock E (2 + reads w) + 3600 * 1000)]> (kv w).
Proof.
  intros session Hne Hparse Hclock.
  unfold post_session, createSession, kv_put, bind, Effects.now, uuid, get_kv, set_kv, ret.
  cbn [kv reads draws calls id expires_at]. fold session.
  do 2 eexists. split; [reflexivity|].
  unfold get_session_details, bind.
  erewrite getSession_found; cycle 1.
  - cbn [kv]. apply lookup_insert_eq.
  - exact Hne.
  - cbn [reads]. exact Hclock.
  - rewrite Hparse. unfold ret. cbn [id messages List.length]. split; reflexivity.
Qed.

Lemma post_then_get_witness :
  exists w1 w2,
    post_session echo_env true empty_world =
      (inr {| cr_session_id := str "session-0"; cr_expires_at := str "3601000" |}, w1) /\
    get_session_details echo_env true (str "session-0") w1 =
      (inr {| dt_session_id := str "session-0"; message_count := 0;
              dt_created_at := str "0"; dt_updated_at := str "0";
              dt_expires_at := str "3601000" |}, w2).
Proof.
  destruct (post_then_get echo_env empty_world) as (w1 & w2 & H1 & H2 & _).
  - discriminate.
  - reflexivity.
  - vm_compute. reflexivity.
  - exists w1, w2. split; [exact H1 | exact H2].
Defined.

(** X13. What [updateSession] writes is what [getSession] finds under
    the identifier of the session: the session with its messages and the
    new time of its update, as long as the text written is not empty, is
    read back as the session, and less than an hour has passed. *)
Theorem update_then_get (E : Env) (session : ChatSession) (w : World) :
  let written := with_updated_at session (toISOString E (clock E (reads w))) in
  stringify E written <> [] ->
  (forall fallback, safeJsonParse E (stringify E written) fallback = written) ->
  clock E (2 + reads w) < clock E (1 + reads w) + 3600 * 1000 ->
  exists w1 w2,
    updateSession E true session w = (inr written, w1) /\
    getSession E true (id session) w1 = (inr written, w2) /\
    messages written = messages session.
Proof.
  intros written Hne Hparse Hclock.
  rewrite updateSession_bound by reflexivity. fold written.
  do 2 eexists. split; [reflexivity|]. split; [|reflexivity].
  erewrite getSession_found; cycle 1.
  - cbn [kv]. apply lookup_insert_eq.
  - exact Hne.
  - cbn [reads]. exact Hclock.
  - now rewrite Hparse.
Qed.

Lemma update_then_get_witness :
  exists w1 w2,
    updateSession echo_env true first_session empty_world = (inr first_session, w1) /\
    getSession echo_env true (str "session-0") w1 = (inr first_session, w2).
Proof.
  destruct (update_then_get echo_env first_session empty_world) as (w1 & w2 & H1 & H2 & _).
  - discriminate.
  - reflexivity.
  - vm_compute. reflexivity.
  - exists w1, w2. split; [exact H1 | exact H2].
Defined.

(** X14. DELETE /session/:id answers that the session was deleted
    whether there was one or not, and whether a store is bound or not.
    With a store, the entry of the session is gone afterwards, a lookup of
    the session fails with the [SessionError] of a session that is not
    found, and no other entry has changed; without a store nothing
    happens. *)
Theorem delete_then_get (E : Env) (sid : text) (w : World) :
  (exists w1,
     delete_session true sid w = (inr (str "Session deleted successfully"), w1) /\
     kv w1 !! key_of sid = None /\
     (forall key, key <> key_of sid -> kv w1 !! key = kv w !! key) /\
     get_session_details E true sid w1 =
       (inl (SessionError (str "Session not found or expired")), ticked w1)) /\
  delete_session false sid w = (inr (str "Session deleted successfully"), w).
Proof.
  split; [|reflexivity].
  unfold delete_session, deleteSession, kv_delete, bind, get_kv, set_kv, ret.
  cbn [negb]. eexists. split; [reflexivity|]. cbn [kv].
  split; [apply lookup_delete_eq|]. split.
  - intros key Hne. now apply lookup_delete_ne.
  - unfold get_session_details, bind.
    rewrite getSession_gone; [reflexivity | reflexivity |].
    left. cbn [kv]. apply lookup_delete_eq.
Qed.

(** X15. Without a store a turn remembers nothing: whatever identifier
    comes with it, the request that goes to the completion API holds the
    system prompt and the user prompt and no earlier message, nothing is
    written, the identifier answered is a new one, and a lookup of it (or
    of any other) fails. *)
Theorem stateless_without_store (E : Env) (contextService : Methods)
    (sid code : text) (language userContext : option text) (w : World) :
  exists out w',
    processCodeReview E contextService false sid code language userContext w = (out, w') /\
    kv w' = kv w /\
    calls w' = calls w ++
      [[{| msg_role := system;
           content := fst (prompts contextService code language userContext) |};
        {| msg_role := user;
           content := snd (prompts contextService code language userContext) |}]] /\
    (forall rv, out = inr rv -> sessionId rv = randomUUID E (draws w)) /\
    (forall other, exists e, getSession E false other w' = (inl (SessionError e), w')).
Proof.
  pose proof (getSession_unbound E false sid w eq_refl) as Hget.
  destruct (find_or_create_failed E false sid w _ _ Hget)
    as (s & w2 & Hs & Hf & Hid & Hms & Hc).
  pose proof (processCodeReview_run E contextService false sid code language userContext
                w _ _ Hf) as Hp.
  cbn [fst snd] in Hp.
  assert (Hreq : request contextService s code language userContext =
                 [{| msg_role := system;
                     content := fst (prompts contextService code language userContext) |};
                  {| msg_role := user;
                     content := snd (prompts contextService code language userContext) |}]).
  { unfold request. now rewrite Hms. }
  assert (Hkv : kv w2 = kv w).
  { unfold createSession, bind, Effects.now, uuid, ret in Hs. cbn in Hs.
    now injection Hs as _ <-. }
  rewrite Hreq in Hp.
  destruct (create E _) as [m|[|[[|c0 r0]|] cs]] in Hp.
  all: do 2 eexists; split; [exact Hp|].
  all: rewrite ?updateSession_unbound by reflexivity; cbn [snd kv calls sent].
  all: split; [exact Hkv|]; split; [now rewrite Hc|]; split.
  all: try (intros rv [= <-]; exact Hid).
  all: try (intros rv Hrv; discriminate).
  all: intros other; eexists; apply getSession_unbound; reflexivity.
Qed.

(** X16. A turn that fails leaves a session that was found as it was:
    nothing is written.  When the lookup had failed, the session made in
    its place has already been written, empty, and stays in the
    store. *)
Theorem failed_turn_store (E : Env) (contextService : Methods) (kv_bound : bool)
    (sid code : text) (language userContext : option text) (w : World)
    (e : error) (w' : World) :
  processCodeReview E contextService kv_bound sid code language userContext w
    = (inl e, w') ->
  (forall s w0, getSession E kv_bound sid w = (inr s, w0) -> kv w' = kv w) /\
  (forall e0 w0, getSession E kv_bound sid w = (inl e0, w0) -> kv_bound = true ->
     exists s expiry,
       kv w' = <[key_of (randomUUID E (draws w)) := (stringify E s, expiry)]> (kv w) /\
       id s = randomUUID E (draws w) /\ messages s = []).
Proof.
  intros Hrun. split.
  - intros s w0 Hget.
    pose proof (find_or_create_found E kv_bound sid w s w0 Hget) as Hf.
    pose proof (processCodeReview_run E contextService kv_bound sid code language
                  userContext w _ _ Hf) as Hp.
    cbn [fst snd] in Hp. rewrite Hrun in Hp.
    destruct (getSession_cases E kv_bound sid w) as (w1 & Hkv & _ & _ & Hcase).
    assert (w1 = w0) as -> by (destruct Hcase as [[m H] | [s1 H]]; congruence).
    destruct (create E _) as [m|[|[[|c0 r0]|] cs]] in Hp; try discriminate;
      injection Hp as _ ->; exact Hkv.
  - intros e0 w0 Hget ->.
    destruct (find_or_create_failed E true sid w _ _ Hget)
      as (s & w2 & Hs & Hf & Hid & Hms & Hc).
    pose proof (processCodeReview_run E contextService true sid code language
                  userContext w _ _ Hf) as Hp.
    cbn [fst snd] in Hp. rewrite Hrun in Hp.
    destruct (getSession_cases E true sid w) as (w1 & Hkv & Hd & _ & Hcase).
    assert (w1 = w0) as -> by (destruct Hcase as [[m H] | [s1 H]]; congruence).
    rewrite createSession_bound in Hs. cbv zeta in Hs. injection Hs as Hs Hw2.
    exists s. eexists.
    assert (Hkv2 : kv w' = kv w2).
    { destruct (create E _) as [m|[|[[|c0 r0]|] cs]] in Hp; try discriminate;
        now injection Hp as _ ->. }
    rewrite Hkv2, <- Hw2. cbn [kv]. rewrite Hkv, Hs, Hd.
    split; [reflexivity|]. split; [exact Hid | exact Hms].
Qed.

Lemma failed_turn_store_witness :
  exists e w',
    processCodeReview down_env createContextService true (str "abc")
      (str "hello, how are you?") None None empty_world = (inl e, w') /\
    exists s expiry,
      kv w' = <[key_of (str "session-0") := (stringify down_env s, expiry)]> ∅ /\
      id s = str "session-0" /\ messages s = [].
Proof.
  destruct (processCodeReview down_env createContextService true (str "abc")
              (str "hello, how are you?") None None empty_world) as [[e|rv] w'] eqn:Hrun.
  - exists e, w'. split; [reflexivity|].
    apply (proj2 (failed_turn_store down_env createContextService true (str "abc")
                    (str "hello, how are you?") None None empty_world e w' Hrun)
             (SessionError (str "Session not found or expired")) (ticked empty_world)).
    + reflexivity.
    + reflexivity.
  - vm_compute in Hrun. discriminate.
Defined.

(** X17. [chatCompletion] sends the one request and ends in one of two
    ways: with the content of the first choice, which is then not empty
    (the other choices play no part), or with an [AIServiceError] whose
    message is not empty; it throws nothing else. *)
Theorem chatCompletion_outcome (E : Env) (msgs : list ChatMessage) (w : World) :
  exists out,
    chatCompletion E msgs w = (out, sent w msgs) /\
    match out with
    | inr c => c <> [] /\ exists cs, create E msgs = Choices (Some c :: cs)
    | inl e =>
        (exists m, e = AIServiceError m /\ m <> []) /\
        forall c cs, create E msgs = Choices (Some c :: cs) -> c = []
    end.
Proof.
  unfold chatCompletion, catch, bind, send, throw, ret. cbn [fst snd].
  destruct (create E msgs) as [m|[|[[|c0 r0]|] cs]] eqn:Hc.
  - eexists. split; [reflexivity|]. split.
    + eexists. split; [reflexivity|]. destruct m; discriminate.
    + intros c cs H. discriminate.
  - eexists. split; [reflexivity|]. split.
    + eexists. split; [reflexivity | discriminate].
    + intros c cs H. discriminate.
  - eexists. split; [reflexivity|]. split.
    + eexists. split; [reflexivity | discriminate].
    + intros c cs' H. now injection H as <- _.
  - eexists. split; [reflexivity|]. split; [discriminate | now exists cs].
  - eexists. split; [reflexivity|]. split.
    + eexists. split; [reflexivity | discriminate].
    + intros c cs' H. discriminate.
Qed.

End StoreProps.

(** ** Escaping, sanitizing and classifying, once more *)

Module TextualProps.

Import RegExpProps TextProps SanitizeProps FormatProps BuiltinsProps.

(** *** [escapeHtml] *)

Lemma escape_map_cases (c : ascii) :
  (c = "&"%char /\ escape_map c = str "&amp;") \/
  (c = "<"%char /\ escape_map c = str "&lt;") \/
  (c = ">"%char /\ escape_map c = str "&gt;") \/
  (c = dquote /\ escape_map c = str "&quot;") \/
  (c = "'"%char /\ escape_map c = str "&#039;") \/
  (escape_map c = [c] /\ Ascii.eqb c "&" = false /\ Ascii.eqb c "<" = false /\
   Ascii.eqb c ">" = false /\ Ascii.eqb c dquote = false /\ Ascii.eqb c "'" = false).
Proof.
  unfold escape_map.
  destruct (Ascii.eqb_spec c "&") as [->|_]; [now left|].
  destruct (Ascii.eqb_spec c "<") as [->|_]; [now right; left|].
  destruct (Ascii.eqb_spec c ">") as [->|_]; [now right; right; left|].
  destruct (Ascii.eqb_spec c dquote) as [->|_]; [now right; right; right; left|].
  destruct (Ascii.eqb_spec c "'") as [->|_]; [now right; right; right; right; left|].
  right; right; right; right; right. repeat split.
Qed.

Lemma escaped_injective (a : text) : forall b,
  flat_map escape_map a = flat_map escape_map b -> a = b.
Proof.
  induction a as [|c a IH]; intros [|d b] H.
  - reflexivity.
  - cbn [flat_map] in H.
    destruct (escape_map_cases d) as [[_ E]|[[_ E]|[[_ E]|[[_ E]|[[_ E]|[E _]]]]]];
      rewrite E in H; discriminate.
  - cbn [flat_map] in H.
    destruct (escape_map_cases c) as [[_ E]|[[_ E]|[[_ E]|[[_ E]|[[_ E]|[E _]]]]]];
      rewrite E in H; discriminate.
  - cbn [flat_map] in H.
    destruct (escape_map_cases c)
      as [[-> Ec]|[[-> Ec]|[[-> Ec]|[[-> Ec]|[[-> Ec]|(Ec & Hc & _)]]]]];
    destruct (escape_map_cases d)
      as [[-> Ed]|[[-> Ed]|[[-> Ed]|[[-> Ed]|[[-> Ed]|(Ed & Hd & _)]]]]];
    rewrite ?Ec, ?Ed in H; cbn [str list_ascii_of_string app] in H;
    try discriminate;
    try (injection H as H; f_equal; now apply IH).
    + injection H as <- _. discriminate.
    + injection H as <- _. discriminate.
    + injection H as <- _. discriminate.
    + injection H as <- _. discriminate.
    + injection H as <- _. discriminate.
    + injection H as -> _. discriminate.
    + injection H as -> _. discriminate.
    + injection H as -> _. discriminate.
    + injection H as -> _. discriminate.
    + injection H as -> _. discriminate.
    + injection H as -> H. f_equal. now apply IH.
Qed.

Lemma escaped_length (t : text) :
  (List.length t <= List.length (flat_map escape_map t))%nat /\
  (List.length (flat_map escape_map t) = List.length t ->
   lacks "&" t = true /\ lacks "<" t = true /\ lacks ">" t = true /\
   lacks dquote t = true /\ lacks "'" t = true).
Proof.
  induction t as [|c t [IH1 IH2]]; [split; [simpl; lia | intros _; repeat split]|].
  cbn [flat_map]. rewrite length_app. cbn [List.length].
  destruct (escape_map_cases c)
    as [[-> Ec]|[[-> Ec]|[[-> Ec]|[[-> Ec]|[[-> Ec]|(Ec & H1 & H2 & H3 & H4 & H5)]]]]];
    rewrite Ec; cbn [str list_ascii_of_string List.length]; (split; [lia|]);
    intros Hlen; try lia.
  destruct IH2 as (L1 & L2 & L3 & L4 & L5); [lia|].
  unfold lacks. cbn [forallb]. fold (lacks "&" t) (lacks "<" t) (lacks ">" t)
    (lacks dquote t) (lacks "'" t).
  now rewrite H1, H2, H3, H4, H5, L1, L2, L3, L4, L5.
Qed.

Lemma escaped_plain (t : text) :
  lacks "&" t = true -> lacks "<" t = true -> lacks ">" t = true ->
  lacks dquote t = true -> lacks "'" t = true ->
  flat_map escape_map t = t.
Proof.
  induction t as [|c t IH]; [reflexivity|].
  unfold lacks. cbn [forallb]. fold (lacks "&" t) (lacks "<" t) (lacks ">" t)
    (lacks dquote t) (lacks "'" t).
  intros H1 H2 H3 H4 H5.
  apply andb_true_iff in H1 as [C1 H1]. apply andb_true_iff in H2 as [C2 H2].
  apply andb_true_iff in H3 as [C3 H3]. apply andb_true_iff in H4 as [C4 H4].
  apply andb_true_iff in H5 as [C5 H5].
  apply negb_true_iff in C1, C2, C3, C4, C5.
  cbn [flat_map]. rewrite IH by assumption.
  unfold escape_map. now rewrite C1, C2, C3, C4, C5.
Qed.

(** X18. [escapeHtml] works code unit by code unit (the escape of a
    text put together is the escapes put together), no two texts have the
    same escape, and a text is left as it is exactly when it holds none of
    the five characters; any other text grows. *)
Theorem escapeHtml_faithful :
  (forall a b, escapeHtml (a ++ b) = escapeHtml a ++ escapeHtml b) /\
  (forall a b, escapeHtml a = escapeHtml b -> a = b) /\
  (forall t,
     (escapeHtml t = t <->
      lacks "&" t = true /\ lacks "<" t = true /\ lacks ">" t = true /\
      lacks dquote t = true /\ lacks "'" t = true) /\
     (List.length t <= List.length (escapeHtml t))%nat).
Proof.
  split; [|split].
  - intros a b. rewrite !escapeHtml_flat_map. apply flat_map_app.
  - intros a b. rewrite !escapeHtml_flat_map. apply escaped_injective.
  - intros t. rewrite escapeHtml_flat_map. split; [split|].
    + intros H. apply escaped_length. now rewrite H.
    + intros (H1 & H2 & H3 & H4 & H5). now apply escaped_plain.
    + apply escaped_length.
Qed.

(** *** Elements inside elements *)

Lemma replace_from_end name (marker : text) prev :
  replace_from true (tag_block name) (constant marker) prev [] 0 = [].
Proof. reflexivity. Qed.

(** X19. [sanitizeResponse] goes over the text once: a script element
    that stands inside the name of the tags of another one is removed,
    and what is left of the outer one closes up to a script element, which
    is what comes out. *)
Theorem sanitizeResponse_single_pass (payload : text) :
  lacks "<" payload = true ->
  lacks dquote payload = true ->
  sanitizeResponse
    (str "<scr<script></script>ipt>" ++ payload ++ str "</scr<script></script>ipt>")
  = str "<script>" ++ payload ++ str "</script>".
Proof.
  intros Hlt Hq. unfold sanitizeResponse, replaceAll.
  assert (Hscript :
    replace_from true script_re (constant []) None
      (str "<scr<script></script>ipt>" ++ payload ++ str "</scr<script></script>ipt>") 0
    = str "<script>" ++ payload ++ str "</script>").
  { unfold script_re.
    replace (str "<scr<script></script>ipt>" ++ payload ++ str "</scr<script></script>ipt>")
      with (str "<scr" ++ (str "<" ++ str "script") ++ str ">"
              ++ (str "</" ++ str "script" ++ str ">")
              ++ ((str "ipt>" ++ payload ++ str "</scr")
                    ++ (str "<" ++ str "script") ++ str ">"
                    ++ (str "</" ++ str "script" ++ str ">") ++ str "ipt>"))
      by (cbn [str list_ascii_of_string app]; now rewrite <- !app_assoc).
    destruct (replace_stretch "script" [] None (str "<scr")
                ((str "<" ++ str "script") ++ str ">"
                 ++ (str "</" ++ str "script" ++ str ">")
                 ++ ((str "ipt>" ++ payload ++ str "</scr")
                       ++ (str "<" ++ str "script") ++ str ">"
                       ++ (str "</" ++ str "script" ++ str ">") ++ str "ipt>")))
      as (p1 & ->); [reflexivity | apply (tail_safe_lt _ "<"%char); reflexivity |].
    destruct (replace_tag "script" script_word eq_refl [] p1 (str ">")
                ((str "ipt>" ++ payload ++ str "</scr")
                   ++ (str "<" ++ str "script") ++ str ">"
                   ++ (str "</" ++ str "script" ++ str ">") ++ str "ipt>"))
      as (p2 & ->); [reflexivity | reflexivity |].
    destruct (replace_stretch "script" [] p2 (str "ipt>" ++ payload ++ str "</scr")
                ((str "<" ++ str "script") ++ str ">"
                 ++ (str "</" ++ str "script" ++ str ">") ++ str "ipt>"))
      as (p3 & ->).
    { change (str "ipt>" ++ payload ++ str "</scr")
        with ("i"%char :: "p"%char :: "t"%char :: ">"%char :: payload ++ str "</scr").
      do 4 (rewrite includes_ci_step by reflexivity).
      exact (eq_trans (includes_ci_lacks payload (str "</scr") (str "script") Hlt) eq_refl). }
    { apply (tail_safe_lt _ "<"%char); reflexivity. }
    destruct (replace_tag "script" script_word eq_refl [] p3 (str ">") (str "ipt>"))
      as (p4 & ->); [reflexivity | reflexivity |].
    destruct (replace_stretch "script" [] p4 (str "ipt>") [])
      as (p5 & Hr); [reflexivity | apply tail_safe_nil |].
    rewrite app_nil_r in Hr. rewrite Hr, replace_from_end.
    cbn [app]. rewrite <- !app_assoc. reflexivity. }
  rewrite Hscript.
  assert (Hiframe :
    replace_from true iframe_re (constant []) None
      (str "<script>" ++ payload ++ str "</script>") 0
    = str "<script>" ++ payload ++ str "</script>").
  { unfold iframe_re.
    destruct (replace_stretch "iframe" [] None
                (str "<script>" ++ payload ++ str "</script>") [])
      as (p1 & Hr).
    - change (str "<script>" ++ payload ++ str "</script>")
        with ("<"%char :: "s"%char :: "c"%char :: "r"%char :: "i"%char :: "p"%char
                :: "t"%char :: ">"%char :: payload ++ str "</script>").
      do 8 (rewrite includes_ci_step by reflexivity).
      exact (eq_trans (includes_ci_lacks payload (str "</script>") (str "iframe") Hlt)
               eq_refl).
    - apply tail_safe_nil.
    - rewrite app_nil_r in Hr. rewrite Hr, replace_from_end. apply app_nil_r. }
  rewrite Hiframe.
  rewrite handler_pass.
  - apply (trim_wrapped (str "script>") payload (str "</script")).
  - apply lacks_quote_pairs. rewrite !lacks_app, Hq. reflexivity.
Qed.

Lemma sanitizeResponse_single_pass_witness :
  sanitizeResponse (str "<scr<script></script>ipt>alert(1)</scr<script></script>ipt>")
  = str "<script>alert(1)</script>".
Proof.
  apply (sanitizeResponse_single_pass (str "alert(1)")); reflexivity.
Defined.

(** *** No opening tag is left by [sanitizeCode] *)

Lemma includes_ci_app_l (p u v : text) :
  includes_ci (u ++ v) p = false -> includes_ci u p = false.
Proof.
  induction u as [|c u IH]; intros H.
  - destruct p as [|a p]; [destruct v; discriminate | reflexivity].
  - cbn [app] in H. apply includes_ci_cons in H as [Hs H].
    cbn [includes_ci]. rewrite (IH H), orb_false_r.
    destruct (starts true (c :: u) p) eqn:E; [|reflexivity].
    apply (starts_app true p (c :: u) v) in E. cbn [app] in E. congruence.
Qed.

Lemma tail_safe_marker (p tail : text) (m : ascii) :
  forallb (fun a => negb (char_eq true m a)) (tl p) = true ->
  tail_safe p (m :: tail).
Proof.
  intros Hp j Hj. destruct p as [|a q]; [simpl in Hj; lia|].
  destruct j as [|j]; [lia|]. cbn [skipn tl] in *. simpl in Hj.
  assert (Hgen : forall (q : text) j,
            (j < List.length q)%nat ->
            forallb (fun a => negb (char_eq true m a)) q = true ->
            starts true (m :: tail) (skipn j q) = false).
  { clear. induction q as [|a q IH]; intros j Hj Hq; [simpl in Hj; lia|].
    cbn [forallb] in Hq. apply andb_true_iff in Hq as [Ha Hq].
    destruct j as [|j]; cbn [skipn starts].
    - apply negb_true_iff in Ha. now rewrite Ha.
    - apply IH; [simpl in Hj; lia | exact Hq]. }
  apply Hgen; [lia | exact Hp].
Qed.

(** What follows a segment in the cleaned text begins with the bracket
    of a marker or is nothing, unless it is a stretch. *)
Lemma cleaned_tail_safe (p : text) (segs : list segment) :
  forallb (fun a => negb (char_eq true "[" a)) (tl p) = true ->
  is_plain segs = false ->
  tail_safe p (cleaned segs).
Proof.
  intros Hp Hplain. destruct segs as [|[t|inner|inner] segs].
  - apply tail_safe_nil.
  - discriminate.
  - apply (tail_safe_marker p _ "["%char Hp).
  - apply (tail_safe_marker p _ "["%char Hp).
Qed.

Lemma cleaned_no_tag (q : text) (segs : list segment) :
  forallb (fun a => negb (char_eq true "[" a)) q = true ->
  (forall t, no_tag t = true -> includes_ci t ("<"%char :: q) = false) ->
  segments_ok segs = true ->
  includes_ci (cleaned segs) ("<"%char :: q) = false.
Proof.
  intros Hq Hplain. induction segs as [|seg segs IH]; intros Hok; [reflexivity|].
  cbn [segments_ok] in Hok.
  apply andb_true_iff in Hok as [Hok Hrest].
  apply andb_true_iff in Hok as [Hseg Hnext]. apply negb_true_iff in Hnext.
  unfold cleaned. cbn [flat_map]. fold (cleaned segs).
  destruct seg as [t|inner|inner]; cbn [segment_cleaned segment_ok] in *.
  - apply includes_ci_app; [now apply Hplain | | now apply IH].
    apply cleaned_tail_safe; [exact Hq | exact Hnext].
  - rewrite includes_ci_lacks by reflexivity. now apply IH.
  - rewrite includes_ci_lacks by reflexivity. now apply IH.
Qed.

Lemma trim_inside (s : text) : exists sp sq, s = sp ++ trim s ++ sq.
Proof.
  destruct (trimStart_split s) as (sp & Hs & _).
  unfold trim, trimEnd.
  destruct (trimStart_split (rev (trimStart s))) as (sq & Hr & _).
  exists sp, (rev sq).
  apply (f_equal (@rev ascii)) in Hr. rewrite rev_involutive, rev_app_distr in Hr.
  now rewrite <- Hr.
Qed.

Lemma includes_ci_trim (s p : text) :
  includes_ci s p = false -> includes_ci (trim s) p = false.
Proof.
  intros H. destruct (trim_inside s) as (sp & sq & Hs). rewrite Hs in H.
  apply includes_ci_app_r in H. now apply includes_ci_app_l in H.
Qed.

(** X20. For a text made of script elements, iframe elements and
    stretches in which no element opens, what [sanitizeCode] gives holds
    no opening script tag and no opening iframe tag, in whatever mix of
    cases, and [sanitizeCode] leaves it as it is: cleaning twice is
    cleaning once. *)
Theorem sanitizeCode_settles (segs : list segment) :
  segments_ok segs = true ->
  includes_ci (sanitizeCode (source segs)) (str "<script") = false /\
  includes_ci (sanitizeCode (source segs)) (str "<iframe") = false /\
  sanitizeCode (sanitizeCode (source segs)) = sanitizeCode (source segs).
Proof.
  intros Hok.
  assert (Hclean : sanitizeCode (source segs) = trim (cleaned segs)).
  { unfold sanitizeCode, replaceAll. now rewrite script_pass, iframe_pass. }
  assert (Hs : includes_ci (trim (cleaned segs)) (str "<script") = false).
  { apply includes_ci_trim, cleaned_no_tag; [reflexivity | | exact Hok].
    intros t Ht. unfold no_tag in Ht. apply andb_true_iff in Ht as [Ht _].
    now apply negb_true_iff in Ht. }
  assert (Hi : includes_ci (trim (cleaned segs)) (str "<iframe") = false).
  { apply includes_ci_trim, cleaned_no_tag; [reflexivity | | exact Hok].
    intros t Ht. unfold no_tag in Ht. apply andb_true_iff in Ht as [_ Ht].
    now apply negb_true_iff in Ht. }
  rewrite Hclean. split; [exact Hs|]. split; [exact Hi|].
  assert (Hone : segments_ok [Plain (trim (cleaned segs))] = true).
  { cbn [segments_ok segment_ok is_plain]. unfold no_tag. now rewrite Hs, Hi. }
  assert (Hsrc : source [Plain (trim (cleaned segs))] = trim (cleaned segs)).
  { unfold source. cbn [flat_map segment_source]. apply app_nil_r. }
  rewrite <- Hsrc at 1. unfold sanitizeCode, replaceAll.
  rewrite script_pass, iframe_pass by exact Hone.
  unfold cleaned. cbn [flat_map segment_cleaned]. rewrite app_nil_r.
  apply trim_idempotent.
Qed.

Lemma sanitizeCode_settles_witness :
  let segs := [Plain (str "<scr"); Script (str ">"); Plain (str "ipt>alert(1)</scr");
               Script (str ">"); Plain (str "ipt>")] in
  source segs = str "<scr<script></script>ipt>alert(1)</scr<script></script>ipt>" /\
  includes_ci (sanitizeCode (source segs)) (str "<script") = false /\
  includes_ci (sanitizeCode (source segs)) (str "<iframe") = false /\
  sanitizeCode (sanitizeCode (source segs)) = sanitizeCode (source segs).
Proof.
  intros segs. split; [reflexivity|].
  apply (sanitizeCode_settles segs). reflexivity.
Defined.

(** *** Severity and classification *)

Lemma includes_padded (pre s post p : text) :
  includes s p = true -> includes (pre ++ s ++ post) p = true.
Proof.
  rewrite !includes_spec. intros (a & b & ->).
  exists (pre ++ a), (b ++ post). now rewrite <- !app_assoc.
Qed.

(** X21. Text around a response can only raise its severity: whatever
    is put before and after it, the severity of the whole is at least the
    severity of the response. *)
Theorem extractSeverity_monotone (pre response post : text) :
  (severity_rank (extractSeverity response)
   <= severity_rank (extractSeverity (pre ++ response ++ post)))%nat.
Proof.
  unfold extractSeverity. rewrite !toLowerCase_app.
  set (l := toLowerCase response).
  set (l' := toLowerCase pre ++ l ++ toLowerCase post).
  assert (Hup : forall p, includes l p = true -> includes l' p = true)
    by (intros p; apply includes_padded).
  destruct (includes l (str "critical")) eqn:C1;
    [rewrite (Hup _ C1); cbn [orb severity_rank]; lia|].
  destruct (includes l (str "security vulnerability")) eqn:C2;
    [rewrite (Hup _ C2), ?orb_true_r; cbn [orb severity_rank]; lia|].
  destruct (includes l (str "sql injection")) eqn:C3;
    [rewrite (Hup _ C3), ?orb_true_r; cbn [orb severity_rank]; lia|].
  destruct (includes l (str "xss")) eqn:C4;
    [rewrite (Hup _ C4), ?orb_true_r; cbn [orb severity_rank]; lia|].
  cbn [orb].
  destruct (includes l' (str "critical") || includes l' (str "security vulnerability")
            || includes l' (str "sql injection") || includes l' (str "xss"));
    [destruct (_ || _ || _); cbn [severity_rank]; lia|].
  destruct (includes l (str "warning")) eqn:W1;
    [rewrite (Hup _ W1); cbn [orb severity_rank]; lia|].
  destruct (includes l (str "bug")) eqn:W2;
    [rewrite (Hup _ W2), ?orb_true_r; cbn [orb severity_rank]; lia|].
  destruct (includes l (str "issue")) eqn:W3;
    [rewrite (Hup _ W3), ?orb_true_r; cbn [orb severity_rank]; lia|].
  cbn [orb severity_rank]. lia.
Qed.

(** X22. White space around the input plays no part in [isCode]: the
    input with white space before and after it is classified as the input
    itself, and so is the trimmed input. *)
Theorem isCode_padding (pre input post : text) :
  forallb is_space pre = true -> forallb is_space post = true ->
  isCode (pre ++ input ++ post) = isCode input /\ isCode (trim input) = isCode input.
Proof.
  intros Hpre Hpost. unfold isCode.
  rewrite trim_padded by assumption. rewrite trim_idempotent. split; reflexivity.
Qed.

Lemma isCode_padding_witness :
  isCode (str "  " ++ str "function f(){ return 1 }" ++ [nl])
    = isCode (str "function f(){ return 1 }") /\
  isCode (trim (str "function f(){ return 1 }")) = isCode (str "function f(){ return 1 }").
Proof.
  apply (isCode_padding (str "  ") (str "function f(){ return 1 }") [nl]); reflexivity.
Defined.

End TextualProps.

(** ** A turn, seen from outside *)

Module TurnProps.

Import ChatRoutes SessionProps ChatProps RegExpProps FormatProps BuiltinsProps.
Local Open Scope Z_scope.

(** X23. Every turn sends exactly one request to the completion API,
    and the request has one shape: the system prompt of the branch at its
    head, the user prompt at its end, and between them the messages of the
    session of the turn, in their order and without those of the role
    system.  The session of the turn is the one that the lookup finds;
    where the lookup fails (as it does without a store) it is a new one,
    and nothing stands between the two prompts. *)
Theorem request_shape (E : Env) (contextService : Methods) (kv_bound : bool)
    (sid code : text) (language userContext : option text) (w : World) :
  exists out w' session answered w0,
    processCodeReview E contextService kv_bound sid code language userContext w
      = (out, w') /\
    find_or_create E kv_bound sid w = (inr (session, answered), w0) /\
    calls w' = calls w ++
      [{| msg_role := system;
          content := fst (prompts contextService code language userContext) |}
       :: List.filter (fun msg => match msg_role msg with system => false | _ => true end)
            (messages session)
       ++ [{| msg_role := user;
              content := snd (prompts contextService code language userContext) |}]] /\
    (forall found w1,
       getSession E kv_bound sid w = (inr found, w1) -> session = found) /\
    (forall e w1,
       getSession E kv_bound sid w = (inl e, w1) -> messages session = []) /\
    (kv_bound = false -> messages session = []).
Proof.
  destruct (find_or_create_ok E kv_bound sid w) as ([session answered] & w0 & Hf & Hc).
  pose proof (processCodeReview_run E contextService kv_bound sid code language
                userContext w _ _ Hf) as Hp.
  cbn zeta in Hp. cbn [fst snd] in Hp.
  assert (Hfail : forall e w1,
            getSession E kv_bound sid w = (inl e, w1) -> messages session = []).
  { intros e w1 Hget.
    destruct (find_or_create_failed E kv_bound sid w _ _ Hget)
      as (s & w2 & _ & Hf' & _ & Hms & _).
    rewrite Hf in Hf'. now injection Hf' as -> _ _. }
  exists (fst (processCodeReview E contextService kv_bound sid code language
                 userContext w)),
         (snd (processCodeReview E contextService kv_bound sid code language
                 userContext w)), session, answered, w0.
  split; [now destruct (processCodeReview _ _ _ _ _ _ _ _)|].
  split; [exact Hf|]. split; [|split; [|split]].
  - change ({| msg_role := system;
               content := fst (prompts contextService code language userContext) |}
            :: List.filter
                 (fun msg => match msg_role msg with system => false | _ => true end)
                 (messages session)
            ++ [{| msg_role := user;
                   content := snd (prompts contextService code language userContext) |}])
      with (request contextService session code language userContext).
    rewrite Hp.
    destruct (create E _) as [m|[|[[|c0 r0]|] cs]]; cbn [snd];
      rewrite ?updateSession_calls; cbn [calls sent]; now rewrite Hc.
  - intros found w1 Hget.
    rewrite (find_or_create_found E kv_bound sid w found w1 Hget) in Hf.
    now injection Hf as -> _ _.
  - exact Hfail.
  - intros Hb.
    apply (Hfail (SessionError (str "Session storage not available")) w).
    now apply getSession_unbound.
Qed.

(** A response of white space comes out of the sanitizer empty. *)
Lemma space_not_special (c : ascii) :
  is_space c = true ->
  negb (char_eq true c "<") = true /\ negb (Ascii.eqb c dquote) = true.
Proof.
  destruct c as [[] [] [] [] [] [] [] []]; intros H;
    first [discriminate H | repeat split].
Qed.

Lemma sanitizeResponse_blank (raw : text) :
  forallb is_space raw = true -> sanitizeResponse raw = [].
Proof.
  intros Hsp.
  assert (Hlt : forallb (fun c => negb (char_eq true c "<")) raw = true).
  { apply forallb_forall. intros c Hin.
    apply space_not_special. revert c Hin. now apply forallb_forall. }
  assert (Hq : lacks dquote raw = true).
  { apply forallb_forall. intros c Hin.
    apply space_not_special. revert c Hin. now apply forallb_forall. }
  unfold sanitizeResponse, replaceAll, script_re, iframe_re.
  rewrite (needs_first_pass true (tag_block "script") _ "<" raw None (tag_first _) Hlt).
  rewrite (needs_first_pass true (tag_block "iframe") _ "<" raw None (tag_first _) Hlt).
  rewrite handler_pass by now apply lacks_quote_pairs.
  unfold trim. rewrite <- (app_nil_r raw), trimStart_spaces by exact Hsp. reflexivity.
Qed.

(** X24. The review that a turn answers neither begins nor ends with
    white space, and it can be empty: a completion whose first content is
    nothing but white space gets past the check for an empty response,
    the turn succeeds, and the review it reports is the empty string. *)
Theorem review_trimmed (E : Env) (contextService : Methods) (kv_bound : bool)
    (sid code : text) (language userContext : option text) (w : World) :
  (forall rv w',
     processCodeReview E contextService kv_bound sid code language userContext w
       = (inr rv, w') ->
     trim (review rv) = review rv) /\
  (forall found w0 raw others,
     find_or_create E kv_bound sid w = (inr found, w0) ->
     create E (request contextService (fst found) code language userContext)
       = Choices (Some raw :: others) ->
     raw <> [] ->
     forallb is_space raw = true ->
     exists rv w',
       processCodeReview E contextService kv_bound sid code language userContext w
         = (inr rv, w') /\
       review rv = []).
Proof.
  destruct (find_or_create_ok E kv_bound sid w) as (found & w0 & Hf & _).
  pose proof (processCodeReview_run E contextService kv_bound sid code language
                userContext w _ _ Hf) as Hp.
  cbn zeta in Hp. split.
  - intros rv w' Hrun. rewrite Hrun in Hp.
    destruct (create E _) as [m|[|[[|c0 r0]|] cs]] in Hp; try discriminate.
    injection Hp as -> _. cbn [review].
    unfold sanitizeResponse. apply trim_idempotent.
  - intros found' w0' raw others Hf' Hcreate Hne Hblank.
    rewrite Hf in Hf'. injection Hf' as <- <-.
    destruct raw as [|c0 r0]; [contradiction|].
    rewrite Hcreate in Hp. do 2 eexists. split; [exact Hp|].
    cbn [review]. now apply sanitizeResponse_blank.
Qed.

(** A turn whose completion is three spaces. *)
Lemma review_trimmed_witness :
  exists rv w',
    processCodeReview (answering (str "   ")) createContextService true (str "abc")
      (str "hello, how are you?") None None empty_world = (inr rv, w') /\
    review rv = [] /\ trim (review rv) = review rv.
Proof.
  destruct (review_trimmed (answering (str "   ")) createContextService true (str "abc")
              (str "hello, how are you?") None None empty_world) as [Htrim Hblank].
  destruct (find_or_create (answering (str "   ")) true (str "abc") empty_world)
    as [[e|found] w0] eqn:Hf; [vm_compute in Hf; discriminate|].
  destruct (Hblank found w0 (str "   ") [] eq_refl eq_refl) as (rv & w' & Hrun & Hrv).
  - discriminate.
  - reflexivity.
  - exists rv, w'. split; [exact Hrun|]. split; [exact Hrv|]. now apply (Htrim rv w').
Defined.

(** X25. The checks of POST /review, for a body that is not null.
    Where the configured maximum is read by [parseInt] as a number, they
    agree with [validateCodeLength]: the route fails with a
    [ValidationError] exactly when the field [code] is not a string that
    [validateCodeLength] accepts for that maximum and that has something
    left when trimmed.  Where the setting is read as NaN (the entry point
    of the development server does not validate the configuration), the
    route checks no length at all: it fails with a [ValidationError]
    exactly when the field is not a string with something left when
    trimmed. *)
Theorem review_checks_length (E : Env) (contextService : Methods) (kv_bound : bool)
    (maxCodeLength : option Z) (body : json) (w : World) :
  body <> JNull ->
  (forall maximum,
     maxCodeLength = Some maximum ->
     ((exists m w', post_review E contextService kv_bound maxCodeLength body w
                    = (inl (ValidationError m), w'))
      <-> ~ exists code,
            property (str "code") body = Some (JStr code) /\
            validateCodeLength code maximum = true /\ trim code <> [])) /\
  (maxCodeLength = None ->
   ((exists m w', post_review E contextService kv_bound maxCodeLength body w
                  = (inl (ValidationError m), w'))
    <-> ~ exists code,
          property (str "code") body = Some (JStr code) /\ trim code <> [])).
Proof.
  intros Hnull.
  destruct (post_review_validation E contextService kv_bound maxCodeLength body w Hnull)
    as [Hiff _].
  split.
  - intros maximum ->. rewrite Hiff. unfold code_rejected, validateCodeLength, exceeds.
    destruct (property (str "code") body) as [[|b|z|s|items|fields]|].
    all: try (split; [intros _ (code & H & _); discriminate | trivial]).
    split.
    + intros [Hempty | Hlong] (code & [= <-] & Hval & Hne); [contradiction|].
      apply andb_true_iff in Hval as [_ Hval]. apply Z.leb_le in Hval.
      apply Z.gtb_gt in Hlong. lia.
    + intros Hno. destruct (trim s) as [|c t] eqn:Ht; [now left|]. right.
      destruct (Z.gtb_spec (Z.of_nat (List.length s)) maximum) as [Hgt|Hle];
        [reflexivity|].
      exfalso. apply Hno. exists s. split; [reflexivity|].
      split; [|rewrite Ht; discriminate].
      apply andb_true_iff. split; [|now apply Z.leb_le].
      apply Z.ltb_lt. destruct s; [discriminate | simpl; lia].
  - intros ->. rewrite Hiff. unfold code_rejected, exceeds.
    destruct (property (str "code") body) as [[|b|z|s|items|fields]|].
    all: try (split; [intros _ (code & H & _); discriminate | trivial]).
    split.
    + intros [Hempty | Hlong] (code & [= <-] & Hne); [contradiction | discriminate].
    + intros Hno. destruct (trim s) as [|c t] eqn:Ht; [now left|].
      exfalso. apply Hno. exists s. split; [reflexivity|]. rewrite Ht. discriminate.
Qed.

Lemma review_checks_length_witness :
  ((exists m w',
      post_review sample_env createContextService true (Some 10)
        (JObj [(str "code", JStr (str "const answer = 42;"))]) empty_world
      = (inl (ValidationError m), w'))
   <-> ~ exists code,
         property (str "code") (JObj [(str "code", JStr (str "const answer = 42;"))])
           = Some (JStr code) /\
         validateCodeLength code 10 = true /\ trim code <> []) /\
  ((exists m w',
      post_review sample_env createContextService true None
        (JObj [(str "code", JStr (str "const answer = 42;"))]) empty_world
      = (inl (ValidationError m), w'))
   <-> ~ exists code,
         property (str "code") (JObj [(str "code", JStr (str "const answer = 42;"))])
           = Some (JStr code) /\ trim code <> []).
Proof.
  split.
  - apply (proj1 (review_checks_length sample_env createContextService true (Some 10)
                    (JObj [(str "code", JStr (str "const answer = 42;"))]) empty_world
                    ltac:(discriminate)) 10).
    reflexivity.
  - apply (proj2 (review_checks_length sample_env createContextService true None
                    (JObj [(str "code", JStr (str "const answer = 42;"))]) empty_world
                    ltac:(discriminate))).
    reflexivity.
Defined.

(** X27. A turn touches the store at one key only, the key of the
    session it works on (the one found, or the one made in its place):
    every other entry is after the turn what it was before, whether the
    turn succeeds or fails. *)
Theorem turn_frame (E : Env) (contextService : Methods) (kv_bound : bool)
    (sid code : text) (language userContext : option text) (w : World) :
  exists out w' session answered w0,
    processCodeReview E contextService kv_bound sid code language userContext w
      = (out, w') /\
    find_or_create E kv_bound sid w = (inr (session, answered), w0) /\
    forall key, key <> key_of (id session) -> kv w' !! key = kv w !! key.
Proof.
  destruct (getSession_cases E kv_bound sid w) as (w1 & Hkv1 & _ & _ & Hcase).
  assert (Hfound : exists session answered w0,
            find_or_create E kv_bound sid w = (inr (session, answered), w0) /\
            forall key, key <> key_of (id session) -> kv w0 !! key = kv w !! key).
  { destruct Hcase as [[m Hget] | [s Hget]].
    - destruct (find_or_create_failed E kv_bound sid w _ _ Hget)
        as (s & w2 & Hs & Hf & _).
      exists s, (id s), w2. split; [exact Hf|]. intros key Hne.
      unfold createSession, kv_put, bind, Effects.now, uuid, get_kv, set_kv, ret in Hs.
      destruct kv_bound; cbn [kv reads draws calls] in Hs; injection Hs as Hs <-;
        cbn [kv]; rewrite <- Hkv1; [|reflexivity].
      apply lookup_insert_ne. rewrite <- Hs in Hne. cbn [id] in Hne. congruence.
    - exists s, sid, w1. split; [now apply find_or_create_found|].
      intros key _. now rewrite Hkv1. }
  destruct Hfound as (session & answered & w0 & Hf & Hframe).
  pose proof (processCodeReview_run E contextService kv_bound sid code language
                userContext w _ _ Hf) as Hp.
  cbn zeta in Hp. cbn [fst snd] in Hp.
  exists (fst (processCodeReview E contextService kv_bound sid code language
                 userContext w)),
         (snd (processCodeReview E contextService kv_bound sid code language
                 userContext w)), session, answered, w0.
  split; [now destruct (processCodeReview _ _ _ _ _ _ _ _)|]. split; [exact Hf|].
  intros key Hne. rewrite Hp.
  destruct (create E _) as [m|[|[[|c0 r0]|] cs]]; cbn [snd kv sent];
    try (now apply Hframe).
  destruct kv_bound.
  - rewrite updateSession_bound by reflexivity. cbn [snd kv sent id with_messages].
    rewrite lookup_insert_ne by congruence. now apply Hframe.
  - rewrite updateSession_unbound by reflexivity. cbn [snd kv sent]. now apply Hframe.
Qed.

End TurnProps.

(** ** The suggestions of a response *)

Module SuggestionProps.

Import RegExpProps FormatProps.

Lemma digit_cls c : cls_match false false [IRange "0" "9"] c = is_digit c.
Proof. unfold cls_match. cbn [existsb item_match xorb]. now rewrite orb_false_r. Qed.

Lemma space_cls c : cls_match false false [ISpace] c = is_space c.
Proof. unfold cls_match. cbn [existsb item_match xorb]. now rewrite orb_false_r. Qed.

Lemma dot_cls c :
  cls_match false true [IChar "010"; IChar "013"] c = negb (line_terminator c).
Proof. by_code_unit c. Qed.

Lemma forallb_impl {A} (f g : A -> bool) (l : list A) :
  (forall a, f a = true -> g a = true) -> forallb f l = true -> forallb g l = true.
Proof.
  intros Hfg. induction l as [|a l IH]; [reflexivity|]. cbn [forallb].
  intros H. apply andb_true_iff in H as [Ha H]. now rewrite (Hfg a Ha), IH.
Qed.

(** One or more code units of a class, as many as there are. *)
Lemma plus_class neg items k (c : ascii) (run tail : text) st res :
  rest st = c :: run ++ tail ->
  cls_match false neg items c = true ->
  forallb (cls_match false neg items) run = true ->
  match tail with [] => True | d :: _ => cls_match false neg items d = false end ->
  k (advance_by (S (List.length run)) st) = Some res ->
  rmatch false (Plus (Cls neg items)) st k = Some res.
Proof.
  intros Hst Hc Hrun Htail Hk. unfold Plus.
  rewrite rmatch_Seq, rmatch_Cls, Hst, Hc, rmatch_Star.
  apply (star_class_greedy false neg items k run tail); trivial.
  - cbn [rest advance]. rewrite length_app. lia.
  - cbn [advance_by] in Hk. now rewrite Hst in Hk.
Qed.

(** The white space and the text of an entry, up to the end of the
    line. *)
Lemma gap_item_match (e : listed) (tail : text) st :
  listed_ok e = true ->
  rest st = gap e ++ item e ++ tail ->
  match tail with [] => True | d :: _ => line_terminator d = true end ->
  exists res,
    rmatch false (Seq (Plus s_) (Group 1 (Plus dot))) st line_end_check = Some res /\
    idx res = (idx st + List.length (gap e) + List.length (item e))%nat /\
    caps res = (1%nat, item e) :: caps st.
Proof.
  unfold listed_ok. intros Hok Hst Htail.
  apply andb_true_iff in Hok as [Hok Hitem].
  apply andb_true_iff in Hok as [Hok Hhead].
  apply andb_true_iff in Hok as [Hne Hgap].
  destruct (gap e) as [|g gs]; [discriminate|]. clear Hne.
  destruct (item e) as [|c r]; [discriminate|].
  cbn [forallb] in Hgap, Hitem.
  apply andb_true_iff in Hgap as [Hg Hgs]. apply andb_true_iff in Hg as [Hg _].
  apply andb_true_iff in Hitem as [Hc Hr].
  destruct (advance_by_rest (g :: gs) ((c :: r) ++ tail) st Hst)
    as (Hr1 & Hi1 & Hc1 & _).
  set (st1 := advance_by (List.length (g :: gs)) st) in *.
  destruct (advance_by_rest (c :: r) tail st1 Hr1) as (Hr2 & Hi2 & Hc2 & _).
  set (st2 := advance_by (List.length (c :: r)) st1) in *.
  exists (set_cap 1 (c :: r) st2). split; [|split].
  - rewrite rmatch_Seq. unfold s_.
    apply (plus_class false [ISpace] _ g gs ((c :: r) ++ tail)).
    + exact Hst.
    + now rewrite space_cls.
    + apply (forallb_impl (fun c => is_space c && negb (line_terminator c))); [|exact Hgs].
      intros a Ha. apply andb_true_iff in Ha as [Ha _]. now rewrite space_cls.
    + cbn [app]. rewrite space_cls. now apply negb_true_iff.
    + change (advance_by (S (List.length gs)) st) with st1.
      rewrite rmatch_Group. unfold dot.
      apply (plus_class true [IChar "010"; IChar "013"] _ c r tail).
      * exact Hr1.
      * now rewrite dot_cls.
      * apply (forallb_impl (fun c => negb (line_terminator c))); [|exact Hr].
        intros a Ha. now rewrite dot_cls.
      * destruct tail as [|d tail]; [exact I|]. now rewrite dot_cls, Htail.
      * change (advance_by (S (List.length r)) st1) with st2.
        rewrite Hi2, Hr1.
        replace (idx st1 + List.length (c :: r) - idx st1)%nat
          with (List.length (c :: r)) by lia.
        rewrite firstn_app, firstn_all, Nat.sub_diag. cbn [firstn].
        rewrite app_nil_r. unfold line_end_check, at_line_end. cbn [rest set_cap]. rewrite Hr2.
        destruct tail as [|d tail]; [reflexivity | now rewrite Htail].
  - cbn [idx set_cap]. rewrite Hi2, Hi1. lia.
  - cbn [caps set_cap]. now rewrite Hc2, Hc1.
Qed.

Lemma numbered_match (e : listed) prev (tail : text) :
  at_line_start prev = true ->
  numbered_ok e = true ->
  match tail with [] => True | d :: _ => line_terminator d = true end ->
  exists st,
    match_line numbered_body prev (numbered_line e ++ tail) = Some st /\
    idx st = List.length (numbered_line e) /\
    cap_or_empty 1 (caps st) = item e.
Proof.
  unfold numbered_ok, numbered_line, match_line. intros -> Hok Htail.
  apply andb_true_iff in Hok as [Hok Hds].
  apply andb_true_iff in Hok as [Hok Hne].
  destruct (label e) as [|d ds] eqn:Hlabel; [discriminate|]. clear Hne.
  cbn [forallb] in Hds. apply andb_true_iff in Hds as [Hd Hds].
  set (s := ((d :: ds) ++ "."%char :: gap e ++ item e) ++ tail).
  set (st0 := start_state prev s).
  assert (Hst0 : rest st0 = (d :: ds) ++ "."%char :: gap e ++ item e ++ tail).
  { subst st0 s. cbn [rest start_state].
    repeat (rewrite <- app_assoc || rewrite <- app_comm_cons). reflexivity. }
  destruct (advance_by_rest (d :: ds) _ st0 Hst0) as (Hr1 & Hi1 & Hc1 & _).
  set (st1 := advance_by (List.length (d :: ds)) st0) in *.
  set (st2 := advance "."%char (gap e ++ item e ++ tail) st1).
  destruct (gap_item_match e tail st2 Hok eq_refl Htail) as (res & Hres & Hidx & Hcaps).
  exists res. split; [|split].
  - unfold numbered_body. rewrite rmatch_Seq. unfold digit.
    apply (plus_class false [IRange "0" "9"] _ d ds
             ("."%char :: gap e ++ item e ++ tail)).
    + exact Hst0.
    + now rewrite digit_cls.
    + apply (forallb_impl is_digit); [|exact Hds]. intros a Ha. now rewrite digit_cls.
    + reflexivity.
    + change (advance_by (S (List.length ds)) st0) with st1.
      rewrite rmatch_Seq, rmatch_Chr, Hr1. cbn [char_eq]. rewrite Ascii.eqb_refl.
      exact Hres.
  - rewrite Hidx. subst st2. cbn [idx advance]. rewrite Hi1. subst st0.
    cbn [idx start_state]. rewrite !length_app. cbn [List.length].
    rewrite length_app. lia.
  - unfold cap_or_empty. rewrite Hcaps. reflexivity.
Qed.

Lemma bullet_match (e : listed) prev (tail : text) :
  at_line_start prev = true ->
  bullet_ok e = true ->
  match tail with [] => True | d :: _ => line_terminator d = true end ->
  exists st,
    match_line bullet_body prev (bullet_line e ++ tail) = Some st /\
    idx st = List.length (bullet_line e) /\
    cap_or_empty 1 (caps st) = item e.
Proof.
  unfold bullet_ok, bullet_line, match_line. intros -> Hok Htail.
  apply andb_true_iff in Hok as [Hok Hm].
  destruct (label e) as [|m [|? ?]] eqn:Hlabel; try discriminate.
  set (s := ([m] ++ gap e ++ item e) ++ tail).
  set (st0 := start_state prev s).
  set (st1 := advance m (gap e ++ item e ++ tail) st0).
  destruct (gap_item_match e tail st1 Hok eq_refl Htail) as (res & Hres & Hidx & Hcaps).
  exists res. split; [|split].
  - unfold bullet_body. rewrite rmatch_Seq, rmatch_Cls.
    subst st0 s. cbn [rest start_state app]. rewrite <- !app_assoc.
    replace (cls_match false false (chars "-*") m) with true.
    + exact Hres.
    + symmetry. unfold cls_match, chars.
      cbn [str list_ascii_of_string map existsb item_match char_eq xorb].
      now rewrite orb_false_r.
  - rewrite Hidx. subst st1 st0. cbn [idx advance start_state].
    cbn [app List.length]. rewrite length_app. lia.
  - unfold cap_or_empty. rewrite Hcaps. reflexivity.
Qed.

(** *** A match takes something *)

Lemma star_loop_reaches greedy
    (m : mstate -> (mstate -> option mstate) -> option mstate) k :
  (forall st k' res, m st k' = Some res ->
     exists st', (idx st <= idx st')%nat /\ k' st' = Some res) ->
  forall fuel st res,
    star_loop greedy m k fuel st = Some res ->
    exists st', (idx st <= idx st')%nat /\ k st' = Some res.
Proof.
  intros Hm. induction fuel as [|fuel IH]; intros st res H.
  - exists st. split; [lia | exact H].
  - rewrite star_loop_S in H. cbv zeta in H.
    assert (Hagain : forall res',
              m st (fun st1 => if (idx st1 =? idx st)%nat then None
                               else star_loop greedy m k fuel st1) = Some res' ->
              exists st', (idx st <= idx st')%nat /\ k st' = Some res').
    { intros res' Ha. apply Hm in Ha as (st1 & Hle & Ha).
      destruct (idx st1 =? idx st)%nat; [discriminate|].
      apply IH in Ha as (st' & Hle' & Hk). exists st'. split; [lia | exact Hk]. }
    destruct greedy.
    + destruct (m st _) as [r|] eqn:Ha.
      * injection H as <-. now apply Hagain.
      * exists st. split; [lia | exact H].
    + destruct (k st) as [r|] eqn:Hk.
      * injection H as <-. exists st. split; [lia | exact Hk].
      * now apply Hagain.
Qed.

(** Whatever a pattern matches, what comes after it is run at a place
    that is not before the place of the attempt. *)
Lemma rmatch_reaches (r : regex) : forall st k res,
  rmatch false r st k = Some res ->
  exists st', (idx st <= idx st')%nat /\ k st' = Some res.
Proof.
  induction r as [|a|neg items|r1 IH1 r2 IH2|r1 IH1 r2 IH2|greedy r1 IH1
                  |n r1 IH1| |r1 IH1]; intros st k res H.
  - exists st. split; [lia | exact H].
  - rewrite rmatch_Chr in H. destruct (rest st) as [|c s']; [discriminate|].
    destruct (char_eq false c a); [|discriminate].
    eexists. split; [|exact H]. cbn [idx advance]. lia.
  - rewrite rmatch_Cls in H. destruct (rest st) as [|c s']; [discriminate|].
    destruct (cls_match false neg items c); [|discriminate].
    eexists. split; [|exact H]. cbn [idx advance]. lia.
  - rewrite rmatch_Seq in H. apply IH1 in H as (st1 & Hle & H).
    apply IH2 in H as (st2 & Hle' & H). exists st2. split; [lia | exact H].
  - rewrite rmatch_Alt in H. destruct (rmatch false r1 st k) as [r|] eqn:H1.
    + injection H as <-. now apply IH1.
    + now apply IH2.
  - rewrite rmatch_Star in H. revert H. now apply star_loop_reaches.
  - rewrite rmatch_Group in H. apply IH1 in H as (st1 & Hle & H).
    eexists. split; [|exact H]. cbn [idx set_cap]. exact Hle.
  - rewrite rmatch_WordB in H. destruct (xorb _ _); [|discriminate].
    exists st. split; [lia | exact H].
  - rewrite rmatch_NegLook in H. destruct (rmatch false r1 st Some); [discriminate|].
    exists st. split; [lia | exact H].
Qed.

(** A match of either pattern takes at least one code unit, so that the
    loop moves on. *)
Lemma match_line_takes (body : regex) prev (s : text) st :
  body = numbered_body \/ body = bullet_body ->
  match_line body prev s = Some st -> (0 < idx st)%nat.
Proof.
  unfold match_line. destruct (at_line_start prev); [|discriminate].
  assert (Hend : forall st0 st', (1 <= idx st0)%nat ->
            forall r, rmatch false r st0 line_end_check = Some st' -> (0 < idx st')%nat).
  { intros st0 st' H0 r H. apply rmatch_reaches in H as (st1 & Hle & H).
    unfold line_end_check in H. destruct (at_line_end st1); [|discriminate].
    injection H as <-. lia. }
  intros [-> | ->] H.
  - unfold numbered_body, Plus, digit in H. rewrite !rmatch_Seq, rmatch_Cls in H.
    cbn [rest start_state] in H. destruct s as [|c s']; [discriminate|].
    destruct (cls_match _ _ _ c); [|discriminate].
    apply rmatch_reaches in H as (st1 & Hle & H). cbn [idx advance start_state] in Hle.
    revert H. apply Hend. lia.
  - unfold bullet_body in H. rewrite rmatch_Seq, rmatch_Cls in H.
    cbn [rest start_state] in H. destruct s as [|c s']; [discriminate|].
    destruct (cls_match _ _ _ c); [|discriminate].
    revert H. apply Hend. cbn [idx advance start_state]. lia.
Qed.

(** *** The loop *)

Lemma exec_all_skip body (a : text) : forall prev b,
  exec_all body prev (a ++ b) (List.length a) = exec_all body (prev_after prev a) b 0.
Proof.
  induction a as [|c a IH]; intros prev b; [reflexivity|]. apply IH.
Qed.

Lemma exec_all_match body prev (m post : text) st :
  match_line body prev (m ++ post) = Some st ->
  idx st = List.length m -> m <> [] ->
  exec_all body prev (m ++ post) 0
    = trim (cap_or_empty 1 (caps st)) :: exec_all body (prev_after prev m) post 0.
Proof.
  intros Hm Hidx Hne. destruct m as [|c m]; [contradiction|].
  cbn [app exec_all]. cbn [app] in Hm. rewrite Hm, Hidx. cbn [List.length].
  f_equal. rewrite exec_all_skip. reflexivity.
Qed.

Lemma exec_all_nomatch body prev c (s : text) :
  match_line body prev (c :: s) = None ->
  exec_all body prev (c :: s) 0 = exec_all body (Some c) s 0.
Proof. intros H. cbn [exec_all]. now rewrite H. Qed.

Lemma prev_after_app prev (a b : text) :
  prev_after prev (a ++ b) = prev_after (prev_after prev a) b.
Proof. apply fold_left_app. Qed.

(** Inside a line no attempt starts. *)
Lemma prev_after_inside (t : text) : forall prev,
  at_line_start prev = false ->
  forallb (fun c => negb (line_terminator c)) t = true ->
  at_line_start (prev_after prev t) = false.
Proof.
  induction t as [|c t IH]; intros prev Hprev Ht; [exact Hprev|].
  cbn [forallb] in Ht. apply andb_true_iff in Ht as [Hc Ht].
  apply (IH (Some c)); [now apply negb_true_iff in Hc | exact Ht].
Qed.

Lemma exec_all_inside body (t : text) : forall prev tail,
  at_line_start prev = false ->
  forallb (fun c => negb (line_terminator c)) t = true ->
  exec_all body prev (t ++ tail) 0 = exec_all body (prev_after prev t) tail 0.
Proof.
  induction t as [|c t IH]; intros prev tail Hprev Ht; [reflexivity|].
  cbn [forallb] in Ht. apply andb_true_iff in Ht as [Hc Ht].
  cbn [app]. rewrite exec_all_nomatch by (unfold match_line; now rewrite Hprev).
  apply (IH (Some c)); [now apply negb_true_iff in Hc | exact Ht].
Qed.

Lemma listed_inside (e : listed) :
  listed_ok e = true ->
  forallb (fun c => negb (line_terminator c)) (gap e ++ item e) = true /\ item e <> [].
Proof.
  unfold listed_ok. intros Hok.
  apply andb_true_iff in Hok as [Hok Hitem].
  apply andb_true_iff in Hok as [Hok Hhead].
  apply andb_true_iff in Hok as [_ Hgap].
  split.
  - rewrite forallb_app, Hitem, andb_true_r.
    apply (forallb_impl (fun c => is_space c && negb (line_terminator c))); [|exact Hgap].
    intros a Ha. now apply andb_true_iff in Ha as [_ Ha].
  - destruct (item e); [discriminate | discriminate].
Qed.

(** Behind an entry the position is inside the line, whatever stands
    before the text of the entry. *)
Lemma after_item prev (pre : text) (e : listed) :
  listed_ok e = true ->
  at_line_start (prev_after prev (pre ++ item e)) = false.
Proof.
  unfold listed_ok. intros Hok.
  apply andb_true_iff in Hok as [Hok Hitem].
  rewrite prev_after_app.
  destruct (item e) as [|c r]; [now rewrite !andb_false_r in Hok|].
  cbn [forallb] in Hitem. apply andb_true_iff in Hitem as [Hc Hr].
  change (prev_after (prev_after prev pre) (c :: r)) with (prev_after (Some c) r).
  apply prev_after_inside; [now apply negb_true_iff in Hc | exact Hr].
Qed.

Lemma exec_all_end_numbered prev : exec_all numbered_body prev [] 0 = [].
Proof. cbn [exec_all]. unfold match_line. now destruct (at_line_start prev). Qed.

Lemma exec_all_end_bullet prev : exec_all bullet_body prev [] 0 = [].
Proof. cbn [exec_all]. unfold match_line. now destruct (at_line_start prev). Qed.

Lemma lines_of_cons (l : text) (ls : list text) :
  lines_of (l :: ls) = match ls with [] => l ++ [] | _ :: _ => l ++ nl :: lines_of ls end.
Proof. destruct ls; [symmetry; apply app_nil_r | reflexivity]. Qed.

Lemma numbered_lines (entries : list listed) : forall prev,
  at_line_start prev = true ->
  forallb numbered_ok entries = true ->
  exec_all numbered_body prev (lines_of (map numbered_line entries)) 0
    = map (fun e => trim (item e)) entries.
Proof.
  induction entries as [|e es IH]; intros prev Hprev Hall.
  - apply exec_all_end_numbered.
  - cbn [forallb] in Hall. apply andb_true_iff in Hall as [He Hes].
    assert (Hok : listed_ok e = true).
    { unfold numbered_ok in He. apply andb_true_iff in He as [He _].
      now apply andb_true_iff in He as [He _]. }
    assert (Hne : numbered_line e <> []).
    { unfold numbered_line. destruct (label e); discriminate. }
    assert (Hafter : at_line_start (prev_after prev (numbered_line e)) = false).
    { unfold numbered_line.
      replace (label e ++ "."%char :: gap e ++ item e)
        with ((label e ++ "."%char :: gap e) ++ item e)
        by now rewrite <- app_assoc.
      now apply after_item. }
    cbn [map]. rewrite lines_of_cons.
    destruct (map numbered_line es) as [|l ls] eqn:Hmap.
    + destruct es; [|discriminate].
      destruct (numbered_match e prev [] Hprev He I) as (st & Hm & Hidx & Hcap).
      rewrite (exec_all_match _ _ _ _ st Hm Hidx Hne), Hcap.
      cbn [map]. f_equal. apply exec_all_end_numbered.
    + destruct (numbered_match e prev (nl :: lines_of (l :: ls)) Hprev He eq_refl)
        as (st & Hm & Hidx & Hcap).
      rewrite (exec_all_match _ _ _ _ st Hm Hidx Hne), Hcap. f_equal.
      rewrite exec_all_nomatch by (unfold match_line; now rewrite Hafter).
      apply IH; [reflexivity | exact Hes].
Qed.

Lemma bullet_lines (entries : list listed) : forall prev,
  at_line_start prev = true ->
  forallb bullet_ok entries = true ->
  exec_all bullet_body prev (lines_of (map bullet_line entries)) 0
    = map (fun e => trim (item e)) entries.
Proof.
  induction entries as [|e es IH]; intros prev Hprev Hall.
  - apply exec_all_end_bullet.
  - cbn [forallb] in Hall. apply andb_true_iff in Hall as [He Hes].
    assert (Hok : listed_ok e = true).
    { unfold bullet_ok in He. now apply andb_true_iff in He as [He _]. }
    assert (Hne : bullet_line e <> []).
    { unfold bullet_line, bullet_ok in *. apply andb_true_iff in He as [_ He].
      destruct (label e); discriminate. }
    assert (Hafter : at_line_start (prev_after prev (bullet_line e)) = false).
    { unfold bullet_line. rewrite app_assoc. now apply after_item. }
    cbn [map]. rewrite lines_of_cons.
    destruct (map bullet_line es) as [|l ls] eqn:Hmap.
    + destruct es; [|discriminate].
      destruct (bullet_match e prev [] Hprev He I) as (st & Hm & Hidx & Hcap).
      rewrite (exec_all_match _ _ _ _ st Hm Hidx Hne), Hcap.
      cbn [map]. f_equal. apply exec_all_end_bullet.
    + destruct (bullet_match e prev (nl :: lines_of (l :: ls)) Hprev He eq_refl)
        as (st & Hm & Hidx & Hcap).
      rewrite (exec_all_match _ _ _ _ st Hm Hidx Hne), Hcap. f_equal.
      rewrite exec_all_nomatch by (unfold match_line; now rewrite Hafter).
      apply IH; [reflexivity | exact Hes].
Qed.

(** The pattern of the numbers finds nothing in a list of bullets. *)
Lemma numbered_skips_bullets (entries : list listed) : forall prev,
  at_line_start prev = true ->
  forallb bullet_ok entries = true ->
  exec_all numbered_body prev (lines_of (map bullet_line entries)) 0 = [].
Proof.
  induction entries as [|e es IH]; intros prev Hprev Hall.
  - apply exec_all_end_numbered.
  - cbn [forallb] in Hall. apply andb_true_iff in Hall as [He Hes].
    pose proof He as Hb. unfold bullet_ok in Hb. apply andb_true_iff in Hb as [Hok Hm].
    destruct (listed_inside e Hok) as [Hin _].
    assert (Hafter : forall p, at_line_start (prev_after p (gap e ++ item e)) = false)
      by (intros p; now apply after_item).
    cbn [map]. rewrite lines_of_cons.
    assert (Hline : exists m, bullet_line e = m :: gap e ++ item e /\
                              is_digit m = false /\ line_terminator m = false).
    { unfold bullet_line. destruct (label e) as [|m [|? ?]]; try discriminate.
      exists m. split; [reflexivity|].
      apply orb_true_iff in Hm as [Hm | Hm]; apply Ascii.eqb_eq in Hm; subst m;
        split; reflexivity. }
    destruct Hline as (m & -> & Hdig & Hterm).
    assert (Hfirst : forall tail,
              match_line numbered_body prev (m :: tail) = None).
    { intros tail. unfold match_line, numbered_body, Plus, digit. rewrite Hprev.
      rewrite !rmatch_Seq, rmatch_Cls. cbn [rest start_state].
      now rewrite digit_cls, Hdig. }
    destruct (map bullet_line es) as [|l ls] eqn:Hmap.
    + destruct es; [|discriminate]. cbn [app].
      rewrite exec_all_nomatch by apply Hfirst.
      rewrite exec_all_inside; [apply exec_all_end_numbered | exact Hterm | exact Hin].
    + cbn [app]. rewrite exec_all_nomatch by apply Hfirst.
      rewrite exec_all_inside; [| exact Hterm | exact Hin].
      rewrite exec_all_nomatch by (unfold match_line; now rewrite Hafter).
      apply IH; [reflexivity | exact Hes].
Qed.

(** X26. A numbered list, written one entry per line as a number, a
    full stop, white space and the text of the entry, gives the texts of
    its entries, trimmed, in their order; so does a list of bullets
    (a hyphen or an asterisk, white space, the text), which is read only
    because the pattern of the numbers finds nothing in it. *)
Theorem extractSuggestions_lists (entries : list listed) :
  entries <> [] ->
  (forallb numbered_ok entries = true ->
   extractSuggestions (lines_of (map numbered_line entries))
     = map (fun e => trim (item e)) entries) /\
  (forallb bullet_ok entries = true ->
   extractSuggestions (lines_of (map bullet_line entries))
     = map (fun e => trim (item e)) entries).
Proof.
  intros Hne. split; intros Hall; unfold extractSuggestions.
  - rewrite numbered_lines by trivial.
    destruct entries; [contradiction | reflexivity].
  - rewrite numbered_skips_bullets by trivial. cbn [List.length Nat.eqb].
    now apply bullet_lines.
Qed.

Lemma extractSuggestions_lists_witness :
  extractSuggestions
    (str "1. Use const" ++ nl :: str "22.   Validate the input  ")
    = [str "Use const"; str "Validate the input"] /\
  extractSuggestions (str "- Use const" ++ nl :: str "*  Validate the input ")
    = [str "Use const"; str "Validate the input"].
Proof.
  split.
  - apply (proj1 (extractSuggestions_lists
             [{| label := str "1"; gap := str " "; item := str "Use const" |};
              {| label := str "22"; gap := str "   "; item := str "Validate the input  " |}]
             ltac:(discriminate))).
    reflexivity.
  - apply (proj2 (extractSuggestions_lists
             [{| label := str "-"; gap := str " "; item := str "Use const" |};
              {| label := str "*"; gap := str "  "; item := str "Validate the input " |}]
             ltac:(discriminate))).
    reflexivity.
Defined.

End SuggestionProps.
